(** * Wayfire's OpenGL layer (src/core/opengl.cpp, src/api/wayfire/opengl.hpp)

    A shallow embedding of the render targets, their coordinate
    conversions, the texture view and the shader-program multiplexer,
    followed by the properties established about them.

    Conventions of the embedding:
    - C++ [int] / [GLuint] values are [Z]. The only [int] arithmetic of
      the functions embedded here is the addition and subtraction of
      coordinates, whose overflow is undefined in C++ and left unmodelled;
      the masking of the [uint32_t] flag word is written out at 32 bits.
    - C++ [float] is IEEE-754 binary32, given by the Standard Library's
      [SpecFloat] operations at precision 24 and maximal exponent 128;
      each [float] operation rounds to single precision (no evaluation in
      a wider format).
    - OpenGL is an external device: every call the code issues is appended
      to a trace, and the values OpenGL hands back (object names,
      framebuffer status, attribute and uniform locations) come from a
      [gl_driver], an arbitrary function of the calls made so far.
    - a C++ function is a computation in the monad [M S], threading the
      objects it mutates and ending in an [outcome]: a normal return, a
      thrown exception, a failed [assert], or undefined behaviour. *)

From Stdlib Require Import ZArith QArith Qround Lqa Qpower Qabs Floats.SpecFloat.
From Stdlib Require Import Strings.String List Lia.
From stdpp Require Import gmap strings list pretty.

Local Open Scope string_scope.
Local Open Scope list_scope.
Local Open Scope Z_scope.

(** ** Single-precision floats *)

Module F32.

Definition prec : Z := 24.
Definition emax : Z := 128.

(** Conversion of an [int] to [float] (round to nearest even). *)
Definition of_int (z : Z) : spec_float := binary_normalize prec emax z 0 false.

Definition mul : spec_float -> spec_float -> spec_float := SFmul prec emax.
Definition add : spec_float -> spec_float -> spec_float := SFadd prec emax.
Definition sub : spec_float -> spec_float -> spec_float := SFsub prec emax.
Definition div : spec_float -> spec_float -> spec_float := SFdiv prec emax.
Definition opp : spec_float -> spec_float := SFopp.

Definition zero : spec_float := S754_zero false.
Definition one : spec_float := S754_finite false 8388608 (-23).
Definition two : spec_float := S754_finite false 8388608 (-22).

(** The signed mantissa of a finite float. *)
Definition signed (s : bool) (m : positive) : Z := cond_Zopp s (Zpos m).

(** The rational number a float denotes; [None] for infinities and NaN. *)
Definition value (f : spec_float) : option Q :=
  match f with
  | S754_zero _ => Some (inject_Z 0)
  | S754_finite s m (Zneg k) => Some (Qmake (signed s m) (Pos.iter xO xH k))
  | S754_finite s m e => Some (inject_Z (Z.shiftl (signed s m) e))
  | _ => None
  end.

Definition INT_MIN : Z := - 2 ^ 31.
Definition INT_MAX : Z := 2 ^ 31 - 1.

(** The implicit conversion of an integral [float] to [int]: defined
    only when the value fits. *)
Definition to_int_checked (z : Z) : option Z :=
  if (INT_MIN <=? z) && (z <=? INT_MAX) then Some z else None.

(** [std::floor] on a [float] followed by the implicit conversion of its
    (integral) result to [int].  The mantissa is shifted by the exponent,
    rounding towards minus infinity. *)
Definition floor_to_int (f : spec_float) : option Z :=
  match f with
  | S754_zero _ => Some 0
  | S754_finite s m (Zneg k) => to_int_checked (Z.shiftr (signed s m) (Zpos k))
  | S754_finite s m e => to_int_checked (Z.shiftl (signed s m) e)
  | _ => None
  end.

(** [std::ceil] on a [float] followed by the implicit conversion to
    [int]: rounding towards plus infinity. *)
Definition ceil_to_int (f : spec_float) : option Z :=
  match f with
  | S754_zero _ => Some 0
  | S754_finite s m (Zneg k) => to_int_checked (- Z.shiftr (- signed s m) (Zpos k))
  | S754_finite s m e => to_int_checked (Z.shiftl (signed s m) e)
  | _ => None
  end.

End F32.

(** ** Outcomes and the state monad of the embedding *)

Inductive outcome (A : Type) : Type :=
| Returns (a : A)
| Throws (what : string)
| Aborts
| Undefined.
Arguments Returns {A} a.
Arguments Throws {A} what.
Arguments Aborts {A}.
Arguments Undefined {A}.

Definition M (S A : Type) : Type := S -> outcome A * S.

Definition ret {S A : Type} (a : A) : M S A := fun s => (Returns a, s).

Definition bind {S A B : Type} (c : M S A) (k : A -> M S B) : M S B :=
  fun s =>
    match c s with
    | (Returns a, s') => k a s'
    | (Throws w, s') => (Throws w, s')
    | (Aborts, s') => (Aborts, s')
    | (Undefined, s') => (Undefined, s')
    end.

Definition modify {S : Type} (f : S -> S) : M S unit := fun s => (Returns tt, f s).
Definition throw {S A : Type} (what : string) : M S A := fun s => (Throws what, s).
Definition abort {S A : Type} : M S A := fun s => (Aborts, s).
Definition undefined {S A : Type} : M S A := fun s => (Undefined, s).

(** [assert(c)] *)
Definition assert {S : Type} (c : bool) : M S unit :=
  if c then ret tt else abort.

(** A value obtained by a step that is undefined when it yields nothing. *)
Definition defined {S A : Type} (o : option A) : M S A :=
  match o with
  | Some a => ret a
  | None => undefined
  end.

Declare Scope cxx_scope.
Delimit Scope cxx_scope with cxx.
Notation "x <- c ;; k" := (bind c (fun x => k))
  (at level 100, c at next level, right associativity) : cxx_scope.
Notation "c ;; k" := (bind c (fun _ => k))
  (at level 100, right associativity) : cxx_scope.
Local Open Scope cxx_scope.

(** [for (loc : xs) body(loc);] *)
Fixpoint for_each {S A : Type} (xs : list A) (body : A -> M S unit) : M S unit :=
  match xs with
  | [] => ret tt
  | x :: xs' => body x ;; for_each xs' body
  end.

(** ** Boxes, transforms and the external wlroots helpers *)

(** [wlr_box], also [wf::geometry_t]. *)
Record wlr_box : Type := mk_box { x : Z; y : Z; width : Z; height : Z }.

Definition WL_OUTPUT_TRANSFORM_NORMAL : Z := 0.
Definition WL_OUTPUT_TRANSFORM_90 : Z := 1.
Definition WL_OUTPUT_TRANSFORM_180 : Z := 2.
Definition WL_OUTPUT_TRANSFORM_270 : Z := 3.
Definition WL_OUTPUT_TRANSFORM_FLIPPED : Z := 4.
Definition WL_OUTPUT_TRANSFORM_FLIPPED_90 : Z := 5.
Definition WL_OUTPUT_TRANSFORM_FLIPPED_180 : Z := 6.
Definition WL_OUTPUT_TRANSFORM_FLIPPED_270 : Z := 7.

(** wlroots' [wlr_output_transform_invert]: a rotation by 90 or 270
    degrees that is not flipped is replaced by the opposite rotation. *)
Definition wlr_output_transform_invert (tr : Z) : Z :=
  if Z.testbit tr 0 && negb (Z.testbit tr 2)
  then Z.lxor tr WL_OUTPUT_TRANSFORM_180
  else tr.

(** wlroots' [wlr_box_transform (&dest, &b, tr, w, h)] writes over [dest]
    the box [b] of a [w] by [h] area seen through the transform [tr]. The
    function belongs to the wlroots library and is a parameter of the
    conversions below, taking [dest] and returning its new content. This
    is the body it has in wlroots, used for the concrete runs; for any
    other value of [tr] the switch leaves the origin of [dest] alone. *)
Definition wlroots_box_transform (dest b : wlr_box) (tr : Z) (w h : Z) : wlr_box :=
  let dw := if Z.even tr then width b else height b in
  let dh := if Z.even tr then height b else width b in
  match tr with
  | 0 => mk_box (x b) (y b) dw dh
  | 1 => mk_box (h - y b - height b) (x b) dw dh
  | 2 => mk_box (w - x b - width b) (h - y b - height b) dw dh
  | 3 => mk_box (y b) (w - x b - width b) dw dh
  | 4 => mk_box (w - x b - width b) (y b) dw dh
  | 5 => mk_box (y b) (x b) dw dh
  | 6 => mk_box (x b) (h - y b - height b) dw dh
  | 7 => mk_box (h - y b - height b) (w - x b - width b) dw dh
  | _ => mk_box (x dest) (y dest) dw dh
  end.

(** ** glm vectors and matrices *)

Module Glm.

Record vec4 : Type := mk_vec4 { r : spec_float; g : spec_float; b : spec_float; a : spec_float }.

(** Column-major, as in glm: [c0 m] is [m[0]]. *)
Record mat4 : Type := mk_mat4 { c0 : vec4; c1 : vec4; c2 : vec4; c3 : vec4 }.

Definition vscale (v : vec4) (k : spec_float) : vec4 :=
  mk_vec4 (F32.mul (r v) k) (F32.mul (g v) k) (F32.mul (b v) k) (F32.mul (a v) k).

Definition vadd (u v : vec4) : vec4 :=
  mk_vec4 (F32.add (r u) (r v)) (F32.add (g u) (g v)) (F32.add (b u) (b v)) (F32.add (a u) (a v)).

(** [glm::mat4(1.0)] *)
Definition identity : mat4 :=
  mk_mat4 (mk_vec4 F32.one F32.zero F32.zero F32.zero)
          (mk_vec4 F32.zero F32.one F32.zero F32.zero)
          (mk_vec4 F32.zero F32.zero F32.one F32.zero)
          (mk_vec4 F32.zero F32.zero F32.zero F32.one).

(** [m1 * m2] *)
Definition mul (m1 m2 : mat4) : mat4 :=
  let col (v : vec4) :=
    vadd (vadd (vadd (vscale (c0 m1) (r v)) (vscale (c1 m1) (g v)))
               (vscale (c2 m1) (b v)))
         (vscale (c3 m1) (a v)) in
  mk_mat4 (col (c0 m2)) (col (c1 m2)) (col (c2 m2)) (col (c3 m2)).

(** [glm::ortho(left, right, bottom, top)] *)
Definition ortho (left right bottom top : spec_float) : mat4 :=
  mk_mat4
    (mk_vec4 (F32.div F32.two (F32.sub right left)) F32.zero F32.zero F32.zero)
    (mk_vec4 F32.zero (F32.div F32.two (F32.sub top bottom)) F32.zero F32.zero)
    (mk_vec4 F32.zero F32.zero (F32.opp F32.one) F32.zero)
    (mk_vec4 (F32.div (F32.opp (F32.add right left)) (F32.sub right left))
             (F32.div (F32.opp (F32.add top bottom)) (F32.sub top bottom))
             F32.zero F32.one).

End Glm.

(** ** OpenGL as a trace of calls *)

Definition GL_FALSE : bool := false.
Definition GL_ONE : Z := 1.
Definition GL_TRIANGLE_FAN : Z := 0x0006.
Definition GL_ONE_MINUS_SRC_ALPHA : Z := 0x0303.
Definition GL_BLEND : Z := 0x0BE2.
Definition GL_TEXTURE_2D : Z := 0x0DE1.
Definition GL_UNSIGNED_BYTE : Z := 0x1401.
Definition GL_FLOAT : Z := 0x1406.
Definition GL_RGBA : Z := 0x1908.
Definition GL_LINEAR : Z := 0x2601.
Definition GL_TEXTURE_MAG_FILTER : Z := 0x2800.
Definition GL_TEXTURE_MIN_FILTER : Z := 0x2801.
Definition GL_TEXTURE_WRAP_S : Z := 0x2802.
Definition GL_TEXTURE_WRAP_T : Z := 0x2803.
Definition GL_CLAMP_TO_EDGE : Z := 0x812F.
Definition GL_TEXTURE0 : Z := 0x84C0.
Definition GL_FRAMEBUFFER_COMPLETE : Z := 0x8CD5.
Definition GL_COLOR_ATTACHMENT0 : Z := 0x8CE0.
Definition GL_FRAMEBUFFER : Z := 0x8D40.

Inductive gl_call : Type :=
| glGenFramebuffers (n : Z)
| glGenTextures (n : Z)
| glBindTexture (target texture : Z)
| glTexParameteri (target pname param : Z)
| glTexImage2D (target level internalformat w h border format type : Z)
| glBindFramebuffer (target framebuffer : Z)
| glFramebufferTexture2D (target attachment textarget texture level : Z)
| glCheckFramebufferStatus (target : Z)
| glDeleteProgram (program : Z)
| glUseProgram (program : Z)
| glGetUniformLocation (program : Z) (name : string)
| glGetAttribLocation (program : Z) (name : string)
| glUniform1i (location : Z) (v : Z)
| glUniform1f (location : Z) (v : spec_float)
| glUniform2f (location : Z) (v0 v1 : spec_float)
| glUniform4f (location : Z) (v0 v1 v2 v3 : spec_float)
| glUniformMatrix4fv (location count : Z) (transpose : bool) (value : Glm.mat4)
| glEnableVertexAttribArray (index : Z)
| glDisableVertexAttribArray (index : Z)
| glVertexAttribPointer (index size type : Z) (normalized : bool) (stride : Z)
    (pointee : list spec_float)
| glVertexAttribDivisor (index divisor : Z)
| glActiveTexture (texture : Z)
| glEnable (cap : Z)
| glBlendFunc (sfactor dfactor : Z)
| glDrawArrays (mode first count : Z).

(** What OpenGL answers, as a function of the calls made so far. *)
Record gl_driver : Type := {
  gen_name : list gl_call -> Z;
  framebuffer_status : list gl_call -> Z;
  uniform_location : list gl_call -> Z -> string -> Z;
  attrib_location : list gl_call -> Z -> string -> Z
}.

(** The surroundings of the program: the OpenGL calls issued, oldest
    first, and the lines written with [LOGE]. The error polling that the
    [GL_CALL] macro adds after each call only writes diagnostics and is
    left out. *)
Record world : Type := { gl_calls : list gl_call; log_lines : list string }.

Section Objects.

Context {O : Type}.

(** The object a member function runs on. *)
Definition this : M (O * world) O := fun s => (Returns (fst s), s).
Definition set_this (o : O) : M (O * world) unit := fun s => (Returns tt, (o, snd s)).

Definition calls : M (O * world) (list gl_call) :=
  fun s => (Returns (gl_calls (snd s)), s).

(** [GL_CALL(c)] *)
Definition GL_CALL (c : gl_call) : M (O * world) unit :=
  modify (fun s => (fst s, {| gl_calls := gl_calls (snd s) ++ [c];
                              log_lines := log_lines (snd s) |})).

Definition LOGE (line : string) : M (O * world) unit :=
  modify (fun s => (fst s, {| gl_calls := gl_calls (snd s);
                              log_lines := log_lines (snd s) ++ [line] |})).

End Objects.

(** [a[i]] on a C array held as a list: reading outside it is undefined. *)
Definition array_get {A : Type} (l : list A) (i : Z) : option A :=
  if i <? 0 then None else l !! Z.to_nat i.

(** [a[i] = v] *)
Definition array_set {A : Type} (l : list A) (i : Z) (v : A) : list A :=
  <[Z.to_nat i := v]> l.

(** [std::set<int>], kept in iteration order (strictly ascending). *)
Fixpoint set_insert (v : Z) (s : list Z) : list Z :=
  match s with
  | [] => [v]
  | u :: s' =>
      if v <? u then v :: u :: s'
      else if v =? u then u :: s'
      else u :: set_insert v s'
  end.

(** ** Render targets *)

Definition UINT32_MAX : Z := 2 ^ 32 - 1.

(** [wf::framebuffer_base_t]; [(GLuint)-1] marks an unset handle. *)
Record framebuffer_base_t : Type := mk_framebuffer_base {
  tex : Z;
  fb : Z;
  viewport_width : Z;
  viewport_height : Z
}.

(** A default-constructed render target; also what [reset()] leaves. *)
Definition framebuffer_base_default : framebuffer_base_t :=
  mk_framebuffer_base UINT32_MAX UINT32_MAX 0 0.

Definition reset : M (framebuffer_base_t * world) unit :=
  set_this framebuffer_base_default.

(** [wf::framebuffer_t] *)
Record framebuffer_t : Type := mk_framebuffer {
  base : framebuffer_base_t;
  geometry : wlr_box;
  wl_transform : Z;
  scale : spec_float;
  has_nonstandard_transform : bool;
  transform : Glm.mat4
}.

Definition framebuffer_default : framebuffer_t :=
  mk_framebuffer framebuffer_base_default (mk_box 0 0 0 0)
    WL_OUTPUT_TRANSFORM_NORMAL F32.one false Glm.identity.

Section RenderTargets.

Variable drv : gl_driver.

(** [glGenFramebuffers(1, &name)] / [glGenTextures(1, &name)]: the call
    is issued and the name OpenGL writes back is returned. *)
Definition gl_gen {O : Type} (c : gl_call) : M (O * world) Z :=
  GL_CALL c ;;
  cs <- calls ;;
  ret (gen_name drv cs).

(** [auto status = GL_CALL(glCheckFramebufferStatus(target))] *)
Definition gl_check_framebuffer_status {O : Type} (target : Z) : M (O * world) Z :=
  GL_CALL (glCheckFramebufferStatus target) ;;
  cs <- calls ;;
  ret (framebuffer_status drv cs).

(** [wf::framebuffer_base_t::allocate] *)
Definition allocate (width height : Z) : M (framebuffer_base_t * world) bool :=
  t0 <- this ;;
  created_fb <-
    (if fb t0 =? UINT32_MAX then
       name <- gl_gen (glGenFramebuffers 1) ;;
       t <- this ;;
       set_this (mk_framebuffer_base (tex t) name (viewport_width t) (viewport_height t)) ;;
       ret true
     else ret false) ;;
  t1 <- this ;;
  created_tex <-
    (if tex t1 =? UINT32_MAX then
       name <- gl_gen (glGenTextures 1) ;;
       t <- this ;;
       set_this (mk_framebuffer_base name (fb t) (viewport_width t) (viewport_height t)) ;;
       GL_CALL (glBindTexture GL_TEXTURE_2D name) ;;
       GL_CALL (glTexParameteri GL_TEXTURE_2D GL_TEXTURE_WRAP_S GL_CLAMP_TO_EDGE) ;;
       GL_CALL (glTexParameteri GL_TEXTURE_2D GL_TEXTURE_WRAP_T GL_CLAMP_TO_EDGE) ;;
       GL_CALL (glTexParameteri GL_TEXTURE_2D GL_TEXTURE_MAG_FILTER GL_LINEAR) ;;
       GL_CALL (glTexParameteri GL_TEXTURE_2D GL_TEXTURE_MIN_FILTER GL_LINEAR) ;;
       ret true
     else ret false) ;;
  let first_allocate := created_fb || created_tex in
  t <- this ;;
  (* Special case: fb = 0, nothing is resized *)
  is_resize <-
    (if negb (fb t =? 0)
        && (first_allocate
            || negb (width =? viewport_width t)
            || negb (height =? viewport_height t))
     then
       GL_CALL (glBindTexture GL_TEXTURE_2D (tex t)) ;;
       GL_CALL (glTexImage2D GL_TEXTURE_2D 0 GL_RGBA width height 0
                  GL_RGBA GL_UNSIGNED_BYTE) ;;
       ret true
     else ret false) ;;
  (if first_allocate then
     GL_CALL (glBindFramebuffer GL_FRAMEBUFFER (fb t)) ;;
     GL_CALL (glBindTexture GL_TEXTURE_2D (tex t)) ;;
     GL_CALL (glFramebufferTexture2D GL_FRAMEBUFFER GL_COLOR_ATTACHMENT0
                GL_TEXTURE_2D (tex t) 0)
   else ret tt) ;;
  complete <-
    (if is_resize || first_allocate then
       status <- gl_check_framebuffer_status GL_FRAMEBUFFER ;;
       ret (status =? GL_FRAMEBUFFER_COMPLETE)
     else ret true) ;;
  if negb complete then
    LOGE "Failed to initialize framebuffer" ;;
    ret false
  else
    set_this (mk_framebuffer_base (tex t) (fb t) width height) ;;
    GL_CALL (glBindTexture GL_TEXTURE_2D 0) ;;
    GL_CALL (glBindFramebuffer GL_FRAMEBUFFER 0) ;;
    ret (is_resize || first_allocate).

End RenderTargets.

(** ** Coordinate conversions of an output render target *)

Section Conversions.

Context {O : Type}.

(** The library's [wlr_box_transform]. *)
Variable wlr_box_transform : wlr_box -> wlr_box -> Z -> Z -> Z -> wlr_box.

(** [wf::framebuffer_t::framebuffer_box_from_damage_box] *)
Definition framebuffer_box_from_damage_box (t : framebuffer_t) (box : wlr_box)
  : M (O * world) wlr_box :=
  if has_nonstandard_transform t then
    (* TODO: unimplemented, but also unused for now *)
    LOGE ("unimplemented reached: framebuffer_box_from_geometry_box"
          +:+ " with has_nonstandard_transform") ;;
    ret (mk_box 0 0 0 0)
  else
    let width0 := viewport_width (base t) in
    let height0 := viewport_height (base t) in
    let width1 := if Z.testbit (wl_transform t) 0 then height0 else width0 in
    let height1 := if Z.testbit (wl_transform t) 0 then width0 else height0 in
    let result := box in
    let transform := wlr_output_transform_invert (wl_transform t) in
    ret (wlr_box_transform result box transform width1 height1).

(** [wf::framebuffer_t::damage_box_from_geometry_box]: each field is
    converted to [float], multiplied by the scale, rounded and converted
    back to [int]. *)
Definition damage_box_from_geometry_box (t : framebuffer_t) (box : wlr_box)
  : M (O * world) wlr_box :=
  x' <- defined (F32.floor_to_int (F32.mul (F32.of_int (x box)) (scale t))) ;;
  y' <- defined (F32.floor_to_int (F32.mul (F32.of_int (y box)) (scale t))) ;;
  width' <- defined (F32.ceil_to_int (F32.mul (F32.of_int (width box)) (scale t))) ;;
  height' <- defined (F32.ceil_to_int (F32.mul (F32.of_int (height box)) (scale t))) ;;
  ret (mk_box x' y' width' height').

(** [wf::framebuffer_t::framebuffer_box_from_geometry_box] *)
Definition framebuffer_box_from_geometry_box (t : framebuffer_t) (box : wlr_box)
  : M (O * world) wlr_box :=
  damage <- damage_box_from_geometry_box t box ;;
  framebuffer_box_from_damage_box t damage.


End Conversions.

(** [wf::framebuffer_t::get_orthographic_projection] *)
Definition get_orthographic_projection (t : framebuffer_t) : Glm.mat4 :=
  let gx := F32.mul F32.one (F32.of_int (x (geometry t))) in
  let gy := F32.mul F32.one (F32.of_int (y (geometry t))) in
  let gw := F32.mul F32.one (F32.of_int (width (geometry t))) in
  let gh := F32.mul F32.one (F32.of_int (height (geometry t))) in
  let ortho := Glm.ortho gx (F32.add gx gw) (F32.add gy gh) gy in
  Glm.mul (transform t) ortho.

(** ** Texture views *)

(** [wf::texture_type_t] *)
Inductive texture_type_t : Type :=
| TEXTURE_TYPE_RGBA
| TEXTURE_TYPE_RGBX
| TEXTURE_TYPE_EXTERNAL
| TEXTURE_TYPE_ALL.

(** The enumerators' values. *)
Definition type_index (type : texture_type_t) : Z :=
  match type with
  | TEXTURE_TYPE_RGBA => 0
  | TEXTURE_TYPE_RGBX => 1
  | TEXTURE_TYPE_EXTERNAL => 2
  | TEXTURE_TYPE_ALL => 3
  end.

(** [wf::texture_t] *)
Record texture_t : Type := mk_texture {
  type : texture_type_t;
  target : Z;
  invert_y : bool;
  tex_id : Z
}.

(** wlroots' [wlr_gles2_texture_attribs]. *)
Record wlr_gles2_texture_attribs : Type := mk_attribs {
  attribs_target : Z;
  attribs_tex : Z;
  inverted_y : bool;
  has_alpha : bool
}.

(** A [wlr_texture], as far as this code looks at it: whether it is a
    GLES2 texture, and the attributes [wlr_gles2_texture_get_attribs]
    reports for it. *)
Record wlr_texture : Type := mk_wlr_texture {
  wlr_texture_is_gles2 : bool;
  wlr_gles2_texture_get_attribs : wlr_gles2_texture_attribs
}.

(** [wf::texture_t]'s constructor from a pointer to a [wlr_texture]. *)
Definition texture_t_of_wlr {S : Type} (texture : wlr_texture) : M S texture_t :=
  assert (wlr_texture_is_gles2 texture) ;;
  let attribs := wlr_gles2_texture_get_attribs texture in
  (* Wayfire Y-inverts by default *)
  let invert_y := negb (inverted_y attribs) in
  let target := attribs_target attribs in
  let tex_id := attribs_tex attribs in
  if target =? GL_TEXTURE_2D then
    ret (mk_texture (if has_alpha attribs then TEXTURE_TYPE_RGBA else TEXTURE_TYPE_RGBX)
           target invert_y tex_id)
  else
    ret (mk_texture TEXTURE_TYPE_EXTERNAL target invert_y tex_id).

(** ** The shader-program multiplexer *)

(** [OpenGL::program_t::impl]. The slots [id] are declared [int] and
    hold OpenGL's program names, which are [GLuint]: a slot is modelled by
    the name it holds, that is by its 32 bits read as unsigned, which is
    how the code tests a slot against 0 and hands it back to OpenGL.
    [get_program_id] reads the same bits as an [int]. *)
Record impl : Type := mk_impl {
  active_attrs : list Z;
  active_attrs_divisors : list Z;
  active_program_idx : Z;
  id : list Z;
  uniforms : list (gmap string Z);
  attribs : list (gmap string Z)
}.

Definition set_active_attrs (v : list Z) (p : impl) : impl :=
  mk_impl v (active_attrs_divisors p) (active_program_idx p) (id p) (uniforms p) (attribs p).
Definition set_active_attrs_divisors (v : list Z) (p : impl) : impl :=
  mk_impl (active_attrs p) v (active_program_idx p) (id p) (uniforms p) (attribs p).
Definition set_active_program_idx (v : Z) (p : impl) : impl :=
  mk_impl (active_attrs p) (active_attrs_divisors p) v (id p) (uniforms p) (attribs p).
Definition set_id (v : list Z) (p : impl) : impl :=
  mk_impl (active_attrs p) (active_attrs_divisors p) (active_program_idx p) v (uniforms p) (attribs p).
Definition set_uniforms (v : list (gmap string Z)) (p : impl) : impl :=
  mk_impl (active_attrs p) (active_attrs_divisors p) (active_program_idx p) (id p) v (attribs p).
Definition set_attribs (v : list (gmap string Z)) (p : impl) : impl :=
  mk_impl (active_attrs p) (active_attrs_divisors p) (active_program_idx p) (id p) (uniforms p) v.

(** [OpenGL::program_t::program_t()]: every slot of [id] is zeroed. *)
Definition program_t_new : impl :=
  mk_impl [] [] 0
    (replicate (Z.to_nat (type_index TEXTURE_TYPE_ALL)) 0)
    (replicate (Z.to_nat (type_index TEXTURE_TYPE_ALL)) ∅)
    (replicate (Z.to_nat (type_index TEXTURE_TYPE_ALL)) ∅).

(** [gl_geometry] *)
Record gl_geometry : Type := mk_gl_geometry {
  x1 : spec_float; y1 : spec_float; x2 : spec_float; y2 : spec_float
}.

(** [OpenGL::texture_rendering_flags_t] *)
Definition TEXTURE_TRANSFORM_INVERT_X : Z := Z.shiftl 1 0.
Definition TEXTURE_TRANSFORM_INVERT_Y : Z := Z.shiftl 1 1.
Definition TEXTURE_USE_TEX_GEOMETRY : Z := Z.shiftl 1 2.

(** [bits & flag] as a condition *)
Definition has_flag (bits flag : Z) : bool := negb (Z.land bits flag =? 0).

Section Program.

Variable drv : gl_driver.

(** [impl::find_uniform_loc] *)
Definition find_uniform_loc (name : string) : M (impl * world) Z :=
  p <- this ;;
  cache <- defined (array_get (uniforms p) (active_program_idx p)) ;;
  match cache !! name with
  | Some loc => ret loc
  | None =>
      program <- defined (array_get (id p) (active_program_idx p)) ;;
      GL_CALL (glGetUniformLocation program name) ;;
      cs <- calls ;;
      let loc := uniform_location drv cs program name in
      set_this (set_uniforms
                  (array_set (uniforms p) (active_program_idx p) (<[name := loc]> cache)) p) ;;
      ret loc
  end.

(** [impl::find_attrib_loc] *)
Definition find_attrib_loc (name : string) : M (impl * world) Z :=
  p <- this ;;
  cache <- defined (array_get (attribs p) (active_program_idx p)) ;;
  match cache !! name with
  | Some loc => ret loc
  | None =>
      program <- defined (array_get (id p) (active_program_idx p)) ;;
      GL_CALL (glGetAttribLocation program name) ;;
      cs <- calls ;;
      let loc := attrib_location drv cs program name in
      set_this (set_attribs
                  (array_set (attribs p) (active_program_idx p) (<[name := loc]> cache)) p) ;;
      ret loc
  end.

(** [program_t::free_resources] *)
Definition free_resources : M (impl * world) unit :=
  for_each (seqZ 0 (type_index TEXTURE_TYPE_ALL)) (fun i =>
    p <- this ;;
    program <- defined (array_get (id p) i) ;;
    if negb (program =? 0) then
      GL_CALL (glDeleteProgram program) ;;
      set_this (set_id (array_set (id p) i 0) p)
    else ret tt).

(** [program_t::set_simple]: the [GLuint] handed in is stored in the
    [int] slot, which keeps its bits. *)
Definition set_simple (program_id : Z) (type : texture_type_t) : M (impl * world) unit :=
  free_resources ;;
  assert (type_index type <? type_index TEXTURE_TYPE_ALL) ;;
  p <- this ;;
  set_this (set_id (array_set (id p) (type_index type) program_id) p).

(** [program_t::use] *)
Definition use (type : texture_type_t) : M (impl * world) unit :=
  p <- this ;;
  program <- defined (array_get (id p) (type_index type)) ;;
  if program =? 0 then
    throw ("program_t has no program for type " +:+ pretty (type_index type))
  else
    GL_CALL (glUseProgram program) ;;
    set_this (set_active_program_idx (type_index type) p).

(** The 32 bits of a [GLuint] read as an [int] (two's complement). *)
Definition int_of_GLuint (v : Z) : Z :=
  let bits := v mod 2 ^ 32 in
  if bits <? 2 ^ 31 then bits else bits - 2 ^ 32.

(** [program_t::get_program_id]: the slot, returned as the [int] it is
    declared. *)
Definition get_program_id (type : texture_type_t) : M (impl * world) Z :=
  p <- this ;;
  program <- defined (array_get (id p) (type_index type)) ;;
  ret (int_of_GLuint program).

(** [program_t::uniform1i] *)
Definition uniform1i (name : string) (value : Z) : M (impl * world) unit :=
  loc <- find_uniform_loc name ;;
  GL_CALL (glUniform1i loc value).

(** [program_t::uniform1f] *)
Definition uniform1f (name : string) (value : spec_float) : M (impl * world) unit :=
  loc <- find_uniform_loc name ;;
  GL_CALL (glUniform1f loc value).

(** [program_t::uniform2f] *)
Definition uniform2f (name : string) (v0 v1 : spec_float) : M (impl * world) unit :=
  loc <- find_uniform_loc name ;;
  GL_CALL (glUniform2f loc v0 v1).

(** [program_t::uniform4f] *)
Definition uniform4f (name : string) (value : Glm.vec4) : M (impl * world) unit :=
  loc <- find_uniform_loc name ;;
  GL_CALL (glUniform4f loc (Glm.r value) (Glm.g value) (Glm.b value) (Glm.a value)).

(** [program_t::uniformMatrix4f] *)
Definition uniformMatrix4f (name : string) (value : Glm.mat4) : M (impl * world) unit :=
  loc <- find_uniform_loc name ;;
  GL_CALL (glUniformMatrix4fv loc 1 GL_FALSE value).

(** [program_t::attrib_pointer]; [ptr] is given by the floats it points to. *)
Definition attrib_pointer (attrib : string) (size stride : Z) (ptr : list spec_float)
    (type : Z) : M (impl * world) unit :=
  loc <- find_attrib_loc attrib ;;
  p <- this ;;
  set_this (set_active_attrs (set_insert loc (active_attrs p)) p) ;;
  GL_CALL (glEnableVertexAttribArray loc) ;;
  GL_CALL (glVertexAttribPointer loc size type GL_FALSE stride ptr).

(** [program_t::attrib_divisor] *)
Definition attrib_divisor (attrib : string) (divisor : Z) : M (impl * world) unit :=
  loc <- find_attrib_loc attrib ;;
  p <- this ;;
  set_this (set_active_attrs_divisors (set_insert loc (active_attrs_divisors p)) p) ;;
  GL_CALL (glVertexAttribDivisor loc divisor).

(** [program_t::set_active_texture] *)
Definition set_active_texture (texture : texture_t) : M (impl * world) unit :=
  GL_CALL (glActiveTexture GL_TEXTURE0) ;;
  GL_CALL (glBindTexture (target texture) (tex_id texture)) ;;
  GL_CALL (glTexParameteri (target texture) GL_TEXTURE_MIN_FILTER GL_LINEAR) ;;
  uniform1f "_wayfire_y_base" (if invert_y texture then F32.one else F32.zero) ;;
  uniform1f "_wayfire_y_mult" (if invert_y texture then F32.opp F32.one else F32.one).

(** [program_t::deactivate] *)
Definition deactivate : M (impl * world) unit :=
  p <- this ;;
  for_each (active_attrs_divisors p) (fun loc => GL_CALL (glVertexAttribDivisor loc 0)) ;;
  for_each (active_attrs p) (fun loc => GL_CALL (glDisableVertexAttribArray loc)) ;;
  p' <- this ;;
  set_this (set_active_attrs [] (set_active_attrs_divisors [] p')) ;;
  GL_CALL (glUseProgram 0).

(** ** Drawing *)

(** [OpenGL::render_transformed_texture] on a [gl_geometry]; the state
    is the global [OpenGL::program]. *)
Definition render_transformed_texture (tex : texture_t) (g texg : gl_geometry)
    (model : Glm.mat4) (color : Glm.vec4) (bits : Z) : M (impl * world) unit :=
  use (type tex) ;;
  let final_g := g in
  let final_g :=
    if has_flag bits TEXTURE_TRANSFORM_INVERT_Y
    then mk_gl_geometry (x1 final_g) (y2 final_g) (x2 final_g) (y1 final_g)
    else final_g in
  let final_g :=
    if has_flag bits TEXTURE_TRANSFORM_INVERT_X
    then mk_gl_geometry (x2 final_g) (y1 final_g) (x1 final_g) (y2 final_g)
    else final_g in
  let vertexData :=
    [ x1 final_g; y2 final_g;
      x2 final_g; y2 final_g;
      x2 final_g; y1 final_g;
      x1 final_g; y1 final_g ] in
  let coordData :=
    if has_flag bits TEXTURE_USE_TEX_GEOMETRY
    then [ x1 texg; y2 texg;
           x2 texg; y2 texg;
           x2 texg; y1 texg;
           x1 texg; y1 texg ]
    else [ F32.zero; F32.zero;
           F32.one; F32.zero;
           F32.one; F32.one;
           F32.zero; F32.one ] in
  set_active_texture tex ;;
  attrib_pointer "position" 2 0 vertexData GL_FLOAT ;;
  attrib_pointer "uvPosition" 2 0 coordData GL_FLOAT ;;
  uniformMatrix4f "MVP" model ;;
  uniform4f "color" color ;;
  GL_CALL (glEnable GL_BLEND) ;;
  GL_CALL (glBlendFunc GL_ONE GL_ONE_MINUS_SRC_ALPHA) ;;
  GL_CALL (glDrawArrays GL_TRIANGLE_FAN 0 4) ;;
  deactivate.

(** [OpenGL::render_transformed_texture] on a [wf::geometry_t]. *)
Definition render_transformed_texture_geometry (texture : texture_t)
    (geom : wlr_box) (transform : Glm.mat4) (color : Glm.vec4) (bits : Z)
  : M (impl * world) unit :=
  let bits := Z.land bits (Z.lxor UINT32_MAX TEXTURE_USE_TEX_GEOMETRY) in
  let gg_x1 := F32.of_int (x geom) in
  let gg_y1 := F32.of_int (y geom) in
  let gg_x2 := F32.add gg_x1 (F32.of_int (width geom)) in
  let gg_y2 := F32.add gg_y1 (F32.of_int (height geom)) in
  render_transformed_texture texture (mk_gl_geometry gg_x1 gg_y1 gg_x2 gg_y2)
    (mk_gl_geometry F32.zero F32.zero F32.zero F32.zero) transform color bits.

(** [OpenGL::render_transformed_texture] on a [wf::framebuffer_t], which
    the header declares as [OpenGL::render_texture]. *)
Definition render_texture (texture : texture_t) (framebuffer : framebuffer_t)
    (geom : wlr_box) (color : Glm.vec4) (bits : Z) : M (impl * world) unit :=
  let actual_geometry :=
    mk_box (x geom + x (geometry framebuffer))
           (y geom + y (geometry framebuffer))
           (width geom) (height geom) in
  render_transformed_texture_geometry texture geom
    (get_orthographic_projection framebuffer) color bits.

End Program.

(** ** Sequences of attribute calls, and what OpenGL makes of a trace *)

(** One call of [attrib_pointer] or of [attrib_divisor]. *)
Inductive attrib_op : Type :=
| Attrib_pointer (attrib : string) (size stride : Z) (ptr : list spec_float) (type : Z)
| Attrib_divisor (attrib : string) (divisor : Z).

Section AttribOps.

Variable drv : gl_driver.

Definition run_attrib_op (op : attrib_op) : M (impl * world) unit :=
  match op with
  | Attrib_pointer attrib size stride ptr type =>
      attrib_pointer drv attrib size stride ptr type
  | Attrib_divisor attrib divisor => attrib_divisor drv attrib divisor
  end.

Definition run_attrib_ops (ops : list attrib_op) : M (impl * world) unit :=
  for_each ops run_attrib_op.

End AttribOps.

(** The part of the OpenGL state that the multiplexer's calls act on: which
    vertex attribute arrays are enabled, the divisor of each (0 unless
    set), and the program in use (0 for none). *)
Record gl_vertex_state : Type := {
  array_enabled : Z -> bool;
  array_divisor : Z -> Z;
  current_program : Z
}.

Definition gl_step (st : gl_vertex_state) (c : gl_call) : gl_vertex_state :=
  match c with
  | glEnableVertexAttribArray index =>
      {| array_enabled := fun i => if i =? index then true else array_enabled st i;
         array_divisor := array_divisor st;
         current_program := current_program st |}
  | glDisableVertexAttribArray index =>
      {| array_enabled := fun i => if i =? index then false else array_enabled st i;
         array_divisor := array_divisor st;
         current_program := current_program st |}
  | glVertexAttribDivisor index divisor =>
      {| array_enabled := array_enabled st;
         array_divisor := fun i => if i =? index then divisor else array_divisor st i;
         current_program := current_program st |}
  | glUseProgram program =>
      {| array_enabled := array_enabled st;
         array_divisor := array_divisor st;
         current_program := program |}
  | _ => st
  end.

(** The state after the calls [cs], oldest first. *)
Definition gl_run (cs : list gl_call) (st : gl_vertex_state) : gl_vertex_state :=
  fold_left gl_step cs st.

(** The arrays of a multiplexer have [TEXTURE_TYPE_ALL] entries, and the
    active index is that of a texture class. *)
Definition well_formed (p : impl) : Prop :=
  0 <= active_program_idx p < type_index TEXTURE_TYPE_ALL
  /\ length (id p) = 3%nat
  /\ length (uniforms p) = 3%nat
  /\ length (attribs p) = 3%nat.

(** The world after the further calls [cs]. *)
Definition world_after (w : world) (cs : list gl_call) : world :=
  {| gl_calls := gl_calls w ++ cs; log_lines := log_lines w |}.

(** What [deactivate] issues for the tracked divisors [divs] and the
    tracked enabled arrays [attrs]. *)
Definition deactivate_calls (divs attrs : list Z) : list gl_call :=
  map (fun loc => glVertexAttribDivisor loc 0) divs
  ++ map glDisableVertexAttribArray attrs
  ++ [glUseProgram 0].

(** A call of [run_attrib_ops] is accounted for by the tracking sets
    [attrs] and [divs]: an array it enables is in [attrs], an array whose
    divisor it sets is in [divs], and it neither disables an array nor
    selects a program. *)
Definition tracked (attrs divs : list Z) (c : gl_call) : Prop :=
  match c with
  | glEnableVertexAttribArray index => In index attrs
  | glVertexAttribDivisor index _ => In index divs
  | glDisableVertexAttribArray _ => False
  | glUseProgram _ => False
  | _ => True
  end.

(** ** Quads *)

(** The vertex array of the quad covering the box [b]: the corners
    (x1,y2), (x2,y2), (x2,y1), (x1,y1), with x2 = x1 + width and
    y2 = y1 + height computed in single precision. *)
Definition quad_vertices (b : wlr_box) : list spec_float :=
  let qx1 := F32.of_int (x b) in
  let qy1 := F32.of_int (y b) in
  let qx2 := F32.add qx1 (F32.of_int (width b)) in
  let qy2 := F32.add qy1 (F32.of_int (height b)) in
  [qx1; qy2; qx2; qy2; qx2; qy1; qx1; qy1].

(** The box [geom] moved by the origin of the target's output rectangle. *)
Definition offset_by_origin (framebuffer : framebuffer_t) (geom : wlr_box) : wlr_box :=
  mk_box (x geom + x (geometry framebuffer)) (y geom + y (geometry framebuffer))
    (width geom) (height geom).

(** The arrays handed to [glVertexAttribPointer] for the attribute at
    [index], in the order of the calls. *)
Fixpoint pointers_at (index : Z) (cs : list gl_call) : list (list spec_float) :=
  match cs with
  | [] => []
  | glVertexAttribPointer i _ _ _ _ pointee :: cs' =>
      if i =? index then pointee :: pointers_at index cs' else pointers_at index cs'
  | _ :: cs' => pointers_at index cs'
  end.

(** The matrices handed to [glUniformMatrix4fv], in the order of the calls. *)
Fixpoint matrices_set (cs : list gl_call) : list Glm.mat4 :=
  match cs with
  | [] => []
  | glUniformMatrix4fv _ _ _ value :: cs' => value :: matrices_set cs'
  | _ :: cs' => matrices_set cs'
  end.

(** ** The products of the scaling, as numbers *)

(** The product the code computes for the coordinate [v]: the number that
    the single-precision product of [v], converted to [float], and the
    scale denotes, when it is finite. It is the code's own product, not
    the exact one; the two are related by [rounded] below. *)
Definition scaled (t : framebuffer_t) (v : Z) : option Q :=
  F32.value (F32.mul (F32.of_int v) (scale t)).

(** An integer as an [int], when it fits. *)
Definition as_int (o : option Z) : option Z :=
  match o with
  | Some z => F32.to_int_checked z
  | None => None
  end.

(** Origin by floor, extent by ceil, of the products the code computes. *)
Definition damage_box_floor_ceil (t : framebuffer_t) (box : wlr_box) : option wlr_box :=
  match as_int (Qfloor <$> scaled t (x box)),
        as_int (Qfloor <$> scaled t (y box)),
        as_int (Qceiling <$> scaled t (width box)),
        as_int (Qceiling <$> scaled t (height box)) with
  | Some x', Some y', Some width', Some height' => Some (mk_box x' y' width' height')
  | _, _, _, _ => None
  end.

(** A box [r] in damage space covers the box [b] scaled exactly by [s]. *)
Definition covers_scaled (s : Q) (b r : wlr_box) : Prop :=
  (inject_Z (x r) <= inject_Z (x b) * s
   /\ inject_Z (y r) <= inject_Z (y b) * s
   /\ inject_Z (x b + width b) * s <= inject_Z (x r + width r)
   /\ inject_Z (y b + height b) * s <= inject_Z (y r + height r))%Q.

(** ** Single precision as numbers *)

(** [q] is a single-precision number: an integer of fewer than 25 bits
    times a power of two no smaller than 2^-149. *)
Definition representable (q : Q) : Prop :=
  exists m e : Z, Z.abs m < 2 ^ 24 /\ -149 <= e /\ (q == inject_Z m * (2 # 1) ^ e)%Q.

(** [p] has an even mantissa: written with a full 24-bit mantissa, or at
    the smallest exponent, its mantissa is even. *)
Definition even_mantissa (p : Q) : Prop :=
  exists m e : Z,
    Z.even m = true
    /\ ((2 ^ 23 <= Z.abs m < 2 ^ 24 /\ -149 <= e) \/ (Z.abs m < 2 ^ 23 /\ e = -149))
    /\ (p == inject_Z m * (2 # 1) ^ e)%Q.

(** [p] is the rounding of [q] to single precision, to nearest with ties
    to even: a single-precision number that no single-precision number is
    nearer to [q] than, and the one with an even mantissa when another is
    as near. The relation also records that [p] is no further from [q]
    than 2^-24 of its magnitude, as holds wherever rounding does not reach
    the smallest numbers, and that [p] is [q] itself when [q] is a
    single-precision number. *)
Definition rounded (q p : Q) : Prop :=
  representable p
  /\ (forall p' : Q, representable p' -> (Qabs (p - q) <= Qabs (p' - q))%Q)
  /\ (forall p' : Q,
        representable p' -> ~ (p' == p)%Q -> (Qabs (p' - q) == Qabs (p - q))%Q ->
        even_mantissa p)
  /\ (Qabs (p - q) * inject_Z (2 ^ 24) <= Qabs q)%Q
  /\ (representable q -> (p == q)%Q).

(** [e] bounds what rounding to single precision moves [q] by: at most
    2^-24 of its magnitude, and nothing when [q] is a single-precision
    number. *)
Definition rounding_slack (q e : Q) : Prop :=
  (0 <= e)%Q
  /\ (e * inject_Z (2 ^ 24) <= Qabs q)%Q
  /\ (representable q -> (e == 0)%Q).

(** What a shift register holds after [k] single shifts of [P]: the
    quotient, the last bit shifted out and whether anything below it was
    not zero. *)
Definition shifted (P k : Z) (r : shr_record) : Prop :=
  0 <= shr_m r
  /\ exists low : Z,
      0 <= low < 2 ^ k
      /\ 2 * P = (2 * shr_m r + Z.b2z (shr_r r)) * 2 ^ k + low
      /\ (shr_s r = false <-> low = 0).

(** ** Concrete inputs used in examples *)

Definition world_initial : world := {| gl_calls := []; log_lines := [] |}.

(** The line [framebuffer_box_from_damage_box] logs when it gives up. *)
Definition unimplemented_line : string :=
  "unimplemented reached: framebuffer_box_from_geometry_box with has_nonstandard_transform".

(** The world after one more [LOGE] line. *)
Definition logged {O : Type} (line : string) (s : O * world) : O * world :=
  (fst s, {| gl_calls := gl_calls (snd s); log_lines := log_lines (snd s) ++ [line] |}).

(** An output target marked as carrying a non-standard transform. *)
Definition framebuffer_nonstandard : framebuffer_t :=
  mk_framebuffer framebuffer_base_default (mk_box 0 0 0 0)
    WL_OUTPUT_TRANSFORM_NORMAL F32.one true Glm.identity.

(** The scale factor 1.5. *)
Definition scale_one_and_half : spec_float := S754_finite false 12582912 (-23).

(** An output target of scale 1.5 and no rotation. *)
Definition framebuffer_scaled : framebuffer_t :=
  mk_framebuffer framebuffer_base_default (mk_box 0 0 0 0)
    WL_OUTPUT_TRANSFORM_NORMAL scale_one_and_half false Glm.identity.

(** The scale factors 1.3f and 1.1f: the single-precision numbers nearest
    to 1.3 and 1.1, a little below 1.3 and a little above 1.1. *)
Definition scale_one_point_three : spec_float := S754_finite false 10905190 (-23).
Definition scale_one_point_one : spec_float := S754_finite false 9227469 (-23).

(** An output target of the given scale and no rotation. *)
Definition framebuffer_of_scale (sc : spec_float) : framebuffer_t :=
  mk_framebuffer framebuffer_base_default (mk_box 0 0 0 0)
    WL_OUTPUT_TRANSFORM_NORMAL sc false Glm.identity.

(** The scale factors 1.25 + 2^-23 and 128 + 2^-16, the single-precision
    numbers after 1.25 and after 128. *)
Definition scale_above_five_quarters : spec_float := S754_finite false 10485761 (-23).
Definition scale_above_128 : spec_float := S754_finite false 8388609 (-16).

(** A driver whose framebuffers are never complete. *)
Definition driver_incomplete : gl_driver :=
  {| gen_name := fun _ => 1;
     framebuffer_status := fun _ => 0;
     uniform_location := fun _ _ _ => 0;
     attrib_location := fun _ _ _ => 0 |}.

(** A driver that names every object 1 (framebuffers and textures have
    separate name spaces), reports every framebuffer complete, and places
    "position" at 0, "uvPosition" at 1 and any other attribute or uniform
    at 2. *)
Definition driver_plain : gl_driver :=
  {| gen_name := fun _ => 1;
     framebuffer_status := fun _ => GL_FRAMEBUFFER_COMPLETE;
     uniform_location := fun _ _ _ => 2;
     attrib_location := fun _ _ name =>
       if String.eqb name "position" then 0
       else if String.eqb name "uvPosition" then 1 else 2 |}.

(** A multiplexer holding the programs 7, 8 and 9 for the three classes. *)
Definition program_compiled : impl :=
  mk_impl [] [] 0 [7; 8; 9] [∅; ∅; ∅] [∅; ∅; ∅].

(** An RGBA texture, and the colour multiplier (1,1,1,1). *)
Definition texture_plain : texture_t := mk_texture TEXTURE_TYPE_RGBA GL_TEXTURE_2D false 9.
Definition color_white : Glm.vec4 := Glm.mk_vec4 F32.one F32.one F32.one F32.one.

(** An output target whose output rectangle starts at (5,7). *)
Definition framebuffer_offset : framebuffer_t :=
  mk_framebuffer framebuffer_base_default (mk_box 5 7 100 100)
    WL_OUTPUT_TRANSFORM_NORMAL F32.one false Glm.identity.

(** ** Further functions of the drawing surface *)

Section Rectangles.

Variable drv : gl_driver.

(** [OpenGL::render_rectangle]; the state is the global
    [OpenGL::color_program]. [wf::color_t] is declared outside these
    sources: the colour is given by the four channels as the [float]s
    that reach [glUniform4f]. *)
Definition render_rectangle (geom : wlr_box) (color : Glm.vec4) (matrix : Glm.mat4)
  : M (impl * world) unit :=
  use TEXTURE_TYPE_RGBA ;;
  let fx := F32.of_int (x geom) in
  let fy := F32.of_int (y geom) in
  let fw := F32.of_int (width geom) in
  let fh := F32.of_int (height geom) in
  let vertexData :=
    [ fx; F32.add fy fh;
      F32.add fx fw; F32.add fy fh;
      F32.add fx fw; fy;
      fx; fy ] in
  attrib_pointer drv "position" 2 0 vertexData GL_FLOAT ;;
  uniformMatrix4f drv "MVP" matrix ;;
  uniform4f drv "color"
    (Glm.mk_vec4 (Glm.r color) (Glm.g color) (Glm.b color) (Glm.a color)) ;;
  GL_CALL (glEnable GL_BLEND) ;;
  GL_CALL (glBlendFunc GL_ONE GL_ONE_MINUS_SRC_ALPHA) ;;
  GL_CALL (glDrawArrays GL_TRIANGLE_FAN 0 4) ;;
  deactivate.

End Rectangles.

(** ** Vocabulary for statements about traces *)

(** A call that touches neither the vertex attribute arrays, nor the
    program in use, and draws nothing. *)
Definition quiet (c : gl_call) : bool :=
  match c with
  | glEnableVertexAttribArray _ | glDisableVertexAttribArray _
  | glVertexAttribPointer _ _ _ _ _ _
  | glVertexAttribDivisor _ _ | glUseProgram _ | glDrawArrays _ _ _ => false
  | _ => true
  end.

Definition is_draw (c : gl_call) : bool :=
  match c with
  | glDrawArrays _ _ _ => true
  | _ => false
  end.

(** The draw calls of a trace. *)
Definition draw_calls (cs : list gl_call) : list gl_call := List.filter is_draw cs.

(** A computation on the multiplexer that always completes on a
    well-formed one, keeps it well formed, leaves the tracking sets, the
    programs and the active class alone, and issues quiet calls only. *)
Definition quiet_step (m : M (impl * world) unit) : Prop :=
  forall (p : impl) (w : world),
    well_formed p ->
    exists (p' : impl) (cs : list gl_call),
      m (p, w) = (Returns tt, (p', world_after w cs))
      /\ well_formed p'
      /\ active_attrs p' = active_attrs p
      /\ active_attrs_divisors p' = active_attrs_divisors p
      /\ Forall (fun c => quiet c = true) cs.


(** A call of the set-up of a draw: quiet, or pointing an array, or
    enabling an array that the set [attrs] tracks. *)
Definition setup_call (attrs : list Z) (c : gl_call) : Prop :=
  match c with
  | glEnableVertexAttribArray index => In index attrs
  | glVertexAttribPointer _ _ _ _ _ _ => True
  | _ => quiet c = true
  end.

(** The three calls that end the set-up of every draw and issue it. *)
Definition blend_and_draw : list gl_call :=
  [glEnable GL_BLEND; glBlendFunc GL_ONE GL_ONE_MINUS_SRC_ALPHA;
   glDrawArrays GL_TRIANGLE_FAN 0 4].

(** What a trace [before ++ draw :: after], issued after the calls [cs0],
    shows of a draw that is single and cleaned up after: no other draw
    call; blending enabled with the (ONE, ONE_MINUS_SRC_ALPHA) function
    before the draw; the program [program] in use at the draw; at the end
    no program in use and every array enabled for the draw disabled. *)
Definition one_clean_draw (program : Z) (cs0 before after : list gl_call) : Prop :=
  draw_calls before = []
  /\ draw_calls after = []
  /\ In (glEnable GL_BLEND) before
  /\ In (glBlendFunc GL_ONE GL_ONE_MINUS_SRC_ALPHA) before
  /\ (forall st, current_program (gl_run (cs0 ++ before) st) = program)
  /\ (forall st,
        current_program
          (gl_run (cs0 ++ before ++ glDrawArrays GL_TRIANGLE_FAN 0 4 :: after) st) = 0)
  /\ (forall st i,
        In (glEnableVertexAttribArray i) before ->
        array_enabled
          (gl_run (cs0 ++ before ++ glDrawArrays GL_TRIANGLE_FAN 0 4 :: after) st) i
        = false).

(** ** Power-of-two scales *)

(** The single-precision number 2^k, for an exponent in the normal range. *)
Definition power_of_two (k : Z) : spec_float := S754_finite false 8388608 (k - 23).

(** A HiDPI output target: scale 2, output rectangle at (10,20). *)
Definition framebuffer_hidpi : framebuffer_t :=
  mk_framebuffer framebuffer_base_default (mk_box 10 20 1920 1080)
    WL_OUTPUT_TRANSFORM_NORMAL F32.two false Glm.identity.

(** A multiplexer that has already looked up "color" for its RGBA program
    7, and was told location 4. *)
Definition program_with_cache : impl :=
  mk_impl [] [] 0 [7; 0; 0] [{["color" := 4]}; ∅; ∅] [∅; ∅; ∅].

(** ** Error polling after an OpenGL call *)

Module GlError.

Definition GL_NO_ERROR : Z := 0.
Definition GL_INVALID_ENUM : Z := 0x0500.
Definition GL_INVALID_VALUE : Z := 0x0501.
Definition GL_INVALID_OPERATION : Z := 0x0502.
Definition GL_OUT_OF_MEMORY : Z := 0x0505.

(** [gl_error_string] *)
Definition gl_error_string (err : Z) : string :=
  if err =? GL_INVALID_ENUM then "GL_INVALID_ENUM"
  else if err =? GL_INVALID_VALUE then "GL_INVALID_VALUE"
  else if err =? GL_INVALID_OPERATION then "GL_INVALID_OPERATION"
  else if err =? GL_OUT_OF_MEMORY then "GL_OUT_OF_MEMORY"
  else "UNKNOWN GL ERROR".

(** The error codes OpenGL has recorded and not yet handed out, in the
    order in which [glGetError] will hand them out, and the lines written
    with [LOGE]. *)
Record error_state : Type := { pending : list Z; error_log : list string }.

(** [glGetError]: hands out one recorded code and clears it; with nothing
    recorded it answers [GL_NO_ERROR]. *)
Definition glGetError : M error_state Z :=
  fun s =>
    match pending s with
    | [] => (Returns GL_NO_ERROR, s)
    | err :: rest => (Returns err, {| pending := rest; error_log := error_log s |})
    end.

Definition LOGE (line : string) : M error_state unit :=
  modify (fun s => {| pending := pending s; error_log := error_log s ++ [line] |}).

(** The text before the name of the error in a report. *)
Definition report_head (func : string) (line : Z) (glfunc : string) : string :=
  "gles2: function " +:+ glfunc +:+ " in " +:+ func +:+ " line " +:+ pretty line +:+ ": ".

(** [gl_call], the check that the [GL_CALL] macro runs after each call. *)
Definition gl_call (func : string) (line : Z) (glfunc : string) : M error_state unit :=
  err <- glGetError ;;
  if err =? GL_NO_ERROR then ret tt
  else
    named <- glGetError ;;
    LOGE (report_head func line glfunc +:+ gl_error_string named).

End GlError.

(** ** Shader sources: substituting the built-in symbols *)

(** [std::string::substr(pos)] and [substr(pos, count)]: the characters
    from [pos] on, at most [count] of them; [None] stands for the
    [std::out_of_range] it raises when [pos] is beyond the end. *)
Fixpoint substr_from (pos : nat) (s : string) : option string :=
  match pos, s with
  | O, _ => Some s
  | S pos', String _ s' => substr_from pos' s'
  | S _, EmptyString => None
  end.

Definition substr (s : string) (pos : nat) (count : option nat) : option string :=
  match substr_from pos s, count with
  | Some rest, Some n => Some (String.substring 0 n rest)
  | Some rest, None => Some rest
  | None, _ => None
  end.

(** [std::string::find(str)]: the first position at which [str] occurs. *)
Definition find (s str : string) : option nat := String.index 0 str s.

(** What [substr] raises. *)
Definition out_of_range {S A : Type} : M S A := throw "basic_string::substr".

Definition substr_or_raise {S : Type} (s : string) (pos : nat) (count : option nat)
  : M S string :=
  match substr s pos count with
  | Some r => ret r
  | None => out_of_range
  end.

(** [replace_builtin_with] *)
Definition replace_builtin_with {S : Type} (source builtin with_ : string) : M S string :=
  match find source builtin with
  | None => ret source
  | Some pos =>
      before <- substr_or_raise source 0 (Some pos) ;;
      after <- substr_or_raise source (pos + String.length builtin) None ;;
      ret (before +:+ with_ +:+ after)
  end.

Definition builtin : string := "@builtin@".
Definition builtin_ext : string := "@builtin_ext@".

(** ** EGL configuration attributes (main.cpp) *)

Definition EGL_BLUE_SIZE : Z := 0x3022.
Definition EGL_GREEN_SIZE : Z := 0x3023.
Definition EGL_RED_SIZE : Z := 0x3024.
Definition EGL_DEPTH_SIZE : Z := 0x3025.
Definition EGL_NONE : Z := 0x3038.

(** [default_attribs], a [std::map]: its entries in the order of their
    keys, which is the order in which the map is traversed. *)
Definition default_attribs : list (Z * Z) :=
  [(EGL_BLUE_SIZE, 1); (EGL_GREEN_SIZE, 1); (EGL_RED_SIZE, 1); (EGL_DEPTH_SIZE, 1)].

(** [std::map::count] *)
Definition count (m : list (Z * Z)) (key : Z) : bool :=
  existsb (fun entry => fst entry =? key) m.

(** The first loop of [generate_config_attribs]. [mem] is the array from
    the pointer [i] on; reading or stepping past its end is undefined. *)
Fixpoint copy_renderer_attribs (mem : list Z) (attribs : list Z) : outcome (list Z) :=
  match mem with
  | [] => Undefined
  | key :: mem' =>
      if key =? EGL_NONE then Returns attribs
      else
        match mem' with
        | [] => Undefined
        | value :: mem'' =>
            if count default_attribs key then
              (* We will override this value later *)
              copy_renderer_attribs mem'' attribs
            else copy_renderer_attribs mem'' (attribs ++ [key; value])
        end
  end.

(** [generate_config_attribs]; [None] is the null pointer. *)
Definition generate_config_attribs (renderer_attribs : option (list Z)) : outcome (list Z) :=
  match match renderer_attribs with
        | None => Returns []
        | Some mem => copy_renderer_attribs mem []
        end with
  | Returns attribs =>
      Returns (fold_left (fun acc p => acc ++ [fst p; snd p]) default_attribs attribs
               ++ [EGL_NONE])
  | Throws what => Throws what
  | Aborts => Aborts
  | Undefined => Undefined
  end.

(** An attribute list as key-value pairs, laid out in memory. *)
Definition attrib_pairs (pairs : list (Z * Z)) : list Z :=
  flat_map (fun p => [fst p; snd p]) pairs.

(** The attributes the renderer asks for that the defaults do not
    override. *)
Definition not_overridden (pairs : list (Z * Z)) : list (Z * Z) :=
  List.filter (fun p => negb (count default_attribs (fst p))) pairs.

(** ** Releasing and moving render targets *)

(** The OpenGL calls that only resource management and shader compilation
    make. *)
Inductive gl_call_more : Type :=
| glDeleteFramebuffers (n : Z) (framebuffers : list Z)
| glDeleteTextures (n : Z) (textures : list Z)
| glCreateShader (type : Z)
| glShaderSource (shader count : Z) (source : string)
| glCompileShader (shader : Z)
| glGetShaderiv (shader pname : Z)
| glGetShaderInfoLog (shader bufSize : Z)
| glCreateProgram
| glAttachShader (program shader : Z)
| glLinkProgram (program : Z)
| glDeleteShader (shader : Z).

(** Every OpenGL call of a run, oldest first, whichever kind it is. *)
Definition gl_event : Type := (gl_call + gl_call_more)%type.

(** A run: the OpenGL calls issued and the lines the code writes with
    [LOGE] itself. As in [world], the error reports that the polling of
    the [GL_CALL] macro can write between them are left out. *)
Record session : Type := { events : list gl_event; session_log : list string }.

Definition base_calls (es : list gl_event) : list gl_call :=
  omap (fun e => match e with inl c => Some c | inr _ => None end) es.

(** The part of a session that the drawing and allocation code sees. *)
Definition world_of (s : session) : world :=
  {| gl_calls := base_calls (events s); log_lines := session_log s |}.

Definition session_after (s : session) (es : list gl_event) : session :=
  {| events := events s ++ es; session_log := session_log s |}.

(** A method written over [world], run inside a session: the calls it
    appends are appended to the session. *)
Definition in_world {O A : Type} (m : M (O * world) A) : M (O * session) A :=
  fun s =>
    let w := world_of (snd s) in
    match m (fst s, w) with
    | (r, (o', w')) =>
        (r, (o', {| events := events (snd s)
                                ++ map inl (drop (length (gl_calls w)) (gl_calls w'));
                    session_log := log_lines w' |}))
    end.

(** [GL_CALL(c)] for these calls: the call is recorded; the [gl_call]
    that polls for errors after it is left out, so a session's log is the
    code's own lines, and the real log can hold error reports besides. *)
Definition GL_CALL_MORE {O : Type} (c : gl_call_more) : M (O * session) unit :=
  modify (fun s => (fst s, session_after (snd s) [inr c])).

(** [wf::framebuffer_base_t::release] *)
Definition release : M (framebuffer_base_t * session) unit :=
  t <- in_world this ;;
  (if negb (fb t =? UINT32_MAX) && negb (fb t =? 0) then
     GL_CALL_MORE (glDeleteFramebuffers 1 [fb t])
   else ret tt) ;;
  (if negb (tex t =? UINT32_MAX) && (negb (fb t =? 0) || negb (tex t =? 0)) then
     GL_CALL_MORE (glDeleteTextures 1 [tex t])
   else ret tt) ;;
  in_world reset.

(** Render targets live at addresses; [this] and [other] of a move may be
    the same address. *)
Abbreviation store := (list framebuffer_base_t).

(** A method of the object at [addr]; no object there is a dangling
    reference. *)
Definition at_object {A : Type} (addr : nat) (m : M (framebuffer_base_t * session) A)
  : M (store * session) A :=
  fun s =>
    match fst s !! addr with
    | None => (Undefined, s)
    | Some o =>
        match m (o, snd s) with
        | (r, (o', s')) => (r, (<[addr := o']> (fst s), s'))
        end
    end.

(** [wf::framebuffer_base_t::copy_state] *)
Definition copy_state (this_ other : nat) : M (store * session) unit :=
  o <- at_object other (in_world this) ;;
  t <- at_object this_ (in_world this) ;;
  at_object this_ (in_world (set_this
    (mk_framebuffer_base (tex t) (fb t) (viewport_width o) (viewport_height t)))) ;;
  o <- at_object other (in_world this) ;;
  t <- at_object this_ (in_world this) ;;
  at_object this_ (in_world (set_this
    (mk_framebuffer_base (tex t) (fb t) (viewport_width t) (viewport_height o)))) ;;
  o <- at_object other (in_world this) ;;
  t <- at_object this_ (in_world this) ;;
  at_object this_ (in_world (set_this
    (mk_framebuffer_base (tex t) (fb o) (viewport_width t) (viewport_height t)))) ;;
  o <- at_object other (in_world this) ;;
  t <- at_object this_ (in_world this) ;;
  at_object this_ (in_world (set_this
    (mk_framebuffer_base (tex o) (fb t) (viewport_width t) (viewport_height t)))) ;;
  at_object other (in_world reset).

(** The move constructor: a new object, default-initialised by its member
    initialisers, takes the state of [other]. Its address is returned. *)
Definition move_construct (other : nat) : M (store * session) nat :=
  fun s =>
    let this_ := length (fst s) in
    (copy_state this_ other ;; ret this_) (fst s ++ [framebuffer_base_default], snd s).


(** The names of the framebuffers and of the textures that the objects of
    a store hold as theirs: neither the unset name nor the default
    framebuffer with its texture 0. *)
Definition owned_framebuffers (st : store) : list Z :=
  flat_map (fun t => if negb (fb t =? UINT32_MAX) && negb (fb t =? 0)
                     then [fb t] else []) st.

Definition owned_textures (st : store) : list Z :=
  flat_map (fun t => if negb (tex t =? UINT32_MAX)
                        && (negb (fb t =? 0) || negb (tex t =? 0))
                     then [tex t] else []) st.

(** The framebuffers deleted in a run. *)
Definition deleted_framebuffers (es : list gl_event) : list Z :=
  flat_map (fun e => match e with
                     | inr (glDeleteFramebuffers _ names) => names
                     | _ => []
                     end) es.

Definition deleted_textures (es : list gl_event) : list Z :=
  flat_map (fun e => match e with
                     | inr (glDeleteTextures _ names) => names
                     | _ => []
                     end) es.

(** A session in which nothing has happened. *)
Definition session_initial : session := {| events := []; session_log := [] |}.

(** ** Compiling shaders and programs *)

Definition GL_FRAGMENT_SHADER : Z := 0x8B30.
Definition GL_VERTEX_SHADER : Z := 0x8B31.
Definition GL_COMPILE_STATUS : Z := 0x8B81.

(** [LENGTH], the size of the buffer for the compiler's output. *)
Definition LENGTH : Z := 1024 * 128.

(** [std::string::c_str] as OpenGL reads it: up to the first NUL. *)
Fixpoint c_str (s : string) : string :=
  match s with
  | EmptyString => EmptyString
  | String c s' => if Ascii.eqb c Ascii.zero then EmptyString else String c (c_str s')
  end.

Definition newline : string := String (Ascii.ascii_of_nat 10) EmptyString.

(** What OpenGL answers during shader compilation, as a function of the
    calls made so far: the name of the object just created, the value
    [glGetShaderiv] leaves in the status variable, and the text
    [glGetShaderInfoLog] leaves in the buffer. *)
Record gl_compiler : Type := {
  created_name : list gl_event -> Z;
  compile_status : list gl_event -> Z;
  info_log : list gl_event -> string
}.

Definition session_events {O : Type} : M (O * session) (list gl_event) :=
  fun s => (Returns (events (snd s)), s).

Section Compilation.

Variable cmp : gl_compiler.

(** [OpenGL::compile_shader]; [GL_FALSE] is 0 and the [-1] returned as a
    [GLuint] is [UINT32_MAX]. *)
Definition compile_shader {O : Type} (source : string) (type : Z) : M (O * session) Z :=
  GL_CALL_MORE (glCreateShader type) ;;
  es <- session_events ;;
  let shader := created_name cmp es in
  GL_CALL_MORE (glShaderSource shader 1 (c_str source)) ;;
  GL_CALL_MORE (glCompileShader shader) ;;
  GL_CALL_MORE (glGetShaderiv shader GL_COMPILE_STATUS) ;;
  es <- session_events ;;
  let s := compile_status cmp es in
  GL_CALL_MORE (glGetShaderInfoLog shader LENGTH) ;;
  es <- session_events ;;
  let b1 := info_log cmp es in
  if s =? 0 then
    in_world (LOGE ("Failed to load shader:" +:+ newline +:+ source
                    +:+ newline +:+ "Compiler output:" +:+ newline +:+ b1)) ;;
    ret UINT32_MAX
  else ret shader.

(** [OpenGL::compile_program] *)
Definition compile_program {O : Type} (vertex_source frag_source : string)
  : M (O * session) Z :=
  vertex_shader <- compile_shader vertex_source GL_VERTEX_SHADER ;;
  fragment_shader <- compile_shader frag_source GL_FRAGMENT_SHADER ;;
  GL_CALL_MORE glCreateProgram ;;
  es <- session_events ;;
  let result_program := created_name cmp es in
  GL_CALL_MORE (glAttachShader result_program vertex_shader) ;;
  GL_CALL_MORE (glAttachShader result_program fragment_shader) ;;
  GL_CALL_MORE (glLinkProgram result_program) ;;
  (* won't be really deleted until program is deleted as well *)
  GL_CALL_MORE (glDeleteShader vertex_shader) ;;
  GL_CALL_MORE (glDeleteShader fragment_shader) ;;
  ret result_program.

(** The sources of shaders.tpp that [builtins] refers to. *)
Variables builtin_rgba_source builtin_rgbx_source : string.
Variables builtin_external_source builtin_ext_external_source : string.

(** [texture_type_builtins]; its members [builtin] and [builtin_ext] are
    named apart from the two symbols of the same names. *)
Record texture_type_builtins : Type := {
  builtin_source : string;
  builtin_ext_source : string
}.

(** [builtins], a [std::map] traversed in the order of its keys. *)
Definition builtins : list (texture_type_t * texture_type_builtins) :=
  [(TEXTURE_TYPE_RGBA,
    {| builtin_source := builtin_rgba_source; builtin_ext_source := "" |});
   (TEXTURE_TYPE_RGBX,
    {| builtin_source := builtin_rgbx_source; builtin_ext_source := "" |});
   (TEXTURE_TYPE_EXTERNAL,
    {| builtin_source := builtin_external_source;
       builtin_ext_source := builtin_ext_external_source |})].

(** [program_t::compile] *)
Definition compile (vertex_source fragment_source : string) : M (impl * session) unit :=
  in_world free_resources ;;
  for_each builtins (fun program_type =>
    fragment <- replace_builtin_with fragment_source builtin
                  (builtin_source (snd program_type)) ;;
    fragment <- replace_builtin_with fragment builtin_ext
                  (builtin_ext_source (snd program_type)) ;;
    program <- compile_program vertex_source fragment ;;
    p <- in_world this ;;
    in_world (set_this
      (set_id (array_set (id p) (type_index (fst program_type)) program) p))).

End Compilation.

(** The calls of one [compile_shader] run on the shader named [shader]. *)
Definition shader_calls (shader type : Z) (source : string) : list gl_call_more :=
  [glCreateShader type; glShaderSource shader 1 (c_str source); glCompileShader shader;
   glGetShaderiv shader GL_COMPILE_STATUS; glGetShaderInfoLog shader LENGTH].

(** The calls of [compile_program] once both shaders have been handled. *)
Definition link_calls (program vertex_shader fragment_shader : Z) : list gl_call_more :=
  [glCreateProgram; glAttachShader program vertex_shader;
   glAttachShader program fragment_shader; glLinkProgram program;
   glDeleteShader vertex_shader; glDeleteShader fragment_shader].

(** The shaders deleted in a run. *)
Definition deleted_shaders (es : list gl_event) : list Z :=
  flat_map (fun e => match e with inr (glDeleteShader shader) => [shader] | _ => [] end) es.

(** The shaders created in a run, as OpenGL named them. *)
Fixpoint created_shaders (cmp : gl_compiler) (before es : list gl_event) : list Z :=
  match es with
  | [] => []
  | e :: es' =>
      match e with
      | inr (glCreateShader _) => [created_name cmp (before ++ [e])]
      | _ => []
      end ++ created_shaders cmp (before ++ [e]) es'
  end.

(** A compiler that rejects every shader, naming objects 11, 12, ... in
    the order of their creation. *)
Definition compiler_rejecting : gl_compiler :=
  {| created_name := fun es => 10 + Z.of_nat (length (List.filter
       (fun e => match e with
                 | inr (glCreateShader _) | inr glCreateProgram => true
                 | _ => false
                 end) es));
     compile_status := fun _ => 0;
     info_log := fun _ => "syntax error" |}.

(** A session after further calls and further log lines. *)
Definition session_with (s : session) (es : list gl_event) (lines : list string) : session :=
  {| events := events s ++ es; session_log := session_log s ++ lines |}.

(** The line [compile_shader] logs for a rejected shader. *)
Definition failure_line (source b1 : string) : string :=
  "Failed to load shader:" +:+ newline +:+ source
  +:+ newline +:+ "Compiler output:" +:+ newline +:+ b1.

(** The sources handed to [glShaderSource] in a run, in order. *)
Definition shader_sources (cs : list gl_call_more) : list string :=
  flat_map (fun c => match c with glShaderSource _ _ source => [source] | _ => [] end) cs.

(** The programs created in a run, as OpenGL named them. *)
Fixpoint created_programs (cmp : gl_compiler) (before es : list gl_event) : list Z :=
  match es with
  | [] => []
  | e :: es' =>
      match e with
      | inr glCreateProgram => [created_name cmp (before ++ [e])]
      | _ => []
      end ++ created_programs cmp (before ++ [e]) es'
  end.

(** The fragment source [compile] builds for one class: both symbols
    substituted, [builtin] first. *)
Definition fragment_for (fragment_source builtin_text builtin_ext_text : string)
  : outcome string :=
  fst ((fragment <- replace_builtin_with fragment_source builtin builtin_text ;;
        replace_builtin_with fragment builtin_ext builtin_ext_text)%cxx tt).

(** * Properties *)

(** ** Reasoning about computations *)

Lemma bind_returns {S A B : Type} (c : M S A) (k : A -> M S B) (s s' : S) (a : A) :
  c s = (Returns a, s') -> bind c k s = k a s'.
Proof. intros H. unfold bind. now rewrite H. Qed.

Lemma bind_undefined {S A B : Type} (c : M S A) (k : A -> M S B) (s s' : S) :
  c s = (Undefined, s') -> bind c k s = (Undefined, s').
Proof. intros H. unfold bind. now rewrite H. Qed.

(** ** Texture views *)

(** C9. For every imported texture (one that passes the constructor's
    assertion of being a GLES2 texture) the constructor returns a view
    that is EXTERNAL exactly when the reported sampling target is not
    [GL_TEXTURE_2D], is otherwise RGBA when the source has an alpha
    channel and RGBX when it has none, and whose [invert_y] is the
    negation of the reported [inverted_y]. *)
Theorem texture_view_classification :
  forall (S : Type) (texture : wlr_texture) (s : S),
    wlr_texture_is_gles2 texture = true ->
    let attribs := wlr_gles2_texture_get_attribs texture in
    exists view : texture_t,
      texture_t_of_wlr texture s = (Returns view, s)
      /\ (type view = TEXTURE_TYPE_EXTERNAL <-> attribs_target attribs <> GL_TEXTURE_2D)
      /\ (attribs_target attribs = GL_TEXTURE_2D ->
          type view = if has_alpha attribs then TEXTURE_TYPE_RGBA else TEXTURE_TYPE_RGBX)
      /\ invert_y view = negb (inverted_y attribs)
      /\ target view = attribs_target attribs
      /\ tex_id view = attribs_tex attribs.
Proof.
  intros S texture s Hgles attribs.
  unfold texture_t_of_wlr. rewrite Hgles. fold attribs.
  unfold assert, bind, ret.
  destruct (Z.eqb_spec (attribs_target attribs) GL_TEXTURE_2D) as [H2d | Hext].
  - eexists. split; [reflexivity |]. cbn.
    repeat split; try tauto;
      solve [ destruct (has_alpha attribs); discriminate | intros Hne; now destruct Hne ].
  - eexists. split; [reflexivity |]. cbn.
    repeat split; tauto.
Qed.

Lemma texture_view_classification_witness :
  exists view : texture_t,
    texture_t_of_wlr (mk_wlr_texture true (mk_attribs GL_TEXTURE_2D 7 true false)) tt
      = (Returns view, tt)
    /\ type view = TEXTURE_TYPE_RGBX
    /\ invert_y view = false.
Proof.
  destruct (texture_view_classification unit
              (mk_wlr_texture true (mk_attribs GL_TEXTURE_2D 7 true false)) tt eq_refl)
    as [view (Hrun & _ & Htype & Hinv & _)].
  exists view. split; [exact Hrun |]. split.
  - exact (Htype eq_refl).
  - exact Hinv.
Defined.

(** ** The multiplexer: selecting a program *)

Lemma use_unregistered (p : impl) (w : world) (type : texture_type_t) :
  array_get (id p) (type_index type) = Some 0 ->
  use type (p, w)
  = (Throws ("program_t has no program for type " +:+ pretty (type_index type)), (p, w)).
Proof.
  intros Hid. unfold use, bind, this, defined. cbn [fst snd].
  rewrite Hid. reflexivity.
Qed.

Lemma use_registered (p : impl) (w : world) (type : texture_type_t) (program : Z) :
  array_get (id p) (type_index type) = Some program ->
  program <> 0 ->
  use type (p, w)
  = (Returns tt,
     (set_active_program_idx (type_index type) p,
      {| gl_calls := gl_calls w ++ [glUseProgram program]; log_lines := log_lines w |})).
Proof.
  intros Hid Hnz. unfold use, bind, this, defined. cbn [fst snd].
  rewrite Hid. unfold ret at 1.
  destruct (Z.eqb_spec program 0) as [-> | _]; [contradiction |].
  reflexivity.
Qed.

(** C10. When [use] raises, the multiplexer and the OpenGL trace are
    exactly what they were before the call: nothing was activated and no
    field of the private state changed. *)
Theorem use_raise_leaves_state :
  forall (p : impl) (w : world) (type : texture_type_t) (what : string)
         (s' : impl * world),
    use type (p, w) = (Throws what, s') ->
    s' = (p, w)
    /\ active_program_idx (fst s') = active_program_idx p
    /\ uniforms (fst s') = uniforms p
    /\ attribs (fst s') = attribs p
    /\ active_attrs (fst s') = active_attrs p
    /\ active_attrs_divisors (fst s') = active_attrs_divisors p
    /\ gl_calls (snd s') = gl_calls w.
Proof.
  intros p w type what s' Huse.
  assert (Hs : s' = (p, w)).
  { revert Huse. unfold use, bind, this, defined. cbn [fst snd].
    destruct (array_get (id p) (type_index type)) as [program |].
    - unfold ret at 1.
      destruct (program =? 0).
      + unfold throw. now intros [= _ <-].
      + discriminate.
    - unfold undefined. discriminate. }
  subst s'. cbn. repeat split.
Qed.

Lemma use_raise_leaves_state_witness :
  use TEXTURE_TYPE_RGBX (program_t_new, {| gl_calls := []; log_lines := [] |})
  = (Throws "program_t has no program for type 1",
     (program_t_new, {| gl_calls := []; log_lines := [] |}))
  /\ gl_calls (snd (program_t_new, {| gl_calls := []; log_lines := [] |})) = [].
Proof.
  split; [reflexivity |].
  exact (proj2 (proj2 (proj2 (proj2 (proj2 (proj2
    (use_raise_leaves_state program_t_new {| gl_calls := []; log_lines := [] |}
       TEXTURE_TYPE_RGBX _ _ eq_refl))))))).
Defined.

(** [free_resources] zeroes every slot of [id], whatever it held, and
    touches nothing else of the multiplexer. *)
Lemma free_resources_clears (p : impl) (w : world) :
  length (id p) = 3%nat ->
  exists cs : list gl_call,
    free_resources (p, w)
    = (Returns tt,
       (set_id [0; 0; 0] p, {| gl_calls := gl_calls w ++ cs; log_lines := log_lines w |})).
Proof.
  destruct p as [aa ad idx ids us ats]. destruct w as [cs0 ls0]. cbn [id].
  destruct ids as [| i0 [| i1 [| i2 [| ? ?]]]]; try discriminate. intros _.
  unfold free_resources.
  change (seqZ 0 (type_index TEXTURE_TYPE_ALL)) with [0; 1; 2].
  unfold for_each, bind, this, defined, set_this, GL_CALL, modify, ret,
    array_get, array_set, set_id.
  change (Z.to_nat 0) with 0%nat; change (Z.to_nat 1) with 1%nat;
    change (Z.to_nat 2) with 2%nat.
  cbn.
  repeat match goal with
         | |- context [?v =? 0] => is_var v; destruct (Z.eqb_spec v 0) as [-> | _]; cbn
         end;
    rewrite <- ?app_assoc; try (eexists; reflexivity).
  exists []. now rewrite app_nil_r.
Qed.

(** C5, as amended. [use] raises, leaving everything as it was, whenever
    the slot of the class holds no program (handle 0); and after
    [set_simple h c] with a handle [h] other than 0, [use] succeeds for the
    class [c] and raises for each of the other classes. *)
Theorem use_after_set_simple :
  forall (p : impl) (w : world) (h : Z) (c : texture_type_t),
    length (id p) = 3%nat ->
    h <> 0 ->
    c <> TEXTURE_TYPE_ALL ->
    (forall c' : texture_type_t,
        array_get (id p) (type_index c') = Some 0 ->
        exists what, use c' (p, w) = (Throws what, (p, w)))
    /\ exists s1 : impl * world,
        set_simple h c (p, w) = (Returns tt, s1)
        /\ forall c' : texture_type_t,
            c' <> TEXTURE_TYPE_ALL ->
            (c' = c -> exists s2, use c' s1 = (Returns tt, s2))
            /\ (c' <> c -> exists what, use c' s1 = (Throws what, s1)).
Proof.
  intros p w h c Hlen Hh Hc. split.
  - intros c' Hslot. eexists. now apply use_unregistered.
  - destruct (free_resources_clears p w Hlen) as [cs Hfree].
    unfold set_simple.
    rewrite (bind_returns _ _ _ _ _ Hfree).
    assert (Hin : (type_index c <? type_index TEXTURE_TYPE_ALL) = true)
      by (destruct c; [reflexivity .. | contradiction]).
    rewrite Hin. unfold assert, bind, ret, this, set_this. cbn [fst snd].
    eexists. split; [reflexivity |].
    intros c' Hc'. split.
    + intros ->. eexists. apply use_registered with (program := h); [| exact Hh].
      destruct c; try contradiction; reflexivity.
    + intros Hne. eexists. apply use_unregistered.
      destruct c, c'; try contradiction; reflexivity.
Qed.

Lemma use_after_set_simple_witness :
  exists s1 : impl * world,
    set_simple 7 TEXTURE_TYPE_RGBA (program_t_new, world_initial) = (Returns tt, s1)
    /\ (exists s2, use TEXTURE_TYPE_RGBA s1 = (Returns tt, s2))
    /\ (exists what, use TEXTURE_TYPE_RGBX s1 = (Throws what, s1))
    /\ (exists what, use TEXTURE_TYPE_EXTERNAL s1 = (Throws what, s1)).
Proof.
  destruct (use_after_set_simple program_t_new world_initial 7 TEXTURE_TYPE_RGBA)
    as [_ [s1 [Hset Huse]]]; [reflexivity | lia | discriminate |].
  exists s1. split; [exact Hset |]. repeat split.
  - apply (Huse TEXTURE_TYPE_RGBA); [discriminate | reflexivity].
  - apply (Huse TEXTURE_TYPE_RGBX); discriminate.
  - apply (Huse TEXTURE_TYPE_EXTERNAL); discriminate.
Defined.

(** C5 as stated fails for the handle 0, which is what a failed
    [glCreateProgram] yields: after [set_simple 0 RGBA], [use RGBA] raises. *)
Lemma use_after_set_simple_null_handle :
  exists (s1 : impl * world) (what : string),
    set_simple 0 TEXTURE_TYPE_RGBA (program_t_new, world_initial) = (Returns tt, s1)
    /\ use TEXTURE_TYPE_RGBA s1 = (Throws what, s1).
Proof. do 2 eexists. split; reflexivity. Qed.

(** ** Box conversions under a non-standard transform *)

Lemma damage_box_from_geometry_box_cases {O : Type} (t : framebuffer_t) (box : wlr_box)
    (s : O * world) :
  (exists damage, damage_box_from_geometry_box t box s = (Returns damage, s))
  \/ damage_box_from_geometry_box t box s = (Undefined, s).
Proof.
  unfold damage_box_from_geometry_box, bind, defined, ret, undefined.
  repeat match goal with
         | |- context [match ?o with Some _ => _ | None => _ end] =>
             destruct o; [| now right]
         end.
  left. eexists. reflexivity.
Qed.

(** C2, as amended. On a target whose [has_nonstandard_transform] flag is
    set, [framebuffer_box_from_damage_box] writes the "unimplemented
    reached" line with [LOGE] and returns the all-zero box; it raises
    nothing. [framebuffer_box_from_geometry_box] does the same whenever its
    scaling step [damage_box_from_geometry_box] returns, and is undefined
    when the scaling step is; the scaling step does one or the other. *)
Theorem nonstandard_transform_returns_zero_box :
  forall (O : Type) (box_transform : wlr_box -> wlr_box -> Z -> Z -> Z -> wlr_box)
         (t : framebuffer_t) (box : wlr_box) (s : O * world),
    has_nonstandard_transform t = true ->
    framebuffer_box_from_damage_box box_transform t box s
    = (Returns (mk_box 0 0 0 0), logged unimplemented_line s)
    /\ (forall (damage : wlr_box) (s1 : O * world),
          damage_box_from_geometry_box t box s = (Returns damage, s1) ->
          framebuffer_box_from_geometry_box box_transform t box s
          = (Returns (mk_box 0 0 0 0), logged unimplemented_line s))
    /\ (forall s1 : O * world,
          damage_box_from_geometry_box t box s = (Undefined, s1) ->
          framebuffer_box_from_geometry_box box_transform t box s = (Undefined, s))
    /\ ((exists damage : wlr_box,
           damage_box_from_geometry_box t box s = (Returns damage, s))
        \/ damage_box_from_geometry_box t box s = (Undefined, s)).
Proof.
  intros O box_transform t box s Hflag.
  assert (Hdamage : forall b, framebuffer_box_from_damage_box box_transform t b s
                              = (Returns (mk_box 0 0 0 0), logged unimplemented_line s)).
  { intros b. unfold framebuffer_box_from_damage_box. rewrite Hflag. reflexivity. }
  pose proof (damage_box_from_geometry_box_cases t box s) as Hcases.
  split; [apply Hdamage |].
  split; [| split; [| exact Hcases]].
  - intros damage s1 Hd.
    assert (s1 = s) as ->.
    { destruct Hcases as [[d' Hd'] | Hd']; rewrite Hd' in Hd; congruence. }
    unfold framebuffer_box_from_geometry_box.
    rewrite (bind_returns _ _ _ _ _ Hd). apply Hdamage.
  - intros s1 Hd.
    assert (s1 = s) as ->.
    { destruct Hcases as [[d' Hd'] | Hd']; rewrite Hd' in Hd; congruence. }
    unfold framebuffer_box_from_geometry_box. now apply bind_undefined.
Qed.

Lemma nonstandard_transform_returns_zero_box_witness :
  framebuffer_box_from_damage_box wlroots_box_transform framebuffer_nonstandard
    (mk_box 1 2 3 4) (tt, world_initial)
  = (Returns (mk_box 0 0 0 0), (tt, {| gl_calls := []; log_lines := [unimplemented_line] |}))
  /\ framebuffer_box_from_geometry_box wlroots_box_transform framebuffer_nonstandard
       (mk_box 1 2 3 4) (tt, world_initial)
     = (Returns (mk_box 0 0 0 0),
        (tt, {| gl_calls := []; log_lines := [unimplemented_line] |})).
Proof.
  destruct (nonstandard_transform_returns_zero_box unit wlroots_box_transform
              framebuffer_nonstandard (mk_box 1 2 3 4) (tt, world_initial) eq_refl)
    as (Hdamage & Hgeometry & _).
  split; [exact Hdamage |].
  exact (Hgeometry (mk_box 1 2 3 4) (tt, world_initial) eq_refl).
Defined.

(** C2 as stated fails: with the flag set the call returns normally, with
    the all-zero rectangle, and raises nothing. *)
Lemma nonstandard_transform_does_not_raise :
  fst (framebuffer_box_from_damage_box wlroots_box_transform framebuffer_nonstandard
         (mk_box 1 2 3 4) (tt, world_initial)) = Returns (mk_box 0 0 0 0)
  /\ fst (framebuffer_box_from_geometry_box wlroots_box_transform framebuffer_nonstandard
            (mk_box 1 2 3 4) (tt, world_initial)) = Returns (mk_box 0 0 0 0)
  /\ forall what : string,
      fst (framebuffer_box_from_damage_box wlroots_box_transform framebuffer_nonstandard
             (mk_box 1 2 3 4) (tt, world_initial)) <> Throws what.
Proof. repeat split. discriminate. Qed.

(** ** Scaling into damage space: floor and ceiling *)

Lemma iter_xO_pow2 (k : positive) : Zpos (Pos.iter xO 1%positive k) = 2 ^ Zpos k.
Proof.
  induction k as [| k IH] using Pos.peano_ind.
  - reflexivity.
  - rewrite Pos.iter_succ, Pos2Z.inj_xO, IH, Pos2Z.inj_succ, Z.pow_succ_r by lia.
    reflexivity.
Qed.

(** [floor_to_int] is the floor of the number the float denotes. *)
Lemma floor_to_int_is_floor (f : spec_float) :
  F32.floor_to_int f = as_int (Qfloor <$> F32.value f).
Proof.
  destruct f as [sg | sg | | sg m e]; try reflexivity.
  destruct e as [| e | k]; cbn [F32.floor_to_int F32.value fmap option_fmap option_map as_int].
  - unfold Qfloor, inject_Z. now rewrite Z.div_1_r.
  - unfold Qfloor, inject_Z. now rewrite Z.div_1_r.
  - unfold Qfloor. rewrite iter_xO_pow2, Z.shiftr_div_pow2 by lia. reflexivity.
Qed.

(** [ceil_to_int] is the ceiling of the number the float denotes. *)
Lemma ceil_to_int_is_ceiling (f : spec_float) :
  F32.ceil_to_int f = as_int (Qceiling <$> F32.value f).
Proof.
  destruct f as [sg | sg | | sg m e]; try reflexivity.
  destruct e as [| e | k]; cbn [F32.ceil_to_int F32.value fmap option_fmap option_map as_int].
  - unfold Qceiling, Qfloor, Qopp, inject_Z. cbn [Qnum Qden].
    rewrite Z.div_1_r. now rewrite Z.opp_involutive.
  - unfold Qceiling, Qfloor, Qopp, inject_Z. cbn [Qnum Qden].
    rewrite Z.div_1_r. now rewrite Z.opp_involutive.
  - unfold Qceiling, Qfloor, Qopp. cbn [Qnum Qden].
    rewrite iter_xO_pow2, Z.shiftr_div_pow2 by lia. reflexivity.
Qed.

Lemma damage_box_from_geometry_box_refines {O : Type} (t : framebuffer_t)
    (box : wlr_box) (s : O * world) :
  damage_box_from_geometry_box t box s
  = (match damage_box_floor_ceil t box with
     | Some r => Returns r
     | None => Undefined
     end, s).
Proof.
  unfold damage_box_from_geometry_box, damage_box_floor_ceil, scaled.
  rewrite !floor_to_int_is_floor, !ceil_to_int_is_ceiling.
  unfold bind, defined, ret, undefined.
  repeat match goal with
         | |- context [as_int ?o] => destruct (as_int o); try reflexivity
         end.
Qed.

Lemma as_int_some (o : option Z) (z : Z) :
  as_int o = Some z -> o = Some z /\ F32.INT_MIN <= z <= F32.INT_MAX.
Proof.
  destruct o as [z' |]; [| discriminate]. cbn. unfold F32.to_int_checked.
  destruct (Z.leb_spec F32.INT_MIN z'); destruct (Z.leb_spec z' F32.INT_MAX);
    cbn; intros [= <-] || discriminate. split; [reflexivity | lia].
Qed.

(** ** Allocation of a render target *)

Ltac alloc_simpl :=
  cbn [negb andb orb fst snd fb tex viewport_width viewport_height gl_calls log_lines].

(** The first allocation of a default-constructed target, when OpenGL
    reports the framebuffer complete. *)
Lemma allocate_first (drv : gl_driver) (width height : Z) (w : world) :
  (forall cs, framebuffer_status drv cs = GL_FRAMEBUFFER_COMPLETE) ->
  (forall cs, gen_name drv cs <> 0) ->
  exists (cs : list gl_call) (fb_name tex_name : Z),
    allocate drv width height (framebuffer_base_default, w)
    = (Returns true,
       (mk_framebuffer_base tex_name fb_name width height,
        {| gl_calls := gl_calls w ++ cs; log_lines := log_lines w |}))
    /\ fb_name = gen_name drv (gl_calls w ++ [glGenFramebuffers 1])
    /\ tex_name = gen_name drv (gl_calls w ++ [glGenFramebuffers 1; glGenTextures 1])
    /\ In (glTexImage2D GL_TEXTURE_2D 0 GL_RGBA width height 0 GL_RGBA GL_UNSIGNED_BYTE) cs.
Proof.
  intros Hstatus Hname. destruct w as [cs0 ls0].
  unfold allocate, gl_gen, gl_check_framebuffer_status, bind, this, set_this, calls,
    GL_CALL, LOGE, modify, ret, framebuffer_base_default.
  cbn [fst snd fb tex viewport_width viewport_height gl_calls log_lines].
  rewrite Z.eqb_refl. cbn [fst snd fb tex viewport_width viewport_height gl_calls log_lines].
  rewrite Z.eqb_refl. cbn [fst snd fb tex viewport_width viewport_height gl_calls log_lines orb].
  destruct (Z.eqb_spec (gen_name drv (cs0 ++ [glGenFramebuffers 1])) 0) as [H0 | _];
    [now apply Hname in H0 |].
  cbn [negb andb orb fst snd fb tex viewport_width viewport_height gl_calls log_lines].
  rewrite Hstatus, Z.eqb_refl.
  cbn [negb andb orb fst snd fb tex viewport_width viewport_height gl_calls log_lines].
  rewrite <- !app_assoc. cbn [app].
  eexists _, _, _. split; [reflexivity |]. split; [reflexivity |]. split; [reflexivity |].
  cbn. tauto.
Qed.

(** A later allocation, on a target holding a framebuffer other than the
    default one: nothing but the unbinding happens when the size is the
    current one; otherwise the texture storage is allocated anew. *)
Lemma allocate_again (drv : gl_driver) (width height : Z) (t : framebuffer_base_t)
    (w : world) :
  (forall cs, framebuffer_status drv cs = GL_FRAMEBUFFER_COMPLETE) ->
  fb t <> UINT32_MAX -> tex t <> UINT32_MAX -> fb t <> 0 ->
  allocate drv width height (t, w)
  = if (width =? viewport_width t) && (height =? viewport_height t)
    then (Returns false,
          (t, {| gl_calls := gl_calls w ++ [glBindTexture GL_TEXTURE_2D 0;
                                            glBindFramebuffer GL_FRAMEBUFFER 0];
                 log_lines := log_lines w |}))
    else (Returns true,
          (mk_framebuffer_base (tex t) (fb t) width height,
           {| gl_calls := gl_calls w ++
                [glBindTexture GL_TEXTURE_2D (tex t);
                 glTexImage2D GL_TEXTURE_2D 0 GL_RGBA width height 0 GL_RGBA GL_UNSIGNED_BYTE;
                 glCheckFramebufferStatus GL_FRAMEBUFFER;
                 glBindTexture GL_TEXTURE_2D 0;
                 glBindFramebuffer GL_FRAMEBUFFER 0];
              log_lines := log_lines w |})).
Proof.
  intros Hstatus Hfb Htex Hfb0. destruct w as [cs0 ls0]. destruct t as [tx fbo vw vh].
  cbn [fb tex viewport_width viewport_height gl_calls log_lines] in *.
  unfold allocate, gl_gen, gl_check_framebuffer_status, bind, this, set_this, calls,
    GL_CALL, LOGE, modify, ret.
  alloc_simpl.
  destruct (Z.eqb_spec fbo UINT32_MAX) as [? | _]; [contradiction |]. alloc_simpl.
  destruct (Z.eqb_spec tx UINT32_MAX) as [? | _]; [contradiction |]. alloc_simpl.
  destruct (Z.eqb_spec fbo 0) as [? | _]; [contradiction |]. alloc_simpl.
  destruct (Z.eqb_spec width vw) as [-> | Hw]; destruct (Z.eqb_spec height vh) as [-> | Hh];
    alloc_simpl; rewrite ?Hstatus, ?Z.eqb_refl; alloc_simpl;
    rewrite <- ?app_assoc; reflexivity.
Qed.

(** C4, as amended. Provided OpenGL reports the framebuffer complete each
    time it is asked and hands out object names other than 0 and the
    "unset" sentinel: on a fresh base render target the first
    [allocate(w,h)] returns true; a second [allocate] with the same width
    and height returns false and leaves the target and its storage alone;
    and an [allocate] whose width or height differs from the current
    viewport size returns true, allocating the texture storage anew at the
    new size. *)
Theorem allocate_reports_resize :
  forall (drv : gl_driver) (w h w2 h2 : Z) (world0 : world),
    (forall cs, framebuffer_status drv cs = GL_FRAMEBUFFER_COMPLETE) ->
    (forall cs, gen_name drv cs <> 0) ->
    (forall cs, gen_name drv cs <> UINT32_MAX) ->
    0 < w -> 0 < h ->
    w2 <> w \/ h2 <> h ->
    exists (t1 : framebuffer_base_t) (world1 : world),
      allocate drv w h (framebuffer_base_default, world0) = (Returns true, (t1, world1))
      /\ viewport_width t1 = w /\ viewport_height t1 = h
      /\ (forall world2 : world,
            allocate drv w h (t1, world2)
            = (Returns false,
               (t1, {| gl_calls := gl_calls world2 ++ [glBindTexture GL_TEXTURE_2D 0;
                                                       glBindFramebuffer GL_FRAMEBUFFER 0];
                       log_lines := log_lines world2 |})))
      /\ (forall world2 : world,
            exists world3 : world,
              allocate drv w2 h2 (t1, world2)
              = (Returns true, (mk_framebuffer_base (tex t1) (fb t1) w2 h2, world3))
              /\ exists before after : list gl_call,
                  gl_calls world3
                  = (gl_calls world2 ++ before
                     ++ glTexImage2D GL_TEXTURE_2D 0 GL_RGBA w2 h2 0 GL_RGBA GL_UNSIGNED_BYTE
                     :: after)).
Proof.
  intros drv w h w2 h2 world0 Hstatus Hname0 Hname1 _ _ Hdiff.
  destruct (allocate_first drv w h world0 Hstatus Hname0)
    as (cs & fb_name & tex_name & Hfirst & -> & -> & _).
  eexists _, _. split; [exact Hfirst |].
  split; [reflexivity |]. split; [reflexivity |].
  split.
  - intros world2. rewrite allocate_again by (cbn; auto).
    cbn [viewport_width viewport_height]. now rewrite !Z.eqb_refl.
  - intros world2. rewrite allocate_again by (cbn; auto).
    cbn [viewport_width viewport_height tex fb].
    assert (Hne : (w2 =? w) && (h2 =? h) = false).
    { destruct Hdiff as [Hd | Hd].
      - apply Z.eqb_neq in Hd. now rewrite Hd.
      - apply Z.eqb_neq in Hd. rewrite Hd. apply andb_false_r. }
    rewrite Hne. eexists. split; [reflexivity |].
    cbn [gl_calls]. exists [glBindTexture GL_TEXTURE_2D
                              (gen_name drv (gl_calls world0 ++ [glGenFramebuffers 1; glGenTextures 1]))].
    eexists. reflexivity.
Qed.

Lemma allocate_reports_resize_witness :
  exists (t1 : framebuffer_base_t) (world1 : world),
    allocate driver_plain 10 10 (framebuffer_base_default, world_initial)
    = (Returns true, (t1, world1))
    /\ fst (allocate driver_plain 10 10 (t1, world1)) = Returns false
    /\ fst (allocate driver_plain 10 20 (t1, world1)) = Returns true.
Proof.
  destruct (allocate_reports_resize driver_plain 10 10 10 20 world_initial)
    as (t1 & world1 & Hfirst & _ & _ & Hsame & Hother).
  - reflexivity.
  - discriminate.
  - discriminate.
  - lia.
  - lia.
  - right. lia.
  - exists t1, world1. split; [exact Hfirst |]. split.
    + now rewrite Hsame.
    + destruct (Hother world1) as (world3 & -> & _). reflexivity.
Defined.

(** C4 as stated fails when OpenGL reports the framebuffer incomplete:
    the first allocation then logs the failure and returns false. *)
Lemma allocate_first_incomplete :
  allocate driver_incomplete 10 10 (framebuffer_base_default, world_initial)
  = (Returns false,
     (mk_framebuffer_base 1 1 0 0,
      {| gl_calls := gl_calls (snd (snd (allocate driver_incomplete 10 10
                                           (framebuffer_base_default, world_initial))));
         log_lines := ["Failed to initialize framebuffer"] |})).
Proof. reflexivity. Qed.

(** ** The multiplexer: attribute state and deactivation *)

Lemma set_insert_in (v : Z) (s : list Z) : In v (set_insert v s).
Proof.
  induction s as [| u s IH]; cbn; [now left |].
  destruct (Z.ltb_spec v u); [now left |].
  destruct (Z.eqb_spec v u) as [-> | _]; [now left | now right].
Qed.

Lemma set_insert_keeps (v u : Z) (s : list Z) : In u s -> In u (set_insert v s).
Proof.
  induction s as [| u' s IH]; cbn; [tauto |].
  intros Hin. destruct (Z.ltb_spec v u'); [now right |].
  destruct (Z.eqb_spec v u') as [-> | _]; [exact Hin |].
  destruct Hin as [-> | Hin]; [now left | right; auto].
Qed.

Lemma tracked_mono (attrs attrs' divs divs' : list Z) (c : gl_call) :
  (forall i, In i attrs -> In i attrs') ->
  (forall i, In i divs -> In i divs') ->
  tracked attrs divs c -> tracked attrs' divs' c.
Proof. intros Ha Hd. destruct c; cbn; auto. Qed.

Lemma world_after_nil (w : world) : world_after w [] = w.
Proof. destruct w. unfold world_after. cbn. now rewrite app_nil_r. Qed.

Lemma world_after_app (w : world) (cs cs' : list gl_call) :
  world_after (world_after w cs) cs' = world_after w (cs ++ cs').
Proof. unfold world_after. cbn. now rewrite app_assoc. Qed.

Lemma array_get_in_range {A : Type} (l : list A) (i : Z) :
  0 <= i < Z.of_nat (length l) -> exists v, array_get l i = Some v.
Proof.
  intros Hi. unfold array_get.
  destruct (Z.ltb_spec i 0); [lia |].
  destruct (lookup_lt_is_Some_2 l (Z.to_nat i)) as [v Hv]; [lia |].
  now exists v.
Qed.

(** Well-formedness is an invariant of the multiplexer: it holds of a new
    one and is kept by [set_simple], [use] and [deactivate] (and, below,
    by the attribute calls). *)
Lemma well_formed_new : well_formed program_t_new.
Proof. repeat split; cbn; lia. Qed.

Lemma well_formed_set_simple (program_id : Z) (type : texture_type_t) (p p' : impl)
    (w w' : world) :
  well_formed p ->
  set_simple program_id type (p, w) = (Returns tt, (p', w')) ->
  well_formed p'.
Proof.
  intros (Hidx & Hid & Hus & Hats) Hrun.
  destruct (free_resources_clears p w Hid) as [cs Hfree].
  unfold set_simple in Hrun. rewrite (bind_returns _ _ _ _ _ Hfree) in Hrun.
  unfold assert, bind, ret, abort, this, set_this in Hrun. cbn [fst snd] in Hrun.
  destruct (type_index type <? type_index TEXTURE_TYPE_ALL); [| discriminate].
  injection Hrun as <- _.
  split; [exact Hidx |]. split; [| split; assumption].
  cbn [id set_id]. unfold array_set. now rewrite length_insert.
Qed.

Lemma well_formed_use (type : texture_type_t) (p p' : impl) (w w' : world) :
  well_formed p ->
  use type (p, w) = (Returns tt, (p', w')) ->
  well_formed p'.
Proof.
  intros (Hidx & Hid & Hus & Hats) Hrun.
  unfold use, bind, this, defined in Hrun. cbn [fst snd] in Hrun.
  destruct (array_get (id p) (type_index type)) as [program |] eqn:Hslot;
    [| discriminate].
  unfold ret at 1 in Hrun. destruct (program =? 0); [discriminate |].
  unfold GL_CALL, modify, set_this in Hrun. cbn [fst snd] in Hrun.
  injection Hrun as <- _.
  split; [| repeat split; assumption].
  cbn [active_program_idx set_active_program_idx].
  destruct type; cbn; try lia.
  unfold array_get in Hslot. cbn in Hslot.
  apply lookup_lt_Some in Hslot. rewrite Hid in Hslot. cbn in Hslot. lia.
Qed.

(** [find_attrib_loc] always yields a location on a well-formed
    multiplexer; it may fill the cache and ask OpenGL for the location,
    and does nothing else. *)
Lemma find_attrib_loc_run (drv : gl_driver) (name : string) (p : impl) (w : world) :
  well_formed p ->
  exists (loc : Z) (ats : list (gmap string Z)) (cs : list gl_call),
    find_attrib_loc drv name (p, w) = (Returns loc, (set_attribs ats p, world_after w cs))
    /\ length ats = 3%nat
    /\ Forall (tracked [] []) cs.
Proof.
  intros (Hidx & Hid & _ & Hats). cbn in Hidx.
  destruct (array_get_in_range (attribs p) (active_program_idx p)) as [cache Hcache]; [lia |].
  destruct (array_get_in_range (id p) (active_program_idx p)) as [program Hprogram]; [lia |].
  unfold find_attrib_loc, bind, this, defined. cbn [fst snd].
  rewrite Hcache. unfold ret at 1.
  destruct (cache !! name) as [loc |].
  - exists loc, (attribs p), []. rewrite world_after_nil.
    split; [| split; [exact Hats | constructor]].
    destruct p. reflexivity.
  - rewrite Hprogram. unfold ret, GL_CALL, modify, calls, set_this. cbn [fst snd].
    eexists _, _, [_]. split; [reflexivity |]. split.
    + unfold array_set. now rewrite length_insert.
    + repeat constructor.
Qed.

Lemma set_attribs_well_formed (ats : list (gmap string Z)) (p : impl) :
  length ats = 3%nat -> well_formed p -> well_formed (set_attribs ats p).
Proof. intros Hats (Hidx & Hid & Hus & _). repeat split; assumption || apply Hidx. Qed.

(** One attribute call: it succeeds, keeps the multiplexer well formed,
    only adds to the tracking sets, and every call it issues is accounted
    for by the sets it leaves. *)
Lemma run_attrib_op_run (drv : gl_driver) (op : attrib_op) (p : impl) (w : world) :
  well_formed p ->
  exists (p' : impl) (cs : list gl_call),
    run_attrib_op drv op (p, w) = (Returns tt, (p', world_after w cs))
    /\ well_formed p'
    /\ (forall i, In i (active_attrs p) -> In i (active_attrs p'))
    /\ (forall i, In i (active_attrs_divisors p) -> In i (active_attrs_divisors p'))
    /\ Forall (tracked (active_attrs p') (active_attrs_divisors p')) cs.
Proof.
  intros Hwf.
  destruct op as [attrib size stride ptr type | attrib divisor]; cbn [run_attrib_op].
  - destruct (find_attrib_loc_run drv attrib p w Hwf) as (loc & ats & cs & Hfind & Hats & Hcs).
    unfold attrib_pointer. rewrite (bind_returns _ _ _ _ _ Hfind).
    unfold bind, this, set_this, GL_CALL, modify, ret. cbn [fst snd].
    eexists _, (cs ++ [_; _]). split.
    { unfold world_after. cbn [gl_calls log_lines]. rewrite <- !app_assoc. reflexivity. }
    split; [now apply (set_attribs_well_formed ats p Hats) |].
    cbn [active_attrs active_attrs_divisors set_active_attrs set_attribs].
    split; [intros i; apply set_insert_keeps |]. split; [auto |].
    apply Forall_app. split.
    + eapply Forall_impl; [exact Hcs |]. intros c. apply tracked_mono; intros i [].
    + repeat constructor. cbn. apply set_insert_in.
  - destruct (find_attrib_loc_run drv attrib p w Hwf) as (loc & ats & cs & Hfind & Hats & Hcs).
    unfold attrib_divisor. rewrite (bind_returns _ _ _ _ _ Hfind).
    unfold bind, this, set_this, GL_CALL, modify, ret. cbn [fst snd].
    eexists _, (cs ++ [_]). split.
    { unfold world_after. cbn [gl_calls log_lines]. rewrite <- !app_assoc. reflexivity. }
    split; [now apply (set_attribs_well_formed ats p Hats) |].
    cbn [active_attrs active_attrs_divisors set_active_attrs_divisors set_attribs].
    split; [auto |]. split; [intros i; apply set_insert_keeps |].
    apply Forall_app. split.
    + eapply Forall_impl; [exact Hcs |]. intros c. apply tracked_mono; intros i [].
    + repeat constructor. cbn. apply set_insert_in.
Qed.

(** Any sequence of attribute calls. *)
Lemma run_attrib_ops_run (drv : gl_driver) (ops : list attrib_op) :
  forall (p : impl) (w : world),
    well_formed p ->
    exists (p' : impl) (cs : list gl_call),
      run_attrib_ops drv ops (p, w) = (Returns tt, (p', world_after w cs))
      /\ well_formed p'
      /\ (forall i, In i (active_attrs p) -> In i (active_attrs p'))
      /\ (forall i, In i (active_attrs_divisors p) -> In i (active_attrs_divisors p'))
      /\ Forall (tracked (active_attrs p') (active_attrs_divisors p')) cs.
Proof.
  induction ops as [| op ops IH]; intros p w Hwf.
  - exists p, []. rewrite world_after_nil.
    split; [reflexivity |]. split; [exact Hwf |]. repeat split; auto.
  - destruct (run_attrib_op_run drv op p w Hwf) as (p1 & cs1 & Hop & Hwf1 & Ha1 & Hd1 & Ht1).
    destruct (IH p1 (world_after w cs1) Hwf1) as (p2 & cs2 & Hops & Hwf2 & Ha2 & Hd2 & Ht2).
    exists p2, (cs1 ++ cs2).
    unfold run_attrib_ops in *. cbn [for_each].
    rewrite (bind_returns _ _ _ _ _ Hop), Hops, world_after_app.
    split; [reflexivity |]. split; [exact Hwf2 |].
    split; [auto |]. split; [auto |].
    apply Forall_app. split; [| exact Ht2].
    eapply Forall_impl; [exact Ht1 |]. intros c. now apply tracked_mono.
Qed.

Lemma for_each_GL_CALL {A : Type} (f : A -> gl_call) (xs : list A) :
  forall (p : impl) (w : world),
    for_each xs (fun v => GL_CALL (f v)) (p, w) = (Returns tt, (p, world_after w (map f xs))).
Proof.
  induction xs as [| v xs IH]; intros p w; cbn [for_each map].
  - now rewrite world_after_nil.
  - unfold bind at 1. unfold GL_CALL at 1, modify. cbn [fst snd].
    change {| gl_calls := gl_calls w ++ [f v]; log_lines := log_lines w |}
      with (world_after w [f v]).
    now rewrite IH, world_after_app.
Qed.

(** [deactivate] issues exactly [deactivate_calls] and empties both sets. *)
Lemma deactivate_run (p : impl) (w : world) :
  deactivate (p, w)
  = (Returns tt,
     (set_active_attrs [] (set_active_attrs_divisors [] p),
      world_after w (deactivate_calls (active_attrs_divisors p) (active_attrs p)))).
Proof.
  unfold deactivate, deactivate_calls.
  unfold bind at 1. unfold this at 1. cbn [fst snd].
  rewrite (bind_returns _ _ _ _ _ (for_each_GL_CALL _ _ _ _)).
  rewrite (bind_returns _ _ _ _ _ (for_each_GL_CALL _ _ _ _)).
  unfold bind, this, set_this, GL_CALL, modify. cbn [fst snd].
  rewrite world_after_app. unfold world_after. cbn [gl_calls log_lines].
  now rewrite <- !app_assoc.
Qed.

Lemma well_formed_deactivate (p p' : impl) (w w' : world) :
  well_formed p ->
  deactivate (p, w) = (Returns tt, (p', w')) ->
  well_formed p'.
Proof.
  intros Hwf Hrun. rewrite deactivate_run in Hrun. injection Hrun as <- _.
  exact Hwf.
Qed.

Lemma gl_run_app (cs cs' : list gl_call) (st : gl_vertex_state) :
  gl_run (cs ++ cs') st = gl_run cs' (gl_run cs st).
Proof. apply fold_left_app. Qed.

Lemma gl_run_reset_divisors (divs : list Z) :
  forall st : gl_vertex_state,
    let st' := gl_run (map (fun loc => glVertexAttribDivisor loc 0) divs) st in
    (forall i, array_enabled st' i = array_enabled st i)
    /\ current_program st' = current_program st
    /\ (forall i, array_divisor st' i
                  = if existsb (Z.eqb i) divs then 0 else array_divisor st i).
Proof.
  induction divs as [| loc divs IH]; intros st; cbn [map existsb].
  - repeat split.
  - destruct (IH (gl_step st (glVertexAttribDivisor loc 0))) as (He & Hp & Hd).
    cbn zeta. change (gl_run (?c :: ?cs) st) with (gl_run cs (gl_step st c)).
    split; [intros i; now rewrite He |]. split; [now rewrite Hp |].
    intros i. rewrite Hd. cbn [gl_step array_divisor].
    destruct (existsb (Z.eqb i) divs); [now rewrite orb_true_r |].
    rewrite orb_false_r. now destruct (i =? loc).
Qed.

Lemma gl_run_disable (attrs : list Z) :
  forall st : gl_vertex_state,
    let st' := gl_run (map glDisableVertexAttribArray attrs) st in
    (forall i, array_divisor st' i = array_divisor st i)
    /\ current_program st' = current_program st
    /\ (forall i, array_enabled st' i
                  = if existsb (Z.eqb i) attrs then false else array_enabled st i).
Proof.
  induction attrs as [| loc attrs IH]; intros st; cbn [map existsb].
  - repeat split.
  - destruct (IH (gl_step st (glDisableVertexAttribArray loc))) as (Hd & Hp & He).
    cbn zeta. change (gl_run (?c :: ?cs) st) with (gl_run cs (gl_step st c)).
    split; [intros i; now rewrite Hd |]. split; [now rewrite Hp |].
    intros i. rewrite He. cbn [gl_step array_enabled].
    destruct (existsb (Z.eqb i) attrs); [now rewrite orb_true_r |].
    rewrite orb_false_r. now destruct (i =? loc).
Qed.

Lemma existsb_eqb_in (i : Z) (l : list Z) : In i l -> existsb (Z.eqb i) l = true.
Proof.
  intros Hin. apply existsb_exists. exists i. split; [exact Hin | apply Z.eqb_refl].
Qed.

(** What OpenGL holds once [deactivate]'s calls have run. *)
Lemma gl_run_deactivate_calls (divs attrs : list Z) (st : gl_vertex_state) :
  let st' := gl_run (deactivate_calls divs attrs) st in
  (forall i, In i attrs -> array_enabled st' i = false)
  /\ (forall i, In i divs -> array_divisor st' i = 0)
  /\ current_program st' = 0.
Proof.
  unfold deactivate_calls. cbn zeta. rewrite !gl_run_app.
  set (st1 := gl_run (map (fun loc => glVertexAttribDivisor loc 0) divs) st).
  destruct (gl_run_reset_divisors divs st) as (_ & _ & Hd1). fold st1 in Hd1.
  destruct (gl_run_disable attrs st1) as (Hd2 & _ & He2).
  set (st2 := gl_run (map glDisableVertexAttribArray attrs) st1) in *.
  cbn. repeat split.
  - intros i Hin. now rewrite He2, (existsb_eqb_in i attrs Hin).
  - intros i Hin. now rewrite Hd2, Hd1, (existsb_eqb_in i divs Hin).
Qed.

(** C8. After any sequence of [attrib_pointer] and [attrib_divisor] calls
    on a multiplexer, [deactivate] issues a disable for each tracked array
    and a zero divisor for each tracked divisor, then [glUseProgram(0)];
    both tracking sets are left empty; every array the sequence enabled
    ends up disabled, every divisor it set ends up 0, and no program is in
    use. *)
Theorem deactivate_cleans_up :
  forall (drv : gl_driver) (ops : list attrib_op) (p : impl) (w : world),
    well_formed p ->
    exists (p1 p2 : impl) (cs off : list gl_call),
      run_attrib_ops drv ops (p, w) = (Returns tt, (p1, world_after w cs))
      /\ off = deactivate_calls (active_attrs_divisors p1) (active_attrs p1)
      /\ deactivate (p1, world_after w cs) = (Returns tt, (p2, world_after w (cs ++ off)))
      /\ active_attrs p2 = []
      /\ active_attrs_divisors p2 = []
      /\ (forall i, In (glEnableVertexAttribArray i) cs ->
                    In (glDisableVertexAttribArray i) off)
      /\ (forall i d, In (glVertexAttribDivisor i d) cs ->
                      In (glVertexAttribDivisor i 0) off)
      /\ (exists off', off = off' ++ [glUseProgram 0])
      /\ (forall st i, In (glEnableVertexAttribArray i) cs ->
                       array_enabled (gl_run (gl_calls w ++ cs ++ off) st) i = false)
      /\ (forall st i d, In (glVertexAttribDivisor i d) cs ->
                         array_divisor (gl_run (gl_calls w ++ cs ++ off) st) i = 0)
      /\ (forall st, current_program (gl_run (gl_calls w ++ cs ++ off) st) = 0).
Proof.
  intros drv ops p w Hwf.
  destruct (run_attrib_ops_run drv ops p w Hwf) as (p1 & cs & Hrun & _ & _ & _ & Htracked).
  rewrite Forall_forall in Htracked.
  assert (Hen : forall i, In (glEnableVertexAttribArray i) cs -> In i (active_attrs p1)).
  { intros i Hin. apply list_elem_of_In in Hin. exact (Htracked _ Hin). }
  assert (Hdiv : forall i d, In (glVertexAttribDivisor i d) cs ->
                             In i (active_attrs_divisors p1)).
  { intros i d Hin. apply list_elem_of_In in Hin. exact (Htracked _ Hin). }
  exists p1, (set_active_attrs [] (set_active_attrs_divisors [] p1)), cs,
    (deactivate_calls (active_attrs_divisors p1) (active_attrs p1)).
  split; [exact Hrun |]. split; [reflexivity |].
  split; [now rewrite deactivate_run, world_after_app |].
  split; [reflexivity |]. split; [reflexivity |].
  split.
  { intros i Hin. unfold deactivate_calls. apply in_or_app. right. apply in_or_app. left.
    apply in_map. now apply Hen. }
  split.
  { intros i d Hin. unfold deactivate_calls. apply in_or_app. left.
    apply (in_map (fun loc => glVertexAttribDivisor loc 0)). now apply (Hdiv i d). }
  split.
  { unfold deactivate_calls. eexists. now rewrite app_assoc. }
  split; [| split].
  - intros st i Hin. rewrite app_assoc, gl_run_app.
    now apply gl_run_deactivate_calls, Hen.
  - intros st i d Hin. rewrite app_assoc, gl_run_app.
    now apply gl_run_deactivate_calls, (Hdiv i d).
  - intros st. rewrite app_assoc, gl_run_app.
    apply gl_run_deactivate_calls.
Qed.

Lemma deactivate_cleans_up_witness :
  exists (p1 p2 : impl) (cs off : list gl_call),
    run_attrib_ops driver_plain
      [Attrib_pointer "position" 2 0 [F32.zero; F32.one] GL_FLOAT;
       Attrib_divisor "uvPosition" 1]
      (program_t_new, world_initial)
    = (Returns tt, (p1, world_after world_initial cs))
    /\ deactivate (p1, world_after world_initial cs)
       = (Returns tt, (p2, world_after world_initial (cs ++ off)))
    /\ active_attrs p2 = []
    /\ active_attrs_divisors p2 = [].
Proof.
  destruct (deactivate_cleans_up driver_plain
              [Attrib_pointer "position" 2 0 [F32.zero; F32.one] GL_FLOAT;
               Attrib_divisor "uvPosition" 1]
              program_t_new world_initial ltac:(repeat split; cbn; lia))
    as (p1 & p2 & cs & off & Hrun & _ & Hoff & Ha & Hd & _).
  exists p1, p2, cs, off. repeat split; assumption.
Defined.

(** ** Drawing onto a render target *)

(** C1. The framebuffer-relative overload computes the offset geometry
    and then draws with the geometry it was given: for the target whose
    output rectangle starts at (5,7) and the box (0,0,10,10), the quad
    sent to OpenGL is that of (0,0,10,10), not that of (5,7,10,10); the
    matrix is the target's orthographic projection. *)
Theorem render_texture_draws_unshifted_quad :
  let geom := mk_box 0 0 10 10 in
  let run := render_texture driver_plain texture_plain framebuffer_offset geom
               color_white 0 (program_compiled, world_initial) in
  fst run = Returns tt
  /\ pointers_at 0 (gl_calls (snd (snd run))) = [quad_vertices geom]
  /\ quad_vertices geom <> quad_vertices (offset_by_origin framebuffer_offset geom)
  /\ matrices_set (gl_calls (snd (snd run)))
     = [get_orthographic_projection framebuffer_offset].
Proof.
  cbn zeta. split; [vm_compute; reflexivity |].
  split; [vm_compute; reflexivity |].
  split; [vm_compute; discriminate |].
  vm_compute; reflexivity.
Qed.

(** On every input the overload is the plain-geometry one applied to the
    geometry as given: the offset never reaches the draw. *)
Lemma render_texture_is_unshifted (drv : gl_driver) (texture : texture_t)
    (framebuffer : framebuffer_t) (geom : wlr_box) (color : Glm.vec4) (bits : Z) :
  render_texture drv texture framebuffer geom color bits
  = render_transformed_texture_geometry drv texture geom
      (get_orthographic_projection framebuffer) color bits.
Proof. reflexivity. Qed.

(** ** Single-precision arithmetic on small integers *)

Lemma digits2_pos_lower (m : positive) : 2 ^ (Zpos (digits2_pos m) - 1) <= Zpos m.
Proof.
  induction m as [m IH | m IH |]; cbn [digits2_pos]; [| | cbn; lia].
  - rewrite Pos2Z.inj_succ.
    replace (Z.succ (Zpos (digits2_pos m)) - 1) with (Z.succ (Zpos (digits2_pos m) - 1)) by lia.
    rewrite Z.pow_succ_r by lia. lia.
  - rewrite Pos2Z.inj_succ.
    replace (Z.succ (Zpos (digits2_pos m)) - 1) with (Z.succ (Zpos (digits2_pos m) - 1)) by lia.
    rewrite Z.pow_succ_r by lia. lia.
Qed.

Lemma digits2_pos_small (m : positive) : Zpos m < 2 ^ 24 -> Zpos (digits2_pos m) <= 24.
Proof.
  intros Hm. pose proof (digits2_pos_lower m) as Hlow.
  destruct (Z.le_gt_cases (Zpos (digits2_pos m)) 24) as [Hle | Hgt]; [exact Hle |].
  assert (2 ^ 24 <= 2 ^ (Zpos (digits2_pos m) - 1)) by (apply Z.pow_le_mono_r; lia).
  lia.
Qed.

Lemma digits2_pos_iter_xO (m k : positive) :
  digits2_pos (Pos.iter xO m k) = (digits2_pos m + k)%positive.
Proof.
  induction k as [| k IH] using Pos.peano_ind.
  - cbn. now rewrite Pos.add_1_r.
  - rewrite Pos.iter_succ. cbn [digits2_pos]. rewrite IH. lia.
Qed.

Lemma iter_xO_mul_pow2 (m k : positive) :
  Zpos (Pos.iter xO m k) = Zpos m * 2 ^ Zpos k.
Proof.
  induction k as [| k IH] using Pos.peano_ind.
  - cbn. lia.
  - rewrite Pos.iter_succ, Pos2Z.inj_xO, IH, Pos2Z.inj_succ, Z.pow_succ_r by lia. lia.
Qed.

(** Rounding leaves a full-width mantissa with an exponent in range as it is. *)
Lemma binary_round_aux_canonical (s : bool) (m : positive) (e : Z) :
  digits2_pos m = 24%positive ->
  -149 <= e <= 104 ->
  binary_round_aux F32.prec F32.emax s (Zpos m) e loc_Exact = S754_finite s m e.
Proof.
  intros Hd He.
  unfold binary_round_aux, shr_fexp. cbn [Zdigits2]. rewrite Hd.
  replace (fexp F32.prec F32.emax (24 + e)) with e
    by (unfold fexp, emin, F32.prec, F32.emax; lia).
  rewrite Z.sub_diag. cbn [shr shr_record_of_loc shr_m loc_of_shr_record round_nearest_even].
  cbn [Zdigits2]. rewrite Hd.
  replace (fexp F32.prec F32.emax (24 + e)) with e
    by (unfold fexp, emin, F32.prec, F32.emax; lia).
  rewrite Z.sub_diag. cbn [shr shr_record_of_loc shr_m].
  destruct (Z.leb_spec e (F32.emax - F32.prec)) as [_ | Hgt]; [reflexivity |].
  unfold F32.emax, F32.prec in Hgt. lia.
Qed.

(** Multiplying a full-width mantissa by 1.0f gives the float back. *)
Lemma mul_one_canonical (s : bool) (m : positive) (e : Z) :
  digits2_pos m = 24%positive ->
  -126 <= e <= 104 ->
  F32.mul (S754_finite s m e) F32.one = S754_finite s m e.
Proof.
  intros Hd He.
  unfold F32.mul, F32.one, SFmul. rewrite xorb_false_r.
  replace (m * 8388608)%positive with (Pos.iter xO m 23)
    by (rewrite Pos.mul_comm; reflexivity).
  unfold binary_round_aux, shr_fexp. cbn [Zdigits2].
  rewrite digits2_pos_iter_xO, Hd.
  replace (fexp F32.prec F32.emax (Zpos (24 + 23) + (e + -23))) with e
    by (unfold fexp, emin, F32.prec, F32.emax; lia).
  replace (e - (e + -23)) with 23 by lia.
  cbn [shr shr_record_of_loc]. cbn [Pos.iter SpecFloat.iter_pos shr_1 orb].
  cbn [shr_m loc_of_shr_record round_nearest_even Zdigits2]. rewrite Hd.
  replace (fexp F32.prec F32.emax (24 + (e + -23 + 23))) with (e + -23 + 23)
    by (unfold fexp, emin, F32.prec, F32.emax; lia).
  rewrite Z.sub_diag. cbn [shr shr_record_of_loc shr_m].
  replace (e + -23 + 23) with e by lia.
  destruct (Z.leb_spec e (F32.emax - F32.prec)) as [_ | Hgt]; [reflexivity |].
  unfold F32.emax, F32.prec in Hgt. lia.
Qed.

(** The conversion of a non-zero integer below 2^24 in magnitude: a
    full-width mantissa whose value is the integer. *)
Lemma binary_round_small (s : bool) (m : positive) :
  Zpos m < 2 ^ 24 ->
  exists (mz : positive) (ez : Z),
    binary_round F32.prec F32.emax s m 0 = S754_finite s mz ez
    /\ digits2_pos mz = 24%positive
    /\ -23 <= ez <= 0
    /\ Zpos mz = Zpos m * 2 ^ (- ez).
Proof.
  intros Hm. pose proof (digits2_pos_small m Hm) as Hd.
  unfold binary_round, shl_align.
  replace (fexp F32.prec F32.emax (Zpos (digits2_pos m) + 0)) with (Zpos (digits2_pos m) - 24)
    by (unfold fexp, emin, F32.prec, F32.emax; lia).
  rewrite Z.sub_0_r.
  destruct (Zpos (digits2_pos m) - 24) as [| k | k] eqn:Hk; [| lia |].
  - assert (Hd24 : digits2_pos m = 24%positive) by lia.
    exists m, 0. rewrite binary_round_aux_canonical by (assumption || lia).
    repeat split; [assumption | lia .. ].
  - assert (Hdk : (digits2_pos m + k)%positive = 24%positive) by lia.
    exists (Pos.iter xO m k), (Zneg k).
    rewrite binary_round_aux_canonical by (rewrite ?digits2_pos_iter_xO; assumption || lia).
    repeat split; [now rewrite digits2_pos_iter_xO | lia | lia |].
    now rewrite iter_xO_mul_pow2.
Qed.

(** Flooring or ceiling a float that holds an integer gives that integer. *)
Lemma floor_ceil_integral (s : bool) (m mz : positive) (ez : Z) :
  -23 <= ez <= 0 ->
  Zpos mz = Zpos m * 2 ^ (- ez) ->
  F32.floor_to_int (S754_finite s mz ez) = F32.to_int_checked (F32.signed s m)
  /\ F32.ceil_to_int (S754_finite s mz ez) = F32.to_int_checked (F32.signed s m).
Proof.
  intros He Hmz.
  destruct ez as [| k | k]; [| lia |]; cbn [F32.floor_to_int F32.ceil_to_int].
  - cbn in Hmz. rewrite Z.shiftl_0_r.
    assert (mz = m) as -> by lia. now split.
  - change (- Z.neg k) with (Zpos k) in Hmz. rewrite !Z.shiftr_div_pow2 by lia.
    assert (Hpos : 0 < 2 ^ Zpos k) by (apply Z.pow_pos_nonneg; lia).
    assert (Hq : Zpos mz / 2 ^ Zpos k = Zpos m) by (rewrite Hmz; apply Z.div_mul; lia).
    assert (Hq' : (- Zpos mz) / 2 ^ Zpos k = - Zpos m)
      by (rewrite Hmz, <- Z.mul_opp_l; apply Z.div_mul; lia).
    destruct s; cbn [F32.signed cond_Zopp]; rewrite ?Z.opp_involutive, ?Hq, ?Hq';
      rewrite ?Z.opp_involutive; now split.
Qed.

(** An integer below 2^24 in magnitude survives the conversion to
    [float], the multiplication by 1.0f and the rounding back. *)
Lemma scale_one_exact (z : Z) :
  - 2 ^ 24 < z < 2 ^ 24 ->
  F32.floor_to_int (F32.mul (F32.of_int z) F32.one) = Some z
  /\ F32.ceil_to_int (F32.mul (F32.of_int z) F32.one) = Some z.
Proof.
  intros Hz.
  assert (Hint : F32.to_int_checked z = Some z).
  { unfold F32.to_int_checked, F32.INT_MIN, F32.INT_MAX.
    destruct (Z.leb_spec (- 2 ^ 31) z); destruct (Z.leb_spec z (2 ^ 31 - 1)); cbn; try lia.
    reflexivity. }
  destruct z as [| m | m]; unfold F32.of_int, binary_normalize.
  - split; reflexivity.
  - destruct (binary_round_small false m) as (mz & ez & -> & Hd & He & Hmz); [lia |].
    rewrite mul_one_canonical by (assumption || lia).
    destruct (floor_ceil_integral false m mz ez He Hmz) as [-> ->].
    now split.
  - destruct (binary_round_small true m) as (mz & ez & -> & Hd & He & Hmz); [lia |].
    rewrite mul_one_canonical by (assumption || lia).
    destruct (floor_ceil_integral true m mz ez He Hmz) as [-> ->].
    now split.
Qed.

(** ** Rounding to single precision *)

(** A number is below 2 to the number of its binary digits. *)
Lemma digits2_pos_upper (m : positive) : Zpos m < 2 ^ Zpos (digits2_pos m).
Proof.
  induction m as [m IH | m IH |]; cbn [digits2_pos]; [| | cbn; lia].
  - rewrite Pos2Z.inj_succ, Z.pow_succ_r by lia. lia.
  - rewrite Pos2Z.inj_succ, Z.pow_succ_r by lia. lia.
Qed.

(** The shift register keeps its invariant: at the start, after one
    shift, and after any number of shifts. *)
Lemma shifted_start (P : Z) :
  0 <= P -> shifted P 0 (shr_record_of_loc P loc_Exact).
Proof.
  intros HP. split; [exact HP |]. exists 0. cbn. repeat split; lia.
Qed.

Lemma shr_1_shifted (P k : Z) (r : shr_record) :
  0 <= k -> shifted P k r -> shifted P (k + 1) (shr_1 r).
Proof.
  intros Hk (Hm & low & Hlow & Heq & Hs).
  destruct r as [m b s]. cbn [shr_m shr_r shr_s] in *.
  assert (Hpow : 2 ^ (k + 1) = 2 * 2 ^ k) by (rewrite Z.pow_add_r by lia; lia).
  assert (Hpos : 0 < 2 ^ k) by (apply Z.pow_pos_nonneg; lia).
  assert (Hsticky : b || s = false <-> Z.b2z b * 2 ^ k + low = 0).
  { destruct b, s; cbn [orb Z.b2z]; (split; [intros H | intros H]);
      try discriminate; try reflexivity; try lia.
    all: try (assert (Hz : low = 0) by lia; apply Hs in Hz; discriminate).
    all: try (assert (Hz : low = 0) by (now apply Hs); lia). }
  assert (Hshape : forall (q : Z) (c : bool),
             0 <= q -> m = 2 * q + Z.b2z c ->
             shifted P (k + 1) {| shr_m := q; shr_r := c; shr_s := b || s |}).
  { intros q c Hq Hmq. split; [exact Hq |]. cbn [shr_m shr_r shr_s].
    exists (Z.b2z b * 2 ^ k + low). rewrite Hpow.
    split; [destruct b; cbn [Z.b2z]; lia |]. split; [| exact Hsticky].
    rewrite Heq, Hmq. ring. }
  destruct m as [| [p | p |] | p]; cbn [shr_1]; [| | | | lia].
  - apply (Hshape 0 false); cbn; lia.
  - apply (Hshape (Zpos p) true); cbn; lia.
  - apply (Hshape (Zpos p) false); cbn; lia.
  - apply (Hshape 0 true); cbn; lia.
Qed.

Lemma iter_pos_shifted (P : Z) (n : positive) :
  forall (k : Z) (r : shr_record),
    0 <= k -> shifted P k r -> shifted P (k + Zpos n) (SpecFloat.iter_pos shr_1 n r).
Proof.
  induction n as [n IH | n IH |]; intros k r Hk Hr; cbn [SpecFloat.iter_pos].
  - replace (k + Zpos n~1) with (k + 1 + Zpos n + Zpos n) by lia.
    apply IH; [lia |]. apply IH; [lia |]. now apply shr_1_shifted.
  - replace (k + Zpos n~0) with (k + Zpos n + Zpos n) by lia.
    apply IH; [lia |]. now apply IH.
  - now apply shr_1_shifted.
Qed.

(** Rounding a shifted-out value to nearest even moves it by at most half
    a unit, and not at all when nothing was shifted out. *)
Lemma round_nearest_even_shifted (P n : Z) (r : shr_record) :
  0 < n ->
  shifted P n r ->
  let m' := round_nearest_even (shr_m r) (loc_of_shr_record r) in
  shr_m r <= m' <= shr_m r + 1
  /\ 2 * Z.abs (P - m' * 2 ^ n) <= 2 ^ n
  /\ ((2 ^ n | P) -> m' * 2 ^ n = P)
  /\ (2 * Z.abs (P - m' * 2 ^ n) = 2 ^ n -> Z.even m' = true).
Proof.
  intros Hn (Hm & low & Hlow & Heq & Hs). destruct r as [m b s].
  cbn [shr_m shr_r shr_s] in *.
  assert (Hpos : 0 < 2 ^ n) by (apply Z.pow_pos_nonneg; lia).
  set (T := 2 ^ n) in *.
  assert (Hdiv : (T | P) -> b = false /\ low = 0).
  { intros [c Hc]. subst P.
    assert (Hlow' : low = (2 * c - 2 * m - Z.b2z b) * T) by lia.
    assert (Hk : 2 * c - 2 * m - Z.b2z b = 0) by nia.
    destruct b; cbn [Z.b2z] in *; [lia |]. split; [reflexivity | nia]. }
  destruct b, s; cbn [loc_of_shr_record round_nearest_even Z.b2z] in *.
  - (* above the midpoint *)
    assert (low <> 0) by (intros H; apply Hs in H; discriminate).
    split; [lia |]. split; [lia |].
    split; [intros H'; apply Hdiv in H' as [? _]; discriminate | lia].
  - (* the midpoint *)
    assert (Hl : low = 0) by (now apply Hs).
    destruct (Z.even m) eqn:Heven; (split; [lia |]); (split; [lia |]);
      (split; [intros H; apply Hdiv in H as [? _]; discriminate | intros _]).
    + exact Heven.
    + rewrite Z.add_1_r, Z.even_succ, <- Z.negb_even, Heven. reflexivity.
  - split; [lia |]. split; [lia |].
    split; [intros H; apply Hdiv in H as [_ Hl]; apply Hs in Hl; discriminate | lia].
  - assert (Hl : low = 0) by (now apply Hs).
    split; [lia |]. split; [lia |]. split; lia.
Qed.

(** The number a finite triple denotes. *)
Lemma value_finite (s : bool) (m : positive) (e : Z) :
  exists p : Q,
    F32.value (S754_finite s m e) = Some p
    /\ (p == inject_Z (F32.signed s m) * (2 # 1) ^ e)%Q.
Proof.
  destruct e as [| e | k]; cbn [F32.value]; eexists; (split; [reflexivity |]).
  - rewrite Z.shiftl_0_r. cbn [Qpower]. ring.
  - rewrite Z.shiftl_mul_pow2, inject_Z_mult by lia.
    now rewrite (Zpower_Qpower 2 (Zpos e)) by lia.
  - rewrite Qmake_Qdiv. unfold Qdiv.
    change (Zneg k) with (- Zpos k). rewrite Qpower_opp.
    rewrite <- (Zpower_Qpower 2 (Zpos k)) by lia. now rewrite iter_xO_pow2.
Qed.

(** Nothing is shifted out when the exponent need not grow. *)
Lemma shr_nonpositive (mrs : shr_record) (e n : Z) : n <= 0 -> shr mrs e n = (mrs, e).
Proof. destruct n; [reflexivity | lia | reflexivity]. Qed.

(** The exponent of the last place kept in single precision. *)
Lemma fexp_single (e : Z) : fexp F32.prec F32.emax e = Z.max (e - 24) (-149).
Proof. reflexivity. Qed.

(** Renormalising a rounded mantissa of at most 2^24 keeps its value. *)
Lemma renormalise (sx : bool) (m' e' : Z) :
  0 <= m' <= 2 ^ 24 ->
  -149 <= e' ->
  forall p : Q,
    F32.value
      (let '(mrs'', e'') := shr_fexp F32.prec F32.emax m' e' loc_Exact in
       match shr_m mrs'' with
       | Z0 => S754_zero sx
       | Zpos m => if e'' <=? F32.emax - F32.prec
                   then S754_finite sx m e'' else S754_infinity sx
       | Zneg _ => S754_nan
       end) = Some p ->
    (p == inject_Z (cond_Zopp sx m') * (2 # 1) ^ e')%Q.
Proof.
  intros Hm He p. unfold shr_fexp.
  destruct m' as [| q |]; [| | lia].
  - cbn [Zdigits2 shr_record_of_loc]. rewrite shr_nonpositive by (rewrite fexp_single; lia).
    cbn [shr_m F32.value]. intros [= <-].
    generalize ((2 # 1) ^ e')%Q; intros c.
    destruct sx; cbn [cond_Zopp]; change (inject_Z (- 0)) with 0%Q;
      change (inject_Z 0) with 0%Q; ring.
  - cbn [Zdigits2 shr_record_of_loc].
    destruct (Z.eq_dec (Zpos q) (2 ^ 24)) as [Hq | Hq].
    + assert (q = 16777216%positive) as -> by lia.
      change (Zpos (digits2_pos 16777216)) with 25.
      replace (fexp F32.prec F32.emax (25 + e') - e') with 1
        by (rewrite fexp_single; lia).
      cbn [shr SpecFloat.iter_pos shr_1 shr_m].
      destruct (e' + 1 <=? F32.emax - F32.prec); [| discriminate].
      destruct (value_finite sx 8388608 (e' + 1)) as (p' & -> & Hp'). intros [= <-].
      rewrite Hp', Qpower_plus by discriminate.
      generalize ((2 # 1) ^ e')%Q; intros c.
      destruct sx; cbn [F32.signed cond_Zopp]; rewrite ?inject_Z_opp;
        change (inject_Z 16777216) with (inject_Z 8388608 * (2 # 1))%Q;
        change ((2 # 1) ^ 1)%Q with (2 # 1)%Q; ring.
    + assert (Hd : Zpos (digits2_pos q) <= 24) by (apply digits2_pos_small; lia).
      rewrite shr_nonpositive by (rewrite fexp_single; lia). cbn [shr_m].
      destruct (e' <=? F32.emax - F32.prec); [| discriminate].
      destruct (value_finite sx q e') as (p' & -> & Hp'). intros [= <-]. exact Hp'.
Qed.

(** A mantissa of at most 2^24 gives a single-precision number. *)
Lemma representable_of_mantissa (sx : bool) (m e : Z) (p : Q) :
  0 <= m <= 2 ^ 24 ->
  -149 <= e ->
  (p == inject_Z (cond_Zopp sx m) * (2 # 1) ^ e)%Q ->
  representable p.
Proof.
  intros Hm He Hp. destruct (Z.eq_dec m (2 ^ 24)) as [-> | Hne].
  - exists (cond_Zopp sx (2 ^ 23)), (e + 1). split; [destruct sx; cbn; lia |].
    split; [lia |]. rewrite Hp, Qpower_plus by discriminate.
    generalize ((2 # 1) ^ e)%Q; intros c.
    destruct sx; cbn [cond_Zopp]; rewrite ?inject_Z_opp;
      change (inject_Z (2 ^ 24)) with (inject_Z (2 ^ 23) * (2 # 1))%Q;
      change ((2 # 1) ^ 1)%Q with (2 # 1)%Q; ring.
  - exists (cond_Zopp sx m), e. split; [destruct sx; cbn [cond_Zopp]; lia |].
    split; [exact He | exact Hp].
Qed.

(** [binary_round_aux] on an exact mantissa: the result is the mantissa
    moved by at most half a unit of the last place kept, and is the
    mantissa itself when the bits dropped are all zero. [M] is the result
    at the exponent of the input. *)
Lemma binary_round_aux_rounds (sx : bool) (P : positive) (E : Z) :
  let n := fexp F32.prec F32.emax (Zpos (digits2_pos P) + E) - E in
  exists M : Z,
    0 <= M
    /\ (n <= 0 -> M = Zpos P)
    /\ (0 < n -> 2 * Z.abs (Zpos P - M) <= 2 ^ n /\ (2 ^ n | M)
                /\ ((2 ^ n | Zpos P) -> M = Zpos P)
                /\ M <= 2 ^ 24 * 2 ^ n
                /\ (2 * Z.abs (Zpos P - M) = 2 ^ n -> Z.even (M / 2 ^ n) = true))
    /\ forall p : Q,
        F32.value (binary_round_aux F32.prec F32.emax sx (Zpos P) E loc_Exact) = Some p ->
        (p == inject_Z (cond_Zopp sx M) * (2 # 1) ^ E)%Q /\ representable p.
Proof.
  intros n. unfold binary_round_aux.
  destruct (Z_le_gt_dec n 0) as [Hn | Hn].
  - exists (Zpos P). split; [lia |]. split; [reflexivity |]. split; [lia |].
    unfold shr_fexp at 1. cbn [Zdigits2 shr_record_of_loc]. fold n.
    rewrite shr_nonpositive by exact Hn.
    cbn [shr_m loc_of_shr_record round_nearest_even].
    unfold shr_fexp. cbn [Zdigits2 shr_record_of_loc]. fold n.
    rewrite shr_nonpositive by exact Hn. cbn [shr_m].
    intros p. destruct (E <=? F32.emax - F32.prec); [| discriminate].
    destruct (value_finite sx P E) as (p' & -> & Hp'). intros [= <-].
    split; [exact Hp' |].
    pose proof (digits2_pos_upper P) as Hup.
    assert (Hd : 2 ^ Zpos (digits2_pos P) <= 2 ^ 24).
    { apply Z.pow_le_mono_r; [lia |]. unfold n in Hn. rewrite fexp_single in Hn. lia. }
    apply (representable_of_mantissa sx (Zpos P) E); [lia | | exact Hp'].
    unfold n in Hn. rewrite fexp_single in Hn. lia.
  - unfold shr_fexp at 1. cbn [Zdigits2 shr_record_of_loc]. fold n.
    destruct n as [| np |] eqn:Hnp; [lia | | lia]. cbn [shr].
    pose proof (iter_pos_shifted (Zpos P) np 0 _ ltac:(lia)
                  (shifted_start (Zpos P) ltac:(lia))) as Hsh.
    rewrite Z.add_0_l in Hsh.
    destruct (round_nearest_even_shifted (Zpos P) (Zpos np) _ ltac:(lia) Hsh)
      as (Hm' & Hhalf & Hexact & Heven).
    set (mrs := SpecFloat.iter_pos shr_1 np _) in *.
    set (m' := round_nearest_even (shr_m mrs) (loc_of_shr_record mrs)) in *.
    destruct Hsh as (Hm0 & low & Hlow & Heq & _).
    assert (Hpos : 0 < 2 ^ Zpos np) by (apply Z.pow_pos_nonneg; lia).
    assert (He' : E + Zpos np = fexp F32.prec F32.emax (Zpos (digits2_pos P) + E)) by lia.
    assert (Hbound : shr_m mrs < 2 ^ 24).
    { destruct (Z_lt_ge_dec (shr_m mrs) (2 ^ 24)) as [? | Hge]; [assumption | exfalso].
      pose proof (digits2_pos_upper P) as Hup.
      assert (Hle : 2 ^ Zpos (digits2_pos P) <= 2 ^ (24 + Zpos np)).
      { apply Z.pow_le_mono_r; [lia |]. rewrite fexp_single in He'. lia. }
      rewrite Z.pow_add_r in Hle by lia.
      assert (2 ^ 24 * 2 ^ Zpos np <= shr_m mrs * 2 ^ Zpos np) by nia.
      destruct (shr_r mrs); cbn [Z.b2z] in Heq; nia. }
    exists (m' * 2 ^ Zpos np). split; [nia |]. split; [lia |].
    split.
    { intros _. split; [exact Hhalf |]. split; [now exists m' |].
      split; [exact Hexact |]. split; [nia |].
      rewrite Z.div_mul by lia. exact Heven. }
    intros p Hp.
    pose proof (renormalise sx m' (E + Zpos np) ltac:(lia)
                  ltac:(rewrite He', fexp_single; lia) p Hp) as Hp'.
    split; [| apply (representable_of_mantissa sx m' (E + Zpos np));
              [lia | rewrite He', fexp_single; lia | exact Hp']].
    rewrite Hp', Qpower_plus by discriminate.
    rewrite <- (Zpower_Qpower 2 (Zpos np)) by lia.
    generalize ((2 # 1) ^ E)%Q; intros c.
    destruct sx; cbn [cond_Zopp]; rewrite ?inject_Z_opp, !inject_Z_mult; ring.
Qed.

Lemma representable_zero : representable (inject_Z 0).
Proof. exists 0, 0. split; [lia |]. split; [lia | reflexivity]. Qed.

Lemma Qabs_zero (a : Q) : (Qabs a == 0)%Q -> (a == 0)%Q.
Proof.
  intros H. pose proof (Qle_Qabs a) as H1. pose proof (Qle_Qabs (- a)) as H2.
  rewrite Qabs_opp in H2. rewrite H in H1, H2. lra.
Qed.

Lemma rounded_exact (q p : Q) : representable p -> (p == q)%Q -> rounded q p.
Proof.
  intros Hr H.
  assert (Hz : (Qabs (p - q) == 0)%Q).
  { assert (H0 : (p - q == 0)%Q) by (rewrite H; ring). now rewrite H0. }
  split; [exact Hr |]. split; [intros p' _; rewrite Hz; apply Qabs_nonneg |].
  split.
  { intros p' _ Hne Htie. exfalso. apply Hne. rewrite Hz in Htie.
    apply Qabs_zero in Htie. rewrite H. lra. }
  split; [| intros _; exact H].
  rewrite Hz, Qmult_0_l. apply Qabs_nonneg.
Qed.

Lemma Qabs_signed (sx : bool) (z : Z) (c : Q) :
  (0 < c)%Q -> (Qabs (inject_Z (cond_Zopp sx z) * c) == inject_Z (Z.abs z) * c)%Q.
Proof.
  intros Hc. rewrite Qabs_Qmult, (Qabs_pos c) by now apply Qlt_le_weak.
  apply Qmult_comp; [| reflexivity].
  unfold Qabs, inject_Z. destruct sx; cbn [cond_Zopp]; now rewrite ?Z.abs_opp.
Qed.

Lemma pow2_positive (e : Z) : (0 < (2 # 1) ^ e)%Q.
Proof. now apply Qpower_0_lt. Qed.

(** Two numbers with mantissas [P] and [M] at one exponent and one sign. *)
Lemma rounded_of_mantissas (sx : bool) (P M : Z) (c p q : Q) :
  (0 < c)%Q ->
  0 <= P ->
  (p == inject_Z (cond_Zopp sx M) * c)%Q ->
  (q == inject_Z (cond_Zopp sx P) * c)%Q ->
  2 ^ 24 * Z.abs (P - M) <= P ->
  (representable q -> M = P) ->
  representable p ->
  (forall p' : Q, representable p' -> (Qabs (p - q) <= Qabs (p' - q))%Q) ->
  (forall p' : Q,
      representable p' -> ~ (p' == p)%Q -> (Qabs (p' - q) == Qabs (p - q))%Q ->
      even_mantissa p) ->
  rounded q p.
Proof.
  intros Hc HP Hp Hq Hnear Hexact Hrp Hnearest Hties.
  split; [exact Hrp |]. split; [exact Hnearest |]. split; [exact Hties |]. split.
  - assert (Hdiff : (p - q == inject_Z (cond_Zopp sx (M - P)) * c)%Q).
    { rewrite Hp, Hq. destruct sx; cbn [cond_Zopp];
        rewrite ?inject_Z_opp; unfold Z.sub; rewrite inject_Z_plus, ?inject_Z_opp; ring. }
    rewrite Hdiff, Hq, !Qabs_signed by exact Hc.
    rewrite (Z.abs_eq P) by exact HP.
    setoid_replace (inject_Z (Z.abs (M - P)) * c * inject_Z (2 ^ 24))%Q
      with (inject_Z (2 ^ 24 * Z.abs (M - P)) * c)%Q using relation Qeq
      by (rewrite inject_Z_mult; ring).
    apply Qmult_le_compat_r; [| now apply Qlt_le_weak].
    rewrite <- Zle_Qle. replace (M - P) with (- (P - M)) by lia.
    now rewrite Z.abs_opp.
  - intros Hr. rewrite Hp, Hq, (Hexact Hr). reflexivity.
Qed.

(** A single-precision number whose mantissa [P] has more than 24 bits
    has zeros in the bits that rounding drops. *)
Lemma representable_divides (sx : bool) (P : positive) (E n : Z) (q : Q) :
  0 < n ->
  E + n = fexp F32.prec F32.emax (Zpos (digits2_pos P) + E) ->
  (q == inject_Z (cond_Zopp sx (Zpos P)) * (2 # 1) ^ E)%Q ->
  representable q ->
  (2 ^ n | Zpos P).
Proof.
  intros Hn He Hq (m0 & e0 & Hm0 & He0 & Hrep).
  assert (Habs : (inject_Z (Zpos P) * (2 # 1) ^ E == inject_Z (Z.abs m0) * (2 # 1) ^ e0)%Q).
  { rewrite <- (Z.abs_eq (Zpos P)) by lia.
    rewrite <- (Qabs_signed sx (Zpos P)) by apply pow2_positive.
    rewrite <- (Qabs_signed false m0) by apply pow2_positive.
    cbn [cond_Zopp]. now rewrite <- Hq, <- Hrep. }
  rewrite fexp_single in He.
  assert (Hk : E + n <= e0).
  { destruct (Z_le_gt_dec (E + n) e0) as [? | Hlt]; [assumption | exfalso].
    assert (Hnormal : E + n = Zpos (digits2_pos P) + E - 24) by lia.
    pose proof (digits2_pos_lower P) as Hlow.
    assert (H1 : (inject_Z (Z.abs m0) * (2 # 1) ^ e0 < inject_Z (2 ^ 24) * (2 # 1) ^ e0)%Q).
    { apply Qmult_lt_compat_r; [apply pow2_positive |]. now rewrite <- Zlt_Qlt. }
    assert (H2 : (inject_Z (2 ^ 24) * (2 # 1) ^ e0
                  <= inject_Z (2 ^ (Zpos (digits2_pos P) - 1)) * (2 # 1) ^ E)%Q).
    { rewrite !Zpower_Qpower by lia.
      change (inject_Z 2) with (2 # 1)%Q.
      rewrite <- !Qpower_plus by discriminate.
      apply Qpower_le_compat_l; [lia | discriminate]. }
    assert (H3 : (inject_Z (2 ^ (Zpos (digits2_pos P) - 1)) * (2 # 1) ^ E
                  <= inject_Z (Zpos P) * (2 # 1) ^ E)%Q).
    { apply Qmult_le_compat_r; [| apply Qlt_le_weak, pow2_positive].
      now rewrite <- Zle_Qle. }
    rewrite Habs in H3.
    apply (Qlt_irrefl (inject_Z (Z.abs m0) * (2 # 1) ^ e0)).
    eapply Qlt_le_trans; [exact H1 |]. eapply Qle_trans; [exact H2 | exact H3]. }
  assert (Hint : Zpos P = Z.abs m0 * 2 ^ (e0 - E)).
  { replace e0 with (E + (e0 - E)) in Habs at 1 by lia.
    rewrite Qpower_plus in Habs by discriminate.
    rewrite <- (Zpower_Qpower 2 (e0 - E)) in Habs by lia.
    assert (Hc : (inject_Z (Zpos P) == inject_Z (Z.abs m0 * 2 ^ (e0 - E)))%Q).
    { rewrite inject_Z_mult.
      apply (Qmult_inj_r _ _ ((2 # 1) ^ E)%Q).
      - intros H0. pose proof (pow2_positive E) as Hp. rewrite H0 in Hp.
        now apply Qlt_irrefl in Hp.
      - rewrite Habs. ring. }
    unfold Qeq, inject_Z in Hc. cbn [Qnum Qden] in Hc. lia. }
  rewrite Hint. replace (e0 - E) with (n + (e0 - E - n)) by lia.
  rewrite Z.pow_add_r by lia.
  exists (Z.abs m0 * 2 ^ (e0 - E - n)). ring.
Qed.

(** The multiple of [T] that rounding picks is a nearest one. *)
Lemma nearest_multiple (P M T k : Z) :
  0 < T -> (T | M) -> 2 * Z.abs (P - M) <= T -> Z.abs (P - M) <= Z.abs (P - k * T).
Proof.
  intros HT [j ->] Hhalf.
  destruct (Z.lt_trichotomy k j) as [Hlt | [-> | Hgt]]; [| lia |].
  - assert (k * T <= j * T - T) by nia. lia.
  - assert (j * T + T <= k * T) by nia. lia.
Qed.

(** The same at a common exponent: [P] and [M] carry 2^a, the other
    number [m0] carries 2^b; a number of finer exponent lies below the
    binade of [P]. *)
Lemma nearest_scaled (P M n m0 a b : Z) :
  0 < n -> 0 <= a -> 0 <= b ->
  (2 ^ n | M) ->
  2 * Z.abs (P - M) <= 2 ^ n ->
  (b < a + n -> 2 ^ (23 + n) <= P /\ Z.abs m0 < 2 ^ 24) ->
  Z.abs (P - M) * 2 ^ a <= Z.abs (m0 * 2 ^ b - P * 2 ^ a).
Proof.
  intros Hn Ha Hb Hdiv Hhalf Hfine.
  assert (HT : 0 < 2 ^ n) by (apply Z.pow_pos_nonneg; lia).
  assert (HA : 0 < 2 ^ a) by (apply Z.pow_pos_nonneg; lia).
  destruct (Z_lt_ge_dec b (a + n)) as [Hlt | Hge].
  - destruct (Hfine Hlt) as [HP Hm0].
    pose proof (nearest_multiple P M (2 ^ n) (2 ^ 23) HT Hdiv Hhalf) as Hnear.
    rewrite <- Z.pow_add_r in Hnear by lia.
    assert (Hb' : 2 * 2 ^ b <= 2 ^ n * 2 ^ a).
    { rewrite <- Z.pow_add_r by lia. change 2 with (2 ^ 1) at 1.
      rewrite <- Z.pow_add_r by lia. apply Z.pow_le_mono_r; lia. }
    assert (HB : 0 < 2 ^ b) by (apply Z.pow_pos_nonneg; lia).
    assert (Hsplit : 2 ^ (23 + n) = 2 ^ 23 * 2 ^ n) by (rewrite Z.pow_add_r; lia).
    assert (Hsmall : Z.abs m0 * 2 ^ b < 2 ^ (23 + n) * 2 ^ a).
    { rewrite Hsplit. change (2 ^ 24) with (2 * 2 ^ 23) in Hm0.
      apply Z.lt_le_trans with (2 ^ 23 * (2 * 2 ^ b)); [nia |].
      rewrite <- Z.mul_assoc. apply Z.mul_le_mono_nonneg_l; lia. }
    assert (Habs : Z.abs (m0 * 2 ^ b) = Z.abs m0 * 2 ^ b)
      by (rewrite Z.abs_mul, (Z.abs_eq (2 ^ b)); lia).
    assert (Hgap : Z.abs (P - M) * 2 ^ a <= (P - 2 ^ (23 + n)) * 2 ^ a).
    { apply Z.mul_le_mono_nonneg_r; lia. }
    lia.
  - replace b with (b - a - n + n + a) by lia.
    rewrite !Z.pow_add_r by lia.
    replace (m0 * (2 ^ (b - a - n) * 2 ^ n * 2 ^ a) - P * 2 ^ a)
      with ((m0 * 2 ^ (b - a - n) * 2 ^ n - P) * 2 ^ a) by ring.
    rewrite Z.abs_mul, (Z.abs_eq (2 ^ a)) by lia.
    apply Z.mul_le_mono_nonneg_r; [lia |].
    pose proof (nearest_multiple P M (2 ^ n) (m0 * 2 ^ (b - a - n)) HT Hdiv Hhalf). lia.
Qed.

Lemma Qabs_inject_Z (z : Z) (c : Q) :
  (0 < c)%Q -> (Qabs (inject_Z z * c) == inject_Z (Z.abs z) * c)%Q.
Proof. intros Hc. exact (Qabs_signed false z c Hc). Qed.

(** No single-precision number is nearer to the exact mantissa than the
    rounded one. *)
Lemma nearest_of_mantissas (sx : bool) (P M n E : Z) (p q p' : Q) :
  0 < n ->
  (2 ^ n | M) ->
  2 * Z.abs (P - M) <= 2 ^ n ->
  (-149 < E + n -> 2 ^ (23 + n) <= P) ->
  (p == inject_Z (cond_Zopp sx M) * (2 # 1) ^ E)%Q ->
  (q == inject_Z (cond_Zopp sx P) * (2 # 1) ^ E)%Q ->
  representable p' ->
  (Qabs (p - q) <= Qabs (p' - q))%Q.
Proof.
  intros Hn Hdiv Hhalf Hnormal Hp Hq (m0 & e0 & Hm0 & He0 & Hp').
  set (e := Z.min E e0).
  assert (HE : ((2 # 1) ^ E == inject_Z (2 ^ (E - e)) * (2 # 1) ^ e)%Q).
  { rewrite (Zpower_Qpower 2 (E - e)) by lia. change (inject_Z 2) with (2 # 1)%Q.
    rewrite <- Qpower_plus by discriminate. now replace (E - e + e) with E by lia. }
  assert (HE0 : ((2 # 1) ^ e0 == inject_Z (2 ^ (e0 - e)) * (2 # 1) ^ e)%Q).
  { rewrite (Zpower_Qpower 2 (e0 - e)) by lia. change (inject_Z 2) with (2 # 1)%Q.
    rewrite <- Qpower_plus by discriminate. now replace (e0 - e + e) with e0 by lia. }
  pose proof (pow2_positive e) as Hc.
  assert (Hl : (p - q == inject_Z (cond_Zopp sx ((M - P) * 2 ^ (E - e))) * (2 # 1) ^ e)%Q).
  { rewrite Hp, Hq, HE. generalize ((2 # 1) ^ e)%Q; intros c.
    destruct sx; cbn [cond_Zopp]; rewrite ?inject_Z_opp, !inject_Z_mult;
      unfold Z.sub; rewrite inject_Z_plus, inject_Z_opp; ring. }
  assert (Hr : (p' - q == inject_Z (m0 * 2 ^ (e0 - e) - cond_Zopp sx P * 2 ^ (E - e))
                          * (2 # 1) ^ e)%Q).
  { rewrite Hp', Hq, HE, HE0. generalize ((2 # 1) ^ e)%Q; intros c.
    unfold Z.sub at 3. rewrite inject_Z_plus, inject_Z_opp, !inject_Z_mult. ring. }
  rewrite Hl, Hr, Qabs_signed, Qabs_inject_Z by exact Hc.
  apply Qmult_le_compat_r; [| now apply Qlt_le_weak].
  rewrite <- Zle_Qle.
  assert (Hfine : e0 - e < E - e + n -> 2 ^ (23 + n) <= P /\ Z.abs (cond_Zopp sx m0) < 2 ^ 24).
  { intros Hlt. split; [apply Hnormal; lia | destruct sx; cbn [cond_Zopp]; lia]. }
  pose proof (nearest_scaled P M n (cond_Zopp sx m0) (E - e) (e0 - e) Hn
                ltac:(lia) ltac:(lia) Hdiv Hhalf Hfine) as Hmain.
  rewrite Z.abs_mul, (Z.abs_eq (2 ^ (E - e))) by (apply Z.pow_nonneg; lia).
  replace (Z.abs (M - P)) with (Z.abs (P - M)) by lia.
  destruct sx; cbn [cond_Zopp] in *; lia.
Qed.

(** Another multiple of [T] as near as the one rounding picks: [P] is a
    midpoint. *)
Lemma tie_multiple (P M T k : Z) :
  0 < T -> (T | M) -> 2 * Z.abs (P - M) <= T ->
  k * T <> M -> Z.abs (P - k * T) = Z.abs (P - M) ->
  2 * Z.abs (P - M) = T.
Proof.
  intros HT [j ->] Hhalf Hne Htie.
  destruct (Z.lt_trichotomy k j) as [Hlt | [-> | Hgt]]; [| contradiction |].
  - assert (k * T <= j * T - T) by nia. lia.
  - assert (j * T + T <= k * T) by nia. lia.
Qed.

(** The same at a common exponent. *)
Lemma tie_scaled (P M n m0 a b : Z) :
  0 < n -> 0 <= a -> 0 <= b ->
  (2 ^ n | M) ->
  2 * Z.abs (P - M) <= 2 ^ n ->
  (b < a + n -> 2 ^ (23 + n) <= P /\ Z.abs m0 < 2 ^ 24) ->
  m0 * 2 ^ b <> M * 2 ^ a ->
  Z.abs (m0 * 2 ^ b - P * 2 ^ a) = Z.abs (P - M) * 2 ^ a ->
  2 * Z.abs (P - M) = 2 ^ n.
Proof.
  intros Hn Ha Hb Hdiv Hhalf Hfine Hne Htie.
  assert (HT : 0 < 2 ^ n) by (apply Z.pow_pos_nonneg; lia).
  assert (HA : 0 < 2 ^ a) by (apply Z.pow_pos_nonneg; lia).
  destruct (Z_lt_ge_dec b (a + n)) as [Hlt | Hge].
  - exfalso. destruct (Hfine Hlt) as [HP Hm0].
    pose proof (nearest_multiple P M (2 ^ n) (2 ^ 23) HT Hdiv Hhalf) as Hnear.
    rewrite <- Z.pow_add_r in Hnear by lia.
    assert (Hb' : 2 * 2 ^ b <= 2 ^ n * 2 ^ a).
    { rewrite <- Z.pow_add_r by lia. change 2 with (2 ^ 1) at 1.
      rewrite <- Z.pow_add_r by lia. apply Z.pow_le_mono_r; lia. }
    assert (HB : 0 < 2 ^ b) by (apply Z.pow_pos_nonneg; lia).
    assert (Hsplit : 2 ^ (23 + n) = 2 ^ 23 * 2 ^ n) by (rewrite Z.pow_add_r; lia).
    assert (Hsmall : Z.abs m0 * 2 ^ b < 2 ^ (23 + n) * 2 ^ a).
    { rewrite Hsplit. change (2 ^ 24) with (2 * 2 ^ 23) in Hm0.
      apply Z.lt_le_trans with (2 ^ 23 * (2 * 2 ^ b)); [nia |].
      rewrite <- Z.mul_assoc. apply Z.mul_le_mono_nonneg_l; lia. }
    assert (Habs : Z.abs (m0 * 2 ^ b) = Z.abs m0 * 2 ^ b)
      by (rewrite Z.abs_mul, (Z.abs_eq (2 ^ b)); lia).
    assert (Hgap : Z.abs (P - M) * 2 ^ a <= (P - 2 ^ (23 + n)) * 2 ^ a).
    { apply Z.mul_le_mono_nonneg_r; lia. }
    lia.
  - revert Hne Htie. replace b with (b - a - n + n + a) by lia.
    rewrite !Z.pow_add_r by lia. intros Hne Htie.
    replace (m0 * (2 ^ (b - a - n) * 2 ^ n * 2 ^ a) - P * 2 ^ a)
      with ((m0 * 2 ^ (b - a - n) * 2 ^ n - P) * 2 ^ a) in Htie by ring.
    rewrite Z.abs_mul, (Z.abs_eq (2 ^ a)) in Htie by lia.
    apply Z.mul_cancel_r in Htie; [| lia].
    apply (tie_multiple P M (2 ^ n) (m0 * 2 ^ (b - a - n)) HT Hdiv Hhalf).
    + intros Heq. apply Hne. rewrite <- Heq. ring.
    + rewrite <- Htie. lia.
Qed.

(** A single-precision number other than the rounded one and as near to
    the exact mantissa: the exact mantissa is a midpoint. *)
Lemma tie_of_mantissas (sx : bool) (P M n E : Z) (p q p' : Q) :
  0 < n ->
  (2 ^ n | M) ->
  2 * Z.abs (P - M) <= 2 ^ n ->
  (-149 < E + n -> 2 ^ (23 + n) <= P) ->
  (p == inject_Z (cond_Zopp sx M) * (2 # 1) ^ E)%Q ->
  (q == inject_Z (cond_Zopp sx P) * (2 # 1) ^ E)%Q ->
  representable p' ->
  ~ (p' == p)%Q ->
  (Qabs (p' - q) == Qabs (p - q))%Q ->
  2 * Z.abs (P - M) = 2 ^ n.
Proof.
  intros Hn Hdiv Hhalf Hnormal Hp Hq (m0 & e0 & Hm0 & He0 & Hp') Hne Htie.
  set (e := Z.min E e0).
  assert (HE : ((2 # 1) ^ E == inject_Z (2 ^ (E - e)) * (2 # 1) ^ e)%Q).
  { rewrite (Zpower_Qpower 2 (E - e)) by lia. change (inject_Z 2) with (2 # 1)%Q.
    rewrite <- Qpower_plus by discriminate. now replace (E - e + e) with E by lia. }
  assert (HE0 : ((2 # 1) ^ e0 == inject_Z (2 ^ (e0 - e)) * (2 # 1) ^ e)%Q).
  { rewrite (Zpower_Qpower 2 (e0 - e)) by lia. change (inject_Z 2) with (2 # 1)%Q.
    rewrite <- Qpower_plus by discriminate. now replace (e0 - e + e) with e0 by lia. }
  pose proof (pow2_positive e) as Hc.
  assert (Hc0 : ~ ((2 # 1) ^ e == 0)%Q).
  { intros H0. rewrite H0 in Hc. now apply Qlt_irrefl in Hc. }
  assert (Hl : (p - q == inject_Z (cond_Zopp sx ((M - P) * 2 ^ (E - e))) * (2 # 1) ^ e)%Q).
  { rewrite Hp, Hq, HE. generalize ((2 # 1) ^ e)%Q; intros c.
    destruct sx; cbn [cond_Zopp]; rewrite ?inject_Z_opp, !inject_Z_mult;
      unfold Z.sub; rewrite inject_Z_plus, inject_Z_opp; ring. }
  assert (Hr : (p' - q == inject_Z (m0 * 2 ^ (e0 - e) - cond_Zopp sx P * 2 ^ (E - e))
                          * (2 # 1) ^ e)%Q).
  { rewrite Hp', Hq, HE, HE0. generalize ((2 # 1) ^ e)%Q; intros c.
    unfold Z.sub at 3. rewrite inject_Z_plus, inject_Z_opp, !inject_Z_mult. ring. }
  rewrite Hl, Hr, Qabs_signed, Qabs_inject_Z in Htie by exact Hc.
  apply Qmult_inj_r in Htie; [| exact Hc0].
  unfold Qeq, inject_Z in Htie. cbn [Qnum Qden] in Htie. rewrite !Z.mul_1_r in Htie.
  assert (Hfine : e0 - e < E - e + n -> 2 ^ (23 + n) <= P /\ Z.abs (cond_Zopp sx m0) < 2 ^ 24).
  { intros Hlt. split; [apply Hnormal; lia | destruct sx; cbn [cond_Zopp]; lia]. }
  apply (tie_scaled P M n (cond_Zopp sx m0) (E - e) (e0 - e) Hn
           ltac:(lia) ltac:(lia) Hdiv Hhalf Hfine).
  - intros Heq. apply Hne. rewrite Hp', Hp, HE, HE0.
    assert (Hm : m0 * 2 ^ (e0 - e) = cond_Zopp sx (M * 2 ^ (E - e)))
      by (destruct sx; cbn [cond_Zopp] in *; lia).
    rewrite !Qmult_assoc, <- !inject_Z_mult, Hm.
    destruct sx; cbn [cond_Zopp]; rewrite ?Z.mul_opp_l; reflexivity.
  - rewrite Z.abs_mul, (Z.abs_eq (2 ^ (E - e))) in Htie by (apply Z.pow_nonneg; lia).
    replace (Z.abs (P - M)) with (Z.abs (M - P)) by lia.
    destruct sx; cbn [cond_Zopp] in *; lia.
Qed.

(** A rounded mantissa that is even, at its exponent. *)
Lemma even_mantissa_of_rounding (sx : bool) (M n E : Z) (p : Q) :
  0 < n ->
  (2 ^ n | M) ->
  Z.even (M / 2 ^ n) = true ->
  2 ^ 23 * 2 ^ n <= M <= 2 ^ 24 * 2 ^ n ->
  -149 <= E + n ->
  (p == inject_Z (cond_Zopp sx M) * (2 # 1) ^ E)%Q ->
  even_mantissa p.
Proof.
  intros Hn [m' ->] Heven HM He Hp.
  assert (HT : 0 < 2 ^ n) by (apply Z.pow_pos_nonneg; lia).
  rewrite Z.div_mul in Heven by lia.
  assert (Hm' : 2 ^ 23 <= m' <= 2 ^ 24) by nia.
  assert (Hpn : (p == inject_Z (cond_Zopp sx m') * (2 # 1) ^ (E + n))%Q).
  { rewrite Hp, (Z.add_comm E n), Qpower_plus by discriminate.
    rewrite <- (Zpower_Qpower 2 n) by lia.
    generalize ((2 # 1) ^ E)%Q; intros c.
    destruct sx; cbn [cond_Zopp]; rewrite ?inject_Z_opp, !inject_Z_mult; ring. }
  destruct (Z.eq_dec m' (2 ^ 24)) as [-> | Hne].
  - exists (cond_Zopp sx (2 ^ 23)), (E + n + 1).
    split; [destruct sx; reflexivity |].
    split; [left; destruct sx; cbn; lia |].
    rewrite Hpn, (Qpower_plus (2 # 1) (E + n) 1) by discriminate.
    generalize ((2 # 1) ^ (E + n))%Q; intros c.
    destruct sx; cbn [cond_Zopp]; rewrite ?inject_Z_opp;
      change (inject_Z (2 ^ 24)) with (inject_Z (2 ^ 23) * (2 # 1))%Q;
      change ((2 # 1) ^ 1)%Q with (2 # 1)%Q; ring.
  - exists (cond_Zopp sx m'), (E + n).
    split; [destruct sx; cbn [cond_Zopp]; rewrite ?Z.even_opp; exact Heven |].
    split; [left; destruct sx; cbn [cond_Zopp]; lia | exact Hpn].
Qed.

(** The single-precision product of an integer below 2^24 in magnitude
    and a single-precision number is a rounding of the exact product. *)
Lemma mul_int_rounded (s ss : bool) (m mz ms : positive) (ez es : Z) (p sc : Q) :
  -23 <= ez <= 0 ->
  Zpos mz = Zpos m * 2 ^ (- ez) ->
  -149 <= es ->
  F32.value (F32.mul (S754_finite s mz ez) (S754_finite ss ms es)) = Some p ->
  (sc == inject_Z (F32.signed ss ms) * (2 # 1) ^ es)%Q ->
  rounded (inject_Z (cond_Zopp s (Zpos m)) * sc) p.
Proof.
  intros Hez Hmz Hes Hp Hsc. unfold F32.mul, SFmul in Hp.
  destruct (binary_round_aux_rounds (xorb s ss) (mz * ms) (ez + es))
    as (M & HM0 & Hle & Hgt & Hval).
  destruct (Hval p Hp) as [Hpval Hrp]. clear Hval. rename Hpval into Hval.
  set (P := Zpos (mz * ms)) in *.
  set (n := fexp F32.prec F32.emax (Zpos (digits2_pos (mz * ms)) + (ez + es)) - (ez + es)) in *.
  assert (Hq : (inject_Z (cond_Zopp s (Zpos m)) * sc
                == inject_Z (cond_Zopp (xorb s ss) P) * (2 # 1) ^ (ez + es))%Q).
  { assert (Hmag : (inject_Z P * (2 # 1) ^ (ez + es)
                    == inject_Z (Zpos m) * inject_Z (Zpos ms) * (2 # 1) ^ es)%Q).
    { unfold P. rewrite Pos2Z.inj_mul, Hmz, !inject_Z_mult.
      rewrite (Zpower_Qpower 2 (- ez)) by lia. change (inject_Z 2) with (2 # 1)%Q.
      replace es with (- ez + (ez + es)) at 2 by lia.
      rewrite (Qpower_plus (2 # 1) (- ez)) by discriminate.
      generalize ((2 # 1) ^ (- ez))%Q ((2 # 1) ^ (ez + es))%Q. intros a b. ring. }
    rewrite Hsc. revert Hmag.
    generalize ((2 # 1) ^ (ez + es))%Q ((2 # 1) ^ es)%Q. intros a b Hmag.
    destruct s, ss; cbn [xorb cond_Zopp F32.signed]; rewrite ?inject_Z_opp.
    - transitivity (inject_Z (Zpos m) * inject_Z (Zpos ms) * b)%Q; [ring | now rewrite Hmag].
    - transitivity (- (inject_Z (Zpos m) * inject_Z (Zpos ms) * b))%Q;
        [ring | rewrite <- Hmag; ring].
    - transitivity (- (inject_Z (Zpos m) * inject_Z (Zpos ms) * b))%Q;
        [ring | rewrite <- Hmag; ring].
    - transitivity (inject_Z (Zpos m) * inject_Z (Zpos ms) * b)%Q; [ring | now rewrite Hmag]. }
  assert (Hexact : representable (inject_Z (cond_Zopp s (Zpos m)) * sc) -> M = P).
  { intros Hr. destruct (Z_le_gt_dec n 0) as [Hn | Hn]; [now apply Hle |].
    apply (proj1 (proj2 (proj2 (Hgt ltac:(lia))))).
    apply (representable_divides (xorb s ss) (mz * ms) (ez + es) n _ ltac:(lia)
             ltac:(unfold n; lia) Hq Hr). }
  apply (rounded_of_mantissas (xorb s ss) P M ((2 # 1) ^ (ez + es)));
    [apply pow2_positive | unfold P; lia | exact Hval | exact Hq | | exact Hexact
    | exact Hrp | |].
  3:{ intros p' Hp' Hne Htie. destruct (Z_le_gt_dec n 0) as [Hn | Hn].
      - exfalso. apply Hne.
        assert (H0 : (p - inject_Z (cond_Zopp s (Zpos m)) * sc == 0)%Q)
          by (rewrite Hval, Hq, (Hle Hn); ring).
        rewrite H0 in Htie. apply Qabs_zero in Htie. lra.
      - destruct (Hgt ltac:(lia)) as (Hhalf & Hdiv & Hexact' & Hupper & Heven).
        assert (Hpos : 0 < 2 ^ n) by (apply Z.pow_pos_nonneg; lia).
        assert (Hnormal : -149 < ez + es + n -> 2 ^ (23 + n) <= P).
        { intros Hnormal.
          assert (Hn' : n = Zpos (digits2_pos (mz * ms)) - 24)
            by (unfold n in *; rewrite fexp_single in *; lia).
          pose proof (digits2_pos_lower (mz * ms)) as Hlow. fold P in Hlow.
          replace (23 + n) with (Zpos (digits2_pos (mz * ms)) - 1) by lia. exact Hlow. }
        pose proof (tie_of_mantissas (xorb s ss) P M n (ez + es) p _ p'
                      ltac:(lia) Hdiv Hhalf Hnormal Hval Hq Hp' Hne Htie) as Hmid.
        assert (HPM : P <> M) by lia.
        assert (Hnorm : -149 < ez + es + n).
        { destruct (Z_lt_ge_dec (-149) (ez + es + n)) as [? | Hsub]; [assumption | exfalso].
          apply HPM. symmetry. apply Hexact'.
          assert (Hn' : n <= - ez) by (unfold n in *; rewrite fexp_single in *; lia).
          unfold P. rewrite Pos2Z.inj_mul, Hmz.
          replace (- ez) with (n + (- ez - n)) by lia. rewrite Z.pow_add_r by lia.
          exists (Zpos m * 2 ^ (- ez - n) * Zpos ms). ring. }
        pose proof (Hnormal Hnorm) as HP23.
        rewrite Z.pow_add_r in HP23 by lia.
        apply (even_mantissa_of_rounding (xorb s ss) M n (ez + es) p ltac:(lia) Hdiv
                 (Heven Hmid)); [| lia | exact Hval].
        split; [| exact Hupper].
        destruct Hdiv as [j Hj]. subst M.
        destruct (Z_le_gt_dec (2 ^ 23) j) as [Hj | Hj]; [nia | exfalso].
        assert (j * 2 ^ n <= 2 ^ 23 * 2 ^ n - 2 ^ n) by nia. lia. }
  2:{ intros p' Hp'. destruct (Z_le_gt_dec n 0) as [Hn | Hn].
      - assert (H0 : (p - inject_Z (cond_Zopp s (Zpos m)) * sc == 0)%Q)
          by (rewrite Hval, Hq, (Hle Hn); ring).
        rewrite H0. apply Qabs_nonneg.
      - destruct (Hgt ltac:(lia)) as (Hhalf & Hdiv & _).
        apply (nearest_of_mantissas (xorb s ss) P M n (ez + es) p _ p'
                 ltac:(lia) Hdiv Hhalf); [| exact Hval | exact Hq | exact Hp'].
        intros Hnormal.
        assert (Hn' : n = Zpos (digits2_pos (mz * ms)) - 24)
          by (unfold n in *; rewrite fexp_single in *; lia).
        pose proof (digits2_pos_lower (mz * ms)) as Hlow. fold P in Hlow.
        replace (23 + n) with (Zpos (digits2_pos (mz * ms)) - 1) by lia. exact Hlow. }
  destruct (Z_le_gt_dec n 0) as [Hn | Hn].
  - rewrite (Hle Hn), Z.sub_diag. cbn [Z.abs]. unfold P. lia.
  - destruct (Hgt ltac:(lia)) as (Hhalf & _ & Hdiv & _).
    assert (Hpos : 0 < 2 ^ n) by (apply Z.pow_pos_nonneg; lia).
    destruct (Z_le_gt_dec (-149) (Zpos (digits2_pos (mz * ms)) + (ez + es) - 24))
      as [Hnormal | Hsub].
    + (* the result is a normal number *)
      assert (Hn' : n = Zpos (digits2_pos (mz * ms)) - 24)
        by (unfold n; rewrite fexp_single; lia).
      pose proof (digits2_pos_lower (mz * ms)) as Hlow. fold P in Hlow.
      assert (Hsplit : 2 ^ (Zpos (digits2_pos (mz * ms)) - 1) = 2 ^ 23 * 2 ^ n).
      { rewrite <- Z.pow_add_r by lia. f_equal. lia. }
      rewrite Hsplit in Hlow. lia.
    + (* the result is subnormal: the integer factor makes it exact *)
      assert (Hn' : n <= - ez) by (unfold n; rewrite fexp_single; lia).
      assert (Hd : (2 ^ n | P)).
      { unfold P. rewrite Pos2Z.inj_mul, Hmz.
        replace (- ez) with (n + (- ez - n)) by lia. rewrite Z.pow_add_r by lia.
        exists (Zpos m * 2 ^ (- ez - n) * Zpos ms). ring. }
      rewrite (Hdiv Hd), Z.sub_diag. cbn [Z.abs]. unfold P. lia.
Qed.

(** The exponent and the mantissa of a well-formed finite float. *)
Lemma valid_binary_exponent (s : bool) (m : positive) (e : Z) :
  valid_binary F32.prec F32.emax (S754_finite s m e) = true -> -149 <= e.
Proof.
  cbn [valid_binary]. unfold bounded, canonical_mantissa. intros H.
  apply andb_prop in H as [H _]. apply Z.eqb_eq in H. rewrite fexp_single in H. lia.
Qed.

(** The product the code computes for a coordinate is a rounding of the
    coordinate times the number the scale denotes. *)
Lemma scaled_rounded (t : framebuffer_t) (v : Z) (p : Q) :
  valid_binary F32.prec F32.emax (scale t) = true ->
  - 2 ^ 24 < v < 2 ^ 24 ->
  scaled t v = Some p ->
  exists sc : Q, F32.value (scale t) = Some sc /\ rounded (inject_Z v * sc) p.
Proof.
  intros Hvalid Hv. unfold scaled. revert Hvalid.
  destruct (scale t) as [ss | ss | | ss ms es]; intros Hvalid H.
  - (* the scale is zero *)
    exists (inject_Z 0). split; [reflexivity |].
    assert (Hp0 : p = inject_Z 0).
    { unfold F32.of_int, binary_normalize in H. revert H.
      destruct v as [| m | m].
      - cbn. now intros [= <-].
      - destruct (binary_round_small false m ltac:(lia)) as (mz & ez & -> & _).
        cbn. now intros [= <-].
      - destruct (binary_round_small true m ltac:(lia)) as (mz & ez & -> & _).
        cbn. now intros [= <-]. }
    subst p. apply rounded_exact; [apply representable_zero | ring].
  - exfalso. unfold F32.of_int, binary_normalize in H. revert H.
    destruct v as [| m | m].
    + discriminate.
    + destruct (binary_round_small false m ltac:(lia)) as (mz & ez & -> & _). discriminate.
    + destruct (binary_round_small true m ltac:(lia)) as (mz & ez & -> & _). discriminate.
  - exfalso. unfold F32.of_int, binary_normalize in H. revert H.
    destruct v as [| m | m].
    + discriminate.
    + destruct (binary_round_small false m ltac:(lia)) as (mz & ez & -> & _). discriminate.
    + destruct (binary_round_small true m ltac:(lia)) as (mz & ez & -> & _). discriminate.
  - destruct (value_finite ss ms es) as (sc & Hsc & Hsceq).
    exists sc. split; [exact Hsc |].
    pose proof (valid_binary_exponent ss ms es Hvalid) as Hes.
    unfold F32.of_int, binary_normalize in H. revert H.
    destruct v as [| m | m].
    + cbn. intros [= <-]. apply rounded_exact; [apply representable_zero | ring].
    + destruct (binary_round_small false m ltac:(lia)) as (mz & ez & -> & _ & Hez & Hmz).
      intros Hp. exact (mul_int_rounded false ss m mz ms ez es p sc Hez Hmz Hes Hp Hsceq).
    + destruct (binary_round_small true m ltac:(lia)) as (mz & ez & -> & _ & Hez & Hmz).
      intros Hp. exact (mul_int_rounded true ss m mz ms ez es p sc Hez Hmz Hes Hp Hsceq).
Qed.

(** Renormalising a rounded mantissa stays finite while the exponent is
    below the largest one. *)
Lemma renormalise_finite (sx : bool) (m' e' : Z) :
  0 <= m' <= 2 ^ 24 ->
  -149 <= e' <= 103 ->
  exists p : Q,
    F32.value
      (let '(mrs'', e'') := shr_fexp F32.prec F32.emax m' e' loc_Exact in
       match shr_m mrs'' with
       | Z0 => S754_zero sx
       | Zpos m => if e'' <=? F32.emax - F32.prec
                   then S754_finite sx m e'' else S754_infinity sx
       | Zneg _ => S754_nan
       end) = Some p.
Proof.
  intros Hm He. unfold shr_fexp.
  destruct m' as [| q |]; [| | lia].
  - cbn [Zdigits2 shr_record_of_loc]. rewrite shr_nonpositive by (rewrite fexp_single; lia).
    cbn [shr_m F32.value]. eexists. reflexivity.
  - cbn [Zdigits2 shr_record_of_loc].
    destruct (Z.eq_dec (Zpos q) (2 ^ 24)) as [Hq | Hq].
    + assert (q = 16777216%positive) as -> by lia.
      change (Zpos (digits2_pos 16777216)) with 25.
      replace (fexp F32.prec F32.emax (25 + e') - e') with 1
        by (rewrite fexp_single; lia).
      cbn [shr SpecFloat.iter_pos shr_1 shr_m].
      destruct (Z.leb_spec (e' + 1) (F32.emax - F32.prec)) as [_ | Hlt];
        [| unfold F32.emax, F32.prec in Hlt; lia].
      destruct (value_finite sx 8388608 (e' + 1)) as (p' & Hp' & _). now exists p'.
    + assert (Hd : Zpos (digits2_pos q) <= 24) by (apply digits2_pos_small; lia).
      rewrite shr_nonpositive by (rewrite fexp_single; lia). cbn [shr_m].
      destruct (Z.leb_spec e' (F32.emax - F32.prec)) as [_ | Hlt];
        [| unfold F32.emax, F32.prec in Hlt; lia].
      destruct (value_finite sx q e') as (p' & Hp' & _). now exists p'.
Qed.

(** [binary_round_aux] does not overflow on a mantissa and an exponent
    far below the largest number. *)
Lemma binary_round_aux_finite (sx : bool) (P : positive) (E : Z) :
  Zpos (digits2_pos P) + E <= 100 ->
  exists p : Q,
    F32.value (binary_round_aux F32.prec F32.emax sx (Zpos P) E loc_Exact) = Some p.
Proof.
  intros Hsmall. unfold binary_round_aux.
  set (n := fexp F32.prec F32.emax (Zpos (digits2_pos P) + E) - E).
  destruct (Z_le_gt_dec n 0) as [Hn | Hn].
  - unfold shr_fexp at 1. cbn [Zdigits2 shr_record_of_loc]. fold n.
    rewrite shr_nonpositive by exact Hn.
    cbn [shr_m loc_of_shr_record round_nearest_even].
    unfold shr_fexp. cbn [Zdigits2 shr_record_of_loc]. fold n.
    rewrite shr_nonpositive by exact Hn. cbn [shr_m].
    destruct (Z.leb_spec E (F32.emax - F32.prec)) as [_ | Hlt];
      [| unfold F32.emax, F32.prec in Hlt; lia].
    destruct (value_finite sx P E) as (p' & Hp' & _). now exists p'.
  - unfold shr_fexp at 1. cbn [Zdigits2 shr_record_of_loc]. fold n.
    destruct n as [| np |] eqn:Hnp; [lia | | lia]. cbn [shr].
    pose proof (iter_pos_shifted (Zpos P) np 0 _ ltac:(lia)
                  (shifted_start (Zpos P) ltac:(lia))) as Hsh.
    rewrite Z.add_0_l in Hsh.
    destruct (round_nearest_even_shifted (Zpos P) (Zpos np) _ ltac:(lia) Hsh)
      as (Hm' & _).
    set (mrs := SpecFloat.iter_pos shr_1 np _) in *.
    set (m' := round_nearest_even (shr_m mrs) (loc_of_shr_record mrs)) in *.
    destruct Hsh as (Hm0 & low & Hlow & Heq & _).
    assert (Hpos : 0 < 2 ^ Zpos np) by (apply Z.pow_pos_nonneg; lia).
    assert (He' : E + Zpos np = fexp F32.prec F32.emax (Zpos (digits2_pos P) + E)) by lia.
    assert (Hbound : shr_m mrs < 2 ^ 24).
    { destruct (Z_lt_ge_dec (shr_m mrs) (2 ^ 24)) as [? | Hge]; [assumption | exfalso].
      pose proof (digits2_pos_upper P) as Hup.
      assert (Hle : 2 ^ Zpos (digits2_pos P) <= 2 ^ (24 + Zpos np)).
      { apply Z.pow_le_mono_r; [lia |]. rewrite fexp_single in He'. lia. }
      rewrite Z.pow_add_r in Hle by lia.
      assert (2 ^ 24 * 2 ^ Zpos np <= shr_m mrs * 2 ^ Zpos np) by nia.
      destruct (shr_r mrs); cbn [Z.b2z] in Heq; nia. }
    apply (renormalise_finite sx m' (E + Zpos np)); [lia |].
    rewrite He', fexp_single. lia.
Qed.

(** The product of an integer below 2^24 and a scale of exponent at most
    7 is finite. *)
Lemma mul_int_finite (s ss : bool) (mz ms : positive) (ez es : Z) :
  digits2_pos mz = 24%positive ->
  ez <= 0 ->
  Zpos (digits2_pos ms) <= 24 ->
  es <= 7 ->
  exists p : Q,
    F32.value (F32.mul (S754_finite s mz ez) (S754_finite ss ms es)) = Some p.
Proof.
  intros Hmz Hez Hms Hes. unfold F32.mul, SFmul.
  apply binary_round_aux_finite.
  pose proof (digits2_pos_lower (mz * ms)) as Hlow.
  pose proof (digits2_pos_upper mz) as Hz. pose proof (digits2_pos_upper ms) as Hs.
  rewrite Hmz in Hz.
  assert (Hs' : Zpos ms < 2 ^ 24).
  { eapply Z.lt_le_trans; [exact Hs |]. apply Z.pow_le_mono_r; lia. }
  assert (Hprod : Zpos (mz * ms) < 2 ^ 48).
  { rewrite Pos2Z.inj_mul. change (2 ^ 48) with (2 ^ 24 * 2 ^ 24). nia. }
  assert (Hd : Zpos (digits2_pos (mz * ms)) - 1 < 48).
  { apply (Z.pow_lt_mono_r_iff 2); lia. }
  lia.
Qed.

Lemma valid_binary_digits (s : bool) (m : positive) (e : Z) :
  valid_binary F32.prec F32.emax (S754_finite s m e) = true ->
  Zpos (digits2_pos m) <= 24.
Proof.
  cbn [valid_binary]. unfold bounded, canonical_mantissa. intros H.
  apply andb_prop in H as [H H']. apply Z.eqb_eq in H. apply Z.leb_le in H'.
  rewrite fexp_single in H. unfold F32.emax, F32.prec in H'. lia.
Qed.

(** A finite scale of magnitude at most 128 has an exponent of at most
    7. *)
Lemma scale_exponent (ss : bool) (ms : positive) (es : Z) (sc : Q) :
  F32.value (S754_finite ss ms es) = Some sc ->
  (Qabs sc <= inject_Z 128)%Q ->
  es <= 7.
Proof.
  intros Hsc Hle. destruct (value_finite ss ms es) as (sc' & Hsc' & Heq).
  rewrite Hsc in Hsc'. injection Hsc' as <-.
  destruct (Z_le_gt_dec es 7) as [? | Hgt]; [assumption | exfalso].
  unfold F32.signed in Heq.
  rewrite Heq, Qabs_signed in Hle by apply pow2_positive.
  assert (H8 : ((2 # 1) ^ 8 <= (2 # 1) ^ es)%Q)
    by (apply Qpower_le_compat_l; [lia | discriminate]).
  assert (H1 : (1 * (2 # 1) ^ es <= inject_Z (Z.abs (Zpos ms)) * (2 # 1) ^ es)%Q).
  { apply Qmult_le_compat_r; [| apply Qlt_le_weak, pow2_positive].
    change 1%Q with (inject_Z 1). rewrite <- Zle_Qle. lia. }
  change ((2 # 1) ^ 8)%Q with (256 # 1)%Q in H8.
  change (inject_Z 128) with (128 # 1)%Q in Hle.
  revert H8 H1 Hle. generalize ((2 # 1) ^ es)%Q (inject_Z (Z.abs (Zpos ms))).
  intros a b H8 H1 Hle. lra.
Qed.

(** The code's product of a coordinate below 2^24 and a finite scale of
    magnitude at most 128 is finite. *)
Lemma scaled_defined (t : framebuffer_t) (v : Z) (sc : Q) :
  valid_binary F32.prec F32.emax (scale t) = true ->
  F32.value (scale t) = Some sc ->
  (Qabs sc <= inject_Z 128)%Q ->
  - 2 ^ 24 < v < 2 ^ 24 ->
  exists p : Q, scaled t v = Some p.
Proof.
  intros Hvalid Hsc Hle Hv. unfold scaled. revert Hvalid Hsc.
  destruct (scale t) as [ss | ss | | ss ms es]; intros Hvalid Hsc; try discriminate.
  - unfold F32.of_int, binary_normalize. destruct v as [| m | m].
    + eexists. reflexivity.
    + destruct (binary_round_small false m ltac:(lia)) as (mz & ez & -> & _).
      eexists. reflexivity.
    + destruct (binary_round_small true m ltac:(lia)) as (mz & ez & -> & _).
      eexists. reflexivity.
  - pose proof (valid_binary_digits ss ms es Hvalid) as Hms.
    pose proof (scale_exponent ss ms es sc Hsc Hle) as Hes.
    unfold F32.of_int, binary_normalize. destruct v as [| m | m].
    + eexists. reflexivity.
    + destruct (binary_round_small false m ltac:(lia)) as (mz & ez & -> & Hmz & Hez & _).
      apply mul_int_finite; [exact Hmz | lia | exact Hms | exact Hes].
    + destruct (binary_round_small true m ltac:(lia)) as (mz & ez & -> & Hmz & Hez & _).
      apply mul_int_finite; [exact Hmz | lia | exact Hms | exact Hes].
Qed.

(** A single-precision number below 2^31 is at most 2^31 - 1. *)
Lemma representable_below_int_max (p : Q) :
  representable p -> (p < inject_Z (2 ^ 31))%Q -> (p <= inject_Z (2 ^ 31 - 1))%Q.
Proof.
  intros (m & e & Hm & He & Hp) Hlt.
  destruct (Z_le_gt_dec 0 e) as [Hpos | Hneg].
  - assert (Hint : (p == inject_Z (m * 2 ^ e))%Q).
    { rewrite Hp, inject_Z_mult, (Zpower_Qpower 2 e) by lia. reflexivity. }
    rewrite Hint in *. rewrite <- Zlt_Qlt in Hlt. rewrite <- Zle_Qle. lia.
  - assert (Hc : ((2 # 1) ^ e <= 1)%Q).
    { change 1%Q with ((2 # 1) ^ 0)%Q. apply Qpower_le_compat_l; [lia | discriminate]. }
    pose proof (pow2_positive e) as Hc0.
    assert (H1 : (inject_Z m * (2 # 1) ^ e <= inject_Z (Z.abs m) * (2 # 1) ^ e)%Q).
    { apply Qmult_le_compat_r; [| now apply Qlt_le_weak]. rewrite <- Zle_Qle. lia. }
    assert (H2 : (inject_Z (Z.abs m) * (2 # 1) ^ e <= inject_Z (2 ^ 24) * 1)%Q).
    { apply Qmult_le_compat_nonneg.
      - split; [change 0%Q with (inject_Z 0) |]; rewrite <- Zle_Qle; lia.
      - split; [now apply Qlt_le_weak | exact Hc]. }
    rewrite Hp. change (inject_Z (2 ^ 24) * 1)%Q with (16777216 # 1)%Q in H2.
    change (inject_Z (2 ^ 31 - 1)) with (2147483647 # 1)%Q.
    revert H1 H2. generalize (inject_Z m * (2 # 1) ^ e)%Q (inject_Z (Z.abs m) * (2 # 1) ^ e)%Q.
    intros a b H1 H2. lra.
Qed.

(** A rounding of a product of a coordinate below 2^24 and a scale of at
    most 128 in magnitude lies inside the range of [int]. *)
Lemma rounded_in_int_range (v : Z) (sc p : Q) :
  - 2 ^ 24 < v < 2 ^ 24 ->
  (Qabs sc <= inject_Z 128)%Q ->
  rounded (inject_Z v * sc) p ->
  F32.INT_MIN <= Qfloor p /\ Qceiling p <= F32.INT_MAX.
Proof.
  intros Hv Hsc (Hrp & _ & _ & Hnear & _).
  assert (Hq : (Qabs (inject_Z v * sc) <= 2147483520 # 1)%Q).
  { rewrite Qabs_Qmult.
    change (2147483520 # 1)%Q with (inject_Z (2 ^ 24 - 1) * inject_Z 128)%Q.
    apply Qmult_le_compat_nonneg; (split; [apply Qabs_nonneg |]); [| exact Hsc].
    apply Qabs_Qle_condition. rewrite <- inject_Z_opp, <- !Zle_Qle. lia. }
  pose proof (Qle_Qabs (p - inject_Z v * sc)) as H1.
  pose proof (Qle_Qabs (- (p - inject_Z v * sc))) as H2. rewrite Qabs_opp in H2.
  pose proof (Qle_Qabs (inject_Z v * sc)) as H3.
  pose proof (Qle_Qabs (- (inject_Z v * sc))) as H4. rewrite Qabs_opp in H4.
  change (inject_Z (2 ^ 24)) with (16777216 # 1)%Q in Hnear.
  revert Hnear H1 H2 Hq H3 H4.
  generalize (Qabs (p - inject_Z v * sc)). generalize (Qabs (inject_Z v * sc)).
  generalize (inject_Z v * sc)%Q.
  intros q a d Hnear H1 H2 Hq H3 H4.
  assert (Hlo : (inject_Z (- 2 ^ 31) <= p)%Q).
  { change (inject_Z (- 2 ^ 31)) with (- (2147483648 # 1))%Q. lra. }
  assert (Hhi : (p <= inject_Z (2 ^ 31 - 1))%Q).
  { apply representable_below_int_max; [exact Hrp |].
    change (inject_Z (2 ^ 31)) with (2147483648 # 1)%Q. lra. }
  split.
  - rewrite <- (Qfloor_Z F32.INT_MIN). now apply Qfloor_resp_le.
  - rewrite <- (Qceiling_Z F32.INT_MAX). now apply Qceiling_resp_le.
Qed.

Lemma to_int_checked_in_range (z : Z) :
  F32.INT_MIN <= z <= F32.INT_MAX -> F32.to_int_checked z = Some z.
Proof.
  intros [H1 H2]. unfold F32.to_int_checked.
  destruct (Z.leb_spec F32.INT_MIN z); [| lia].
  destruct (Z.leb_spec z F32.INT_MAX); [reflexivity | lia].
Qed.

(** The conversion is defined on boxes with fields below 2^24 in
    magnitude when the scale is finite and at most 128 in magnitude. *)
Lemma damage_box_defined {O : Type} (t : framebuffer_t) (box : wlr_box) (s : O * world)
    (sc : Q) :
  valid_binary F32.prec F32.emax (scale t) = true ->
  F32.value (scale t) = Some sc ->
  (Qabs sc <= inject_Z 128)%Q ->
  - 2 ^ 24 < x box < 2 ^ 24 ->
  - 2 ^ 24 < y box < 2 ^ 24 ->
  - 2 ^ 24 < width box < 2 ^ 24 ->
  - 2 ^ 24 < height box < 2 ^ 24 ->
  exists r : wlr_box, damage_box_from_geometry_box t box s = (Returns r, s).
Proof.
  intros Hvalid Hsc Hle Hx Hy Hw Hh.
  assert (Hfield : forall v : Z, - 2 ^ 24 < v < 2 ^ 24 ->
            exists p : Q, scaled t v = Some p
              /\ F32.INT_MIN <= Qfloor p <= F32.INT_MAX
              /\ F32.INT_MIN <= Qceiling p <= F32.INT_MAX).
  { intros v Hv. destruct (scaled_defined t v sc Hvalid Hsc Hle Hv) as [p Hp].
    exists p. split; [exact Hp |].
    destruct (scaled_rounded t v p Hvalid Hv Hp) as (sc' & Hsc' & Hr).
    assert (sc' = sc) as -> by congruence.
    destruct (rounded_in_int_range v sc p Hv Hle Hr) as [Hlo Hhi].
    pose proof (Qfloor_le p) as F. pose proof (Qle_ceiling p) as C.
    assert (Hfc : Qfloor p <= Qceiling p).
    { rewrite Zle_Qle. now apply (Qle_trans _ p). }
    lia. }
  destruct (Hfield _ Hx) as (px & Px & Fx & _).
  destruct (Hfield _ Hy) as (py & Py & Fy & _).
  destruct (Hfield _ Hw) as (pw & Pw & _ & Cw).
  destruct (Hfield _ Hh) as (ph & Ph & _ & Ch).
  rewrite damage_box_from_geometry_box_refines. unfold damage_box_floor_ceil.
  rewrite Px, Py, Pw, Ph. cbn [fmap option_fmap option_map as_int].
  rewrite !to_int_checked_in_range by assumption.
  eexists. reflexivity.
Qed.

(** ** Scaling into damage space: rounding and coverage *)

Lemma rounded_slack (q p : Q) : rounded q p -> rounding_slack q (Qabs (p - q)).
Proof.
  intros (_ & _ & _ & Hnear & Hexact). split; [apply Qabs_nonneg |]. split; [exact Hnear |].
  intros Hr. assert (H0 : (p - q == 0)%Q) by (rewrite (Hexact Hr); ring).
  now rewrite H0.
Qed.

(** What the conversion computes for one field, when it is defined. *)
Lemma damage_box_fields {O : Type} (t : framebuffer_t) (box r : wlr_box) (s s' : O * world) :
  valid_binary F32.prec F32.emax (scale t) = true ->
  - 2 ^ 24 < x box < 2 ^ 24 ->
  - 2 ^ 24 < y box < 2 ^ 24 ->
  - 2 ^ 24 < width box < 2 ^ 24 ->
  - 2 ^ 24 < height box < 2 ^ 24 ->
  damage_box_from_geometry_box t box s = (Returns r, s') ->
  exists sc px py pw ph : Q,
    F32.value (scale t) = Some sc
    /\ rounded (inject_Z (x box) * sc) px
    /\ rounded (inject_Z (y box) * sc) py
    /\ rounded (inject_Z (width box) * sc) pw
    /\ rounded (inject_Z (height box) * sc) ph
    /\ x r = Qfloor px /\ y r = Qfloor py
    /\ width r = Qceiling pw /\ height r = Qceiling ph
    /\ s' = s.
Proof.
  intros Hvalid Hx Hy Hw Hh Hrun.
  rewrite damage_box_from_geometry_box_refines in Hrun.
  unfold damage_box_floor_ceil in Hrun.
  destruct (as_int (Qfloor <$> scaled t (x box))) as [x' |] eqn:Ex; [| discriminate].
  destruct (as_int (Qfloor <$> scaled t (y box))) as [y' |] eqn:Ey; [| discriminate].
  destruct (as_int (Qceiling <$> scaled t (width box))) as [w' |] eqn:Ew; [| discriminate].
  destruct (as_int (Qceiling <$> scaled t (height box))) as [h' |] eqn:Eh; [| discriminate].
  injection Hrun as <- <-.
  apply as_int_some in Ex as [Ex _]. apply as_int_some in Ey as [Ey _].
  apply as_int_some in Ew as [Ew _]. apply as_int_some in Eh as [Eh _].
  destruct (scaled t (x box)) as [px |] eqn:Px; [| discriminate].
  destruct (scaled t (y box)) as [py |] eqn:Py; [| discriminate].
  destruct (scaled t (width box)) as [pw |] eqn:Pw; [| discriminate].
  destruct (scaled t (height box)) as [ph |] eqn:Ph; [| discriminate].
  injection Ex as <-. injection Ey as <-. injection Ew as <-. injection Eh as <-.
  destruct (scaled_rounded t _ _ Hvalid Hx Px) as (sc & Hsc & Rx).
  destruct (scaled_rounded t _ _ Hvalid Hy Py) as (sc2 & Hsc2 & Ry).
  destruct (scaled_rounded t _ _ Hvalid Hw Pw) as (sc3 & Hsc3 & Rw).
  destruct (scaled_rounded t _ _ Hvalid Hh Ph) as (sc4 & Hsc4 & Rh).
  assert (sc2 = sc) as -> by congruence.
  assert (sc3 = sc) as -> by congruence.
  assert (sc4 = sc) as -> by congruence.
  exists sc, px, py, pw, ph. cbn [x y width height].
  repeat (split; [first [assumption | reflexivity] |]). reflexivity.
Qed.

(** The scale factors of the examples are single-precision numbers, and
    1.3f and 1.1f lie within half a unit in the last place (2^-24) of 1.3
    and 1.1. *)
Lemma example_scales :
  valid_binary F32.prec F32.emax scale_one_and_half = true
  /\ valid_binary F32.prec F32.emax scale_one_point_three = true
  /\ valid_binary F32.prec F32.emax scale_one_point_one = true
  /\ valid_binary F32.prec F32.emax scale_above_five_quarters = true
  /\ valid_binary F32.prec F32.emax scale_above_128 = true
  /\ exists s13 s11 : Q,
      F32.value scale_one_point_three = Some s13
      /\ F32.value scale_one_point_one = Some s11
      /\ (Qabs (s13 - (13 # 10)) < 1 # 16777216)%Q
      /\ (Qabs (s11 - (11 # 10)) < 1 # 16777216)%Q.
Proof.
  repeat (split; [reflexivity |]). do 2 eexists.
  split; [reflexivity |]. split; [reflexivity |]. split; reflexivity.
Qed.

(** 16777219 times 1.25 + 2^-23 is 20971525.75 and a little; no rounding
    of it to single precision reaches 20971527.5. *)
Lemma rounded_large_product (p : Q) :
  (Qabs (p - inject_Z 16777219 * (10485761 # 8388608)) * inject_Z (2 ^ 24)
   <= Qabs (inject_Z 16777219 * (10485761 # 8388608)))%Q ->
  (p < 41943055 # 2)%Q.
Proof.
  intros Hnear.
  pose proof (Qle_Qabs (p - inject_Z 16777219 * (10485761 # 8388608))) as H1.
  assert (Hq : (inject_Z 16777219 * (10485761 # 8388608) == 175921908678659 # 8388608)%Q)
    by reflexivity.
  rewrite (Qabs_pos (inject_Z 16777219 * (10485761 # 8388608))) in Hnear
    by (rewrite Hq; discriminate).
  change (inject_Z (2 ^ 24)) with (16777216 # 1)%Q in Hnear.
  revert Hnear H1. generalize (Qabs (p - inject_Z 16777219 * (10485761 # 8388608))).
  intros d Hnear H1. rewrite Hq in Hnear, H1. lra.
Qed.

(** C7, as amended. On a box with fields below 2^24 in magnitude and a
    scale that is a single-precision number [sc] (as every [float] is),
    whenever [damage_box_from_geometry_box] is defined it maps the origin
    coordinates by the floor, and the extents by the ceiling, of the
    product coordinate by scale rounded to single precision, to nearest
    with ties to even: a single-precision number that none is nearer to
    the exact product than, of even mantissa when another is as near, no
    further from the exact product than 2^-24 of its magnitude, and the
    exact product itself when that is a single-precision number. It is
    defined on every such box when the scale is at most 128 in magnitude.
    At scale 1.5 the box (0,0,3,3) becomes (0,0,5,5), and the box
    (1,1,3,3) gets the origin (1,1). *)
Theorem damage_box_floor_origin_ceil_extent :
  (forall (O : Type) (t : framebuffer_t) (box r : wlr_box) (s s' : O * world),
      valid_binary F32.prec F32.emax (scale t) = true ->
      - 2 ^ 24 < x box < 2 ^ 24 ->
      - 2 ^ 24 < y box < 2 ^ 24 ->
      - 2 ^ 24 < width box < 2 ^ 24 ->
      - 2 ^ 24 < height box < 2 ^ 24 ->
      damage_box_from_geometry_box t box s = (Returns r, s') ->
      exists sc px py pw ph : Q,
        F32.value (scale t) = Some sc
        /\ rounded (inject_Z (x box) * sc) px
        /\ rounded (inject_Z (y box) * sc) py
        /\ rounded (inject_Z (width box) * sc) pw
        /\ rounded (inject_Z (height box) * sc) ph
        /\ x r = Qfloor px /\ y r = Qfloor py
        /\ width r = Qceiling pw /\ height r = Qceiling ph
        /\ s' = s)
  /\ (forall (O : Type) (t : framebuffer_t) (box : wlr_box) (s : O * world) (sc : Q),
        valid_binary F32.prec F32.emax (scale t) = true ->
        F32.value (scale t) = Some sc ->
        (Qabs sc <= inject_Z 128)%Q ->
        - 2 ^ 24 < x box < 2 ^ 24 ->
        - 2 ^ 24 < y box < 2 ^ 24 ->
        - 2 ^ 24 < width box < 2 ^ 24 ->
        - 2 ^ 24 < height box < 2 ^ 24 ->
        exists r : wlr_box, damage_box_from_geometry_box t box s = (Returns r, s))
  /\ (exists s15 : Q, F32.value scale_one_and_half = Some s15 /\ (s15 == 3 # 2)%Q)
  /\ damage_box_from_geometry_box framebuffer_scaled (mk_box 0 0 3 3) (tt, world_initial)
     = (Returns (mk_box 0 0 5 5), (tt, world_initial))
  /\ exists width' height' : Z,
      damage_box_from_geometry_box framebuffer_scaled (mk_box 1 1 3 3) (tt, world_initial)
      = (Returns (mk_box 1 1 width' height'), (tt, world_initial)).
Proof.
  split; [intros O t box r s s'; apply damage_box_fields |].
  split; [intros O t box s sc; apply damage_box_defined |].
  split; [eexists; split; reflexivity |].
  split; [reflexivity |].
  do 2 eexists. reflexivity.
Qed.

Lemma damage_box_floor_origin_ceil_extent_witness :
  (exists sc px py pw ph : Q,
      F32.value scale_one_and_half = Some sc
      /\ rounded (inject_Z 1 * sc) px /\ rounded (inject_Z 1 * sc) py
      /\ rounded (inject_Z 3 * sc) pw /\ rounded (inject_Z 3 * sc) ph
      /\ 1 = Qfloor px /\ 1 = Qfloor py /\ 5 = Qceiling pw /\ 5 = Qceiling ph)
  /\ exists r : wlr_box,
      damage_box_from_geometry_box framebuffer_scaled (mk_box 1 1 3 3) (tt, world_initial)
      = (Returns r, (tt, world_initial)).
Proof.
  split.
  - destruct (proj1 damage_box_floor_origin_ceil_extent unit framebuffer_scaled
                (mk_box 1 1 3 3) (mk_box 1 1 5 5) (tt, world_initial) (tt, world_initial)
                eq_refl ltac:(cbn; lia) ltac:(cbn; lia) ltac:(cbn; lia) ltac:(cbn; lia)
                eq_refl)
      as (sc & px & py & pw & ph & Hsc & Rx & Ry & Rw & Rh & Hx & Hy & Hw & Hh & _).
    exists sc, px, py, pw, ph.
    repeat (split; [assumption |]). assumption.
  - refine (proj1 (proj2 damage_box_floor_origin_ceil_extent) unit framebuffer_scaled
              (mk_box 1 1 3 3) (tt, world_initial) _ eq_refl eq_refl _ _ _ _ _);
      [unfold Qle; cbn; lia | cbn; lia ..].
Defined.

(** C7 as stated fails. The product is rounded to single precision before
    the floor or the ceiling is taken: 10 at scale 1.3f (the number
    1.2999999523...) gives the origin 13, and the floor of the product is
    12; 100 at scale 1.1f (1.1000000238...) gives the extent 110, and the
    ceiling of the product is 111. A coordinate that single precision
    does not hold is rounded before it is multiplied: 16777219 at scale
    1.25 + 2^-23 gives the origin 20971528, which is not the floor of any
    rounding of the product 20971525.75... And the
    conversion is undefined where the result does not fit an [int], as
    for the extent 16777215 at scale 128 + 2^-16. *)
Lemma damage_box_rounds_before_floor :
  exists s13 s11 s54 : Q,
    F32.value scale_one_point_three = Some s13
    /\ F32.value scale_one_point_one = Some s11
    /\ F32.value scale_above_five_quarters = Some s54
    /\ damage_box_from_geometry_box (framebuffer_of_scale scale_one_point_three)
         (mk_box 10 10 10 10) (tt, world_initial)
       = (Returns (mk_box 13 13 13 13), (tt, world_initial))
    /\ Qfloor (inject_Z 10 * s13) = 12
    /\ damage_box_from_geometry_box (framebuffer_of_scale scale_one_point_one)
         (mk_box 100 100 100 100) (tt, world_initial)
       = (Returns (mk_box 110 110 110 110), (tt, world_initial))
    /\ Qceiling (inject_Z 100 * s11) = 111
    /\ damage_box_from_geometry_box (framebuffer_of_scale scale_above_five_quarters)
         (mk_box 16777219 0 16777219 1) (tt, world_initial)
       = (Returns (mk_box 20971528 0 20971528 2), (tt, world_initial))
    /\ (forall p : Q, rounded (inject_Z 16777219 * s54) p -> Qfloor p <> 20971528)
    /\ damage_box_from_geometry_box (framebuffer_of_scale scale_above_128)
         (mk_box 0 0 16777215 1) (tt, world_initial)
       = (Undefined, (tt, world_initial)).
Proof.
  do 3 eexists.
  split; [reflexivity |]. split; [reflexivity |]. split; [reflexivity |].
  split; [reflexivity |]. split; [reflexivity |]. split; [reflexivity |].
  split; [reflexivity |]. split; [reflexivity |].
  split; [| reflexivity].
  intros p (_ & _ & _ & Hnear & _). apply rounded_large_product in Hnear.
  pose proof (Qfloor_le p) as F. intros H. rewrite H in F.
  change (inject_Z 20971528) with (20971528 # 1)%Q in F. lra.
Qed.

(** C3, as amended. On a box with fields below 2^24 in magnitude and a
    scale that is a single-precision number [sc] (as every [float] is),
    whenever [damage_box_from_geometry_box] is defined the damage box
    covers the exactly scaled rectangle up to the rounding of the
    products and up to one pixel at the far edge: the origin does not
    exceed [x*sc] by more than the slack of that product, the extent does
    not fall short of [w*sc] by more than its slack, and the far edge
    [x' + w'] exceeds [(x+w)*sc - 1] less the two slacks (likewise in
    [y]). The slack of a product is at most 2^-24 of its magnitude, and is
    zero when the product is a single-precision number. The conversion is
    defined on every such box when the scale is at most 128 in
    magnitude. *)
Theorem damage_box_rounding_bounds :
  (forall (O : Type) (t : framebuffer_t) (box r : wlr_box) (s s' : O * world),
      valid_binary F32.prec F32.emax (scale t) = true ->
      - 2 ^ 24 < x box < 2 ^ 24 ->
      - 2 ^ 24 < y box < 2 ^ 24 ->
      - 2 ^ 24 < width box < 2 ^ 24 ->
      - 2 ^ 24 < height box < 2 ^ 24 ->
      damage_box_from_geometry_box t box s = (Returns r, s') ->
      exists sc ex ey ew eh : Q,
        F32.value (scale t) = Some sc
        /\ rounding_slack (inject_Z (x box) * sc) ex
        /\ rounding_slack (inject_Z (y box) * sc) ey
        /\ rounding_slack (inject_Z (width box) * sc) ew
        /\ rounding_slack (inject_Z (height box) * sc) eh
        /\ (inject_Z (x r) <= inject_Z (x box) * sc + ex)%Q
        /\ (inject_Z (y r) <= inject_Z (y box) * sc + ey)%Q
        /\ (inject_Z (width box) * sc - ew <= inject_Z (width r))%Q
        /\ (inject_Z (height box) * sc - eh <= inject_Z (height r))%Q
        /\ (inject_Z (x box + width box) * sc - 1 - ex - ew < inject_Z (x r + width r))%Q
        /\ (inject_Z (y box + height box) * sc - 1 - ey - eh < inject_Z (y r + height r))%Q)
  /\ (forall (O : Type) (t : framebuffer_t) (box : wlr_box) (s : O * world) (sc : Q),
        valid_binary F32.prec F32.emax (scale t) = true ->
        F32.value (scale t) = Some sc ->
        (Qabs sc <= inject_Z 128)%Q ->
        - 2 ^ 24 < x box < 2 ^ 24 ->
        - 2 ^ 24 < y box < 2 ^ 24 ->
        - 2 ^ 24 < width box < 2 ^ 24 ->
        - 2 ^ 24 < height box < 2 ^ 24 ->
        exists r : wlr_box, damage_box_from_geometry_box t box s = (Returns r, s)).
Proof.
  split; [| intros O t box s sc; apply damage_box_defined].
  intros O t box r s s' Hvalid Hx Hy Hw Hh Hrun.
  destruct (damage_box_fields t box r s s' Hvalid Hx Hy Hw Hh Hrun)
    as (sc & px & py & pw & ph & Hsc & Rx & Ry & Rw & Rh & Ex & Ey & Ew & Eh & _).
  exists sc, (Qabs (px - inject_Z (x box) * sc)), (Qabs (py - inject_Z (y box) * sc)),
    (Qabs (pw - inject_Z (width box) * sc)), (Qabs (ph - inject_Z (height box) * sc)).
  split; [exact Hsc |].
  split; [now apply rounded_slack |]. split; [now apply rounded_slack |].
  split; [now apply rounded_slack |]. split; [now apply rounded_slack |].
  pose proof (Qfloor_le px) as Fx. pose proof (Qfloor_le py) as Fy.
  pose proof (Qlt_floor px) as Fx'. pose proof (Qlt_floor py) as Fy'.
  pose proof (Qle_ceiling pw) as Cw. pose proof (Qle_ceiling ph) as Ch.
  rewrite <- Ex in Fx, Fx'. rewrite <- Ey in Fy, Fy'.
  rewrite <- Ew in Cw. rewrite <- Eh in Ch.
  pose proof (Qle_Qabs (px - inject_Z (x box) * sc)) as Ax.
  pose proof (Qle_Qabs (py - inject_Z (y box) * sc)) as Ay.
  pose proof (Qle_Qabs (- (pw - inject_Z (width box) * sc))) as Aw.
  pose proof (Qle_Qabs (- (ph - inject_Z (height box) * sc))) as Ah.
  pose proof (Qle_Qabs (- (px - inject_Z (x box) * sc))) as Ax'.
  pose proof (Qle_Qabs (- (py - inject_Z (y box) * sc))) as Ay'.
  rewrite Qabs_opp in Aw, Ah, Ax', Ay'.
  rewrite !inject_Z_plus in *. change (inject_Z 1) with 1%Q in *.
  repeat split; lra.
Qed.

Lemma damage_box_rounding_bounds_witness :
  (exists sc ex ew : Q,
      F32.value scale_one_and_half = Some sc
      /\ rounding_slack (inject_Z 1 * sc) ex
      /\ rounding_slack (inject_Z 2 * sc) ew
      /\ (inject_Z 1 <= inject_Z 1 * sc + ex)%Q
      /\ (inject_Z 2 * sc - ew <= inject_Z 3)%Q
      /\ (inject_Z (1 + 2) * sc - 1 - ex - ew < inject_Z (1 + 3))%Q)
  /\ exists r : wlr_box,
      damage_box_from_geometry_box framebuffer_scaled (mk_box 1 1 2 2) (tt, world_initial)
      = (Returns r, (tt, world_initial)).
Proof.
  split.
  - destruct (proj1 damage_box_rounding_bounds unit framebuffer_scaled (mk_box 1 1 2 2)
                (mk_box 1 1 3 3) (tt, world_initial) (tt, world_initial)
                eq_refl ltac:(cbn; lia) ltac:(cbn; lia) ltac:(cbn; lia) ltac:(cbn; lia)
                eq_refl)
      as (sc & ex & ey & ew & eh & Hsc & Sx & _ & Sw & _ & Hx & _ & Hw & _ & Hfar & _).
    exists sc, ex, ew. repeat (split; [assumption |]). assumption.
  - refine (proj2 damage_box_rounding_bounds unit framebuffer_scaled
              (mk_box 1 1 2 2) (tt, world_initial) _ eq_refl eq_refl _ _ _ _ _);
      [unfold Qle; cbn; lia | cbn; lia ..].
Defined.

(** C3 as stated fails. At scale 1.5 the box (1,1,2,2) becomes (1,1,3,3),
    whose far edge 4 lies before the scaled far edge 4.5. At scale 1.3f
    (the number 1.2999999523...) the box (10,10,10,10) becomes
    (13,13,13,13): the product is rounded to 13 in single precision, so
    the origin 13 lies behind the scaled origin 12.9999995...; at scale
    1.1f (1.1000000238...) the extent 100 becomes 110 and falls short of
    the scaled extent 110.0000023... A coordinate that single precision
    does not hold is rounded before it is multiplied: 16777219 at scale
    1.25 + 2^-23 gives the origin 20971528, behind the scaled origin
    20971525.75... by more than the slack of one rounding. And the
    conversion is undefined where the result does not fit an [int], as
    for the extent 16777215 at scale 128 + 2^-16. *)
Lemma damage_box_under_covers :
  exists s15 s13 s11 s54 : Q,
    F32.value scale_one_and_half = Some s15
    /\ F32.value scale_one_point_three = Some s13
    /\ F32.value scale_one_point_one = Some s11
    /\ F32.value scale_above_five_quarters = Some s54
    /\ (0 < s15)%Q /\ (0 < s13)%Q /\ (0 < s11)%Q /\ (0 < s54)%Q
    /\ damage_box_from_geometry_box framebuffer_scaled (mk_box 1 1 2 2) (tt, world_initial)
       = (Returns (mk_box 1 1 3 3), (tt, world_initial))
    /\ ~ covers_scaled s15 (mk_box 1 1 2 2) (mk_box 1 1 3 3)
    /\ damage_box_from_geometry_box (framebuffer_of_scale scale_one_point_three)
         (mk_box 10 10 10 10) (tt, world_initial)
       = (Returns (mk_box 13 13 13 13), (tt, world_initial))
    /\ ~ (inject_Z 13 <= inject_Z 10 * s13)%Q
    /\ ~ covers_scaled s13 (mk_box 10 10 10 10) (mk_box 13 13 13 13)
    /\ damage_box_from_geometry_box (framebuffer_of_scale scale_one_point_one)
         (mk_box 100 100 100 100) (tt, world_initial)
       = (Returns (mk_box 110 110 110 110), (tt, world_initial))
    /\ ~ (inject_Z 100 * s11 <= inject_Z 110)%Q
    /\ ~ covers_scaled s11 (mk_box 100 100 100 100) (mk_box 110 110 110 110)
    /\ damage_box_from_geometry_box (framebuffer_of_scale scale_above_five_quarters)
         (mk_box 16777219 0 16777219 1) (tt, world_initial)
       = (Returns (mk_box 20971528 0 20971528 2), (tt, world_initial))
    /\ ~ covers_scaled s54 (mk_box 16777219 0 16777219 1) (mk_box 20971528 0 20971528 2)
    /\ (forall e : Q, rounding_slack (inject_Z 16777219 * s54) e ->
          ~ (inject_Z 20971528 <= inject_Z 16777219 * s54 + e)%Q)
    /\ damage_box_from_geometry_box (framebuffer_of_scale scale_above_128)
         (mk_box 0 0 16777215 1) (tt, world_initial)
       = (Undefined, (tt, world_initial)).
Proof.
  do 4 eexists.
  split; [reflexivity |]. split; [reflexivity |]. split; [reflexivity |].
  split; [reflexivity |].
  split; [reflexivity |]. split; [reflexivity |]. split; [reflexivity |].
  split; [reflexivity |].
  split; [reflexivity |].
  split; [intros (_ & _ & Hfar & _); revert Hfar; unfold Qle; cbn; lia |].
  split; [reflexivity |].
  split; [unfold Qle; cbn; lia |].
  split; [intros (Hnear & _); revert Hnear; unfold Qle; cbn; lia |].
  split; [reflexivity |].
  split; [unfold Qle; cbn; lia |].
  split; [intros (_ & _ & Hfar & _); revert Hfar; unfold Qle; cbn; lia |].
  split; [reflexivity |].
  split; [intros (Hnear & _); revert Hnear; unfold Qle; cbn; lia |].
  split; [| reflexivity].
  intros e (He0 & Hnear & _) Hle.
  assert (Hq : (inject_Z 16777219 * (10485761 # 8388608) == 175921908678659 # 8388608)%Q)
    by reflexivity.
  rewrite (Qabs_pos (inject_Z 16777219 * (10485761 # 8388608))) in Hnear
    by (rewrite Hq; discriminate).
  change (inject_Z (2 ^ 24)) with (16777216 # 1)%Q in Hnear.
  change (inject_Z 20971528) with (20971528 # 1)%Q in Hle.
  rewrite Hq in Hnear, Hle. lra.
Qed.

(** ** Conversion at scale 1 and no rotation *)

(** C6, as amended. On an output render target with the standard
    transform (flag unset), rotation tag [WL_OUTPUT_TRANSFORM_NORMAL] and
    scale 1, [framebuffer_box_from_geometry_box] returns unchanged every
    box whose four fields are below 2^24 = 16777216 in magnitude; of
    wlroots' [wlr_box_transform] this uses that it copies the box under the
    normal transform. *)
Theorem framebuffer_box_identity :
  forall (O : Type) (box_transform : wlr_box -> wlr_box -> Z -> Z -> Z -> wlr_box)
         (t : framebuffer_t) (box : wlr_box) (s : O * world),
    (forall dest b w h, box_transform dest b WL_OUTPUT_TRANSFORM_NORMAL w h = b) ->
    has_nonstandard_transform t = false ->
    wl_transform t = WL_OUTPUT_TRANSFORM_NORMAL ->
    scale t = F32.one ->
    - 2 ^ 24 < x box < 2 ^ 24 ->
    - 2 ^ 24 < y box < 2 ^ 24 ->
    - 2 ^ 24 < width box < 2 ^ 24 ->
    - 2 ^ 24 < height box < 2 ^ 24 ->
    framebuffer_box_from_geometry_box box_transform t box s = (Returns box, s).
Proof.
  intros O box_transform t box s Hnormal Hflag Htr Hscale Hx Hy Hw Hh.
  unfold framebuffer_box_from_geometry_box, damage_box_from_geometry_box.
  rewrite Hscale.
  rewrite (proj1 (scale_one_exact _ Hx)), (proj1 (scale_one_exact _ Hy)),
    (proj2 (scale_one_exact _ Hw)), (proj2 (scale_one_exact _ Hh)).
  unfold bind, defined, ret.
  unfold framebuffer_box_from_damage_box. rewrite Hflag, Htr.
  change (wlr_output_transform_invert WL_OUTPUT_TRANSFORM_NORMAL)
    with WL_OUTPUT_TRANSFORM_NORMAL.
  rewrite Hnormal. destruct box. reflexivity.
Qed.

Lemma framebuffer_box_identity_witness :
  framebuffer_box_from_geometry_box wlroots_box_transform framebuffer_default
    (mk_box 3 (-4) 640 480) (tt, world_initial)
  = (Returns (mk_box 3 (-4) 640 480), (tt, world_initial)).
Proof.
  apply (framebuffer_box_identity unit wlroots_box_transform framebuffer_default
           (mk_box 3 (-4) 640 480) (tt, world_initial));
    [ intros dest [bx by_ bw bh] w h; reflexivity | cbn; reflexivity || lia .. ].
Defined.

(** C6 as stated fails for a coordinate that single precision cannot
    hold: 16777217 comes back as 16777216. *)
Lemma framebuffer_box_large_coordinate :
  framebuffer_box_from_geometry_box wlroots_box_transform framebuffer_default
    (mk_box 16777217 0 1 1) (tt, world_initial)
  = (Returns (mk_box 16777216 0 1 1), (tt, world_initial))
  /\ mk_box 16777216 0 1 1 <> mk_box 16777217 0 1 1.
Proof. split; [reflexivity | discriminate]. Qed.

(** * Further properties of the code *)

(** ** Allocation: the default framebuffer, and failure *)

(** X1. A target that stands for the default framebuffer ([fb] = 0) and
    holds a texture handle is never resized: whatever the size asked for,
    [allocate] issues neither [glTexImage2D] nor a completeness check, only
    the two unbinding calls; it records the new size and returns false. *)
Theorem allocate_default_framebuffer :
  forall (drv : gl_driver) (width height : Z) (t : framebuffer_base_t) (w : world),
    fb t = 0 ->
    tex t <> UINT32_MAX ->
    allocate drv width height (t, w)
    = (Returns false,
       (mk_framebuffer_base (tex t) 0 width height,
        world_after w [glBindTexture GL_TEXTURE_2D 0; glBindFramebuffer GL_FRAMEBUFFER 0])).
Proof.
  intros drv width height [tx fbo vw vh] [cs0 ls0] Hfb Htex.
  cbn [fb tex] in Hfb, Htex. subst fbo.
  unfold allocate, gl_gen, gl_check_framebuffer_status, bind, this, set_this, calls,
    GL_CALL, LOGE, modify, ret, world_after.
  alloc_simpl. change (0 =? UINT32_MAX) with false. alloc_simpl.
  destruct (Z.eqb_spec tx UINT32_MAX) as [? | _]; [contradiction |]. alloc_simpl.
  change (0 =? 0) with true. alloc_simpl.
  rewrite <- app_assoc. reflexivity.
Qed.

Lemma allocate_default_framebuffer_witness :
  allocate driver_incomplete 640 480 (mk_framebuffer_base 0 0 10 10, world_initial)
  = (Returns false,
     (mk_framebuffer_base 0 0 640 480,
      world_after world_initial
        [glBindTexture GL_TEXTURE_2D 0; glBindFramebuffer GL_FRAMEBUFFER 0])).
Proof.
  apply (allocate_default_framebuffer driver_incomplete 640 480
           (mk_framebuffer_base 0 0 10 10) world_initial); [reflexivity | discriminate].
Defined.

(** X2. When OpenGL does not report the framebuffer complete after a
    first allocation or a resize, [allocate] logs the failure and returns
    false at once: the recorded viewport size is left as it was, handles
    the target already had are kept, and the unbinding calls are skipped
    (the completeness check is the last call issued). *)
Theorem allocate_incomplete_keeps_size :
  forall (drv : gl_driver) (width height : Z) (t : framebuffer_base_t) (w : world),
    (forall cs, framebuffer_status drv cs <> GL_FRAMEBUFFER_COMPLETE) ->
    fb t = UINT32_MAX \/ tex t = UINT32_MAX
    \/ (fb t <> 0 /\ (width <> viewport_width t \/ height <> viewport_height t)) ->
    exists (t' : framebuffer_base_t) (cs : list gl_call),
      allocate drv width height (t, w)
      = (Returns false,
         (t', {| gl_calls := gl_calls w ++ cs ++ [glCheckFramebufferStatus GL_FRAMEBUFFER];
                 log_lines := log_lines w ++ ["Failed to initialize framebuffer"] |}))
      /\ viewport_width t' = viewport_width t
      /\ viewport_height t' = viewport_height t
      /\ (fb t <> UINT32_MAX -> fb t' = fb t)
      /\ (tex t <> UINT32_MAX -> tex t' = tex t).
Proof.
  intros drv width height [tx fbo vw vh] [cs0 ls0] Hstatus Hcheck.
  cbn [fb tex viewport_width viewport_height gl_calls log_lines] in *.
  assert (Hst : forall cs, (framebuffer_status drv cs =? GL_FRAMEBUFFER_COMPLETE) = false)
    by (intros cs; apply Z.eqb_neq, Hstatus).
  unfold allocate, gl_gen, gl_check_framebuffer_status, bind, this, set_this, calls,
    GL_CALL, LOGE, modify, ret.
  alloc_simpl.
  destruct (Z.eqb_spec fbo UINT32_MAX) as [Hf | Hf]; alloc_simpl;
    destruct (Z.eqb_spec tx UINT32_MAX) as [Ht | Ht]; alloc_simpl;
    repeat match goal with
           | |- context [?a =? 0] => destruct (Z.eqb_spec a 0); alloc_simpl
           end;
    repeat match goal with
           | |- context [width =? vw] => destruct (Z.eqb_spec width vw); alloc_simpl
           | |- context [height =? vh] => destruct (Z.eqb_spec height vh); alloc_simpl
           end;
    rewrite ?Hst; alloc_simpl;
    try (exfalso; intuition congruence);
    rewrite <- ?app_assoc; cbn [app];
    match goal with
    | |- exists t' cs, (_, (?T, {| gl_calls := _ ++ ?L; log_lines := _ |})) = _ /\ _ =>
        exists T, (removelast L)
    end;
    (split; [cbn [removelast app]; reflexivity | cbn; intuition congruence]).
Qed.

Lemma allocate_incomplete_keeps_size_witness :
  exists (t' : framebuffer_base_t) (cs : list gl_call),
    allocate driver_incomplete 10 10 (framebuffer_base_default, world_initial)
    = (Returns false,
       (t', {| gl_calls := cs ++ [glCheckFramebufferStatus GL_FRAMEBUFFER];
               log_lines := ["Failed to initialize framebuffer"] |}))
    /\ viewport_width t' = 0
    /\ viewport_height t' = 0.
Proof.
  destruct (allocate_incomplete_keeps_size driver_incomplete 10 10
              framebuffer_base_default world_initial)
    as (t' & cs & Hrun & Hw & Hh & _).
  - intros cs. cbn. discriminate.
  - left. reflexivity.
  - exists t', cs. split; [exact Hrun |]. split; assumption.
Defined.

(** ** The location caches *)

Lemma array_get_set_eq {A : Type} (l : list A) (i : Z) (v : A) :
  0 <= i < Z.of_nat (length l) -> array_get (array_set l i v) i = Some v.
Proof.
  intros Hi. unfold array_get, array_set.
  destruct (Z.ltb_spec i 0); [lia |].
  apply list_lookup_insert_eq. lia.
Qed.


(** X3. Each location is asked of OpenGL at most once per name and class:
    after [find_attrib_loc] (or [find_uniform_loc]) has resolved a name,
    resolving it again, whatever OpenGL would answer now, issues no call,
    changes nothing and returns the same location. *)
Theorem location_lookup_is_cached :
  forall (drv : gl_driver) (name : string) (p : impl) (w : world),
    well_formed p ->
    (exists (loc : Z) (p1 : impl) (w1 : world),
        find_attrib_loc drv name (p, w) = (Returns loc, (p1, w1))
        /\ forall (drv' : gl_driver) (w' : world),
            find_attrib_loc drv' name (p1, w') = (Returns loc, (p1, w')))
    /\ (exists (loc : Z) (p1 : impl) (w1 : world),
          find_uniform_loc drv name (p, w) = (Returns loc, (p1, w1))
          /\ forall (drv' : gl_driver) (w' : world),
              find_uniform_loc drv' name (p1, w') = (Returns loc, (p1, w'))).
Proof.
  intros drv name p w (Hidx & Hid & Hus & Hats). cbn in Hidx.
  destruct (array_get_in_range (id p) (active_program_idx p)) as [program Hprogram]; [lia |].
  split.
  - destruct (array_get_in_range (attribs p) (active_program_idx p)) as [cache Hcache];
      [lia |].
    unfold find_attrib_loc, bind, this, defined. cbn [fst snd].
    rewrite Hcache. unfold ret at 1.
    destruct (cache !! name) as [loc |] eqn:Hhit.
    + exists loc, p, w. split; [reflexivity |].
      intros drv' w'. rewrite Hcache. unfold ret at 1. now rewrite Hhit.
    + rewrite Hprogram. unfold ret, GL_CALL, modify, calls, set_this. cbn [fst snd].
      eexists _, _, _. split; [reflexivity |].
      intros drv' w'. cbn [attribs set_attribs active_program_idx].
      rewrite array_get_set_eq by lia. now rewrite lookup_insert_eq.
  - destruct (array_get_in_range (uniforms p) (active_program_idx p)) as [cache Hcache];
      [lia |].
    unfold find_uniform_loc, bind, this, defined. cbn [fst snd].
    rewrite Hcache. unfold ret at 1.
    destruct (cache !! name) as [loc |] eqn:Hhit.
    + exists loc, p, w. split; [reflexivity |].
      intros drv' w'. rewrite Hcache. unfold ret at 1. now rewrite Hhit.
    + rewrite Hprogram. unfold ret, GL_CALL, modify, calls, set_this. cbn [fst snd].
      eexists _, _, _. split; [reflexivity |].
      intros drv' w'. cbn [uniforms set_uniforms active_program_idx].
      rewrite array_get_set_eq by lia. now rewrite lookup_insert_eq.
Qed.

Lemma location_lookup_is_cached_witness :
  exists (loc : Z) (p1 : impl) (w1 : world),
    find_attrib_loc driver_plain "uvPosition" (program_compiled, world_initial)
    = (Returns loc, (p1, w1))
    /\ find_attrib_loc driver_incomplete "uvPosition" (p1, world_initial)
       = (Returns loc, (p1, world_initial)).
Proof.
  destruct (location_lookup_is_cached driver_plain "uvPosition" program_compiled
              world_initial ltac:(repeat split; cbn; lia))
    as [(loc & p1 & w1 & Hrun & Hagain) _].
  exists loc, p1, w1. split; [exact Hrun | apply Hagain].
Defined.



(** ** Registering and freeing programs *)

(** [free_resources] in full: one [glDeleteProgram] for each slot that
    holds a program, in the order of the classes. *)
Lemma free_resources_exact (p : impl) (w : world) :
  length (id p) = 3%nat ->
  free_resources (p, w)
  = (Returns tt,
     (set_id [0; 0; 0] p,
      world_after w (map glDeleteProgram (List.filter (fun v => negb (v =? 0)) (id p))))).
Proof.
  destruct p as [aa ad idx ids us ats]. destruct w as [cs0 ls0]. cbn [id].
  destruct ids as [| i0 [| i1 [| i2 [| ? ?]]]]; try discriminate. intros _.
  unfold free_resources.
  change (seqZ 0 (type_index TEXTURE_TYPE_ALL)) with [0; 1; 2].
  unfold for_each, bind, this, defined, set_this, GL_CALL, modify, ret,
    array_get, array_set, set_id, world_after.
  change (Z.to_nat 0) with 0%nat; change (Z.to_nat 1) with 1%nat;
    change (Z.to_nat 2) with 2%nat.
  cbn.
  repeat match goal with
         | |- context [?v =? 0] => is_var v; destruct (Z.eqb_spec v 0) as [-> | _]; cbn
         end;
    rewrite <- ?app_assoc, ?app_nil_r; reflexivity.
Qed.

(** X5. [free_resources] deletes each registered program exactly once,
    in class order, and leaves every slot at 0; called again it finds
    nothing to delete: no call is issued and nothing changes. *)
Theorem free_resources_idempotent :
  forall (p : impl) (w : world),
    length (id p) = 3%nat ->
    exists s1 : impl * world,
      free_resources (p, w) = (Returns tt, s1)
      /\ id (fst s1) = [0; 0; 0]
      /\ snd s1 = world_after w
                    (map glDeleteProgram (List.filter (fun v => negb (v =? 0)) (id p)))
      /\ free_resources s1 = (Returns tt, s1).
Proof.
  intros p w Hlen. eexists. split; [now apply free_resources_exact |].
  split; [reflexivity |]. split; [reflexivity |].
  rewrite free_resources_exact by reflexivity.
  cbn. rewrite world_after_nil. destruct p. reflexivity.
Qed.

Lemma free_resources_idempotent_witness :
  exists s1 : impl * world,
    free_resources (program_compiled, world_initial) = (Returns tt, s1)
    /\ gl_calls (snd s1) = [glDeleteProgram 7; glDeleteProgram 8; glDeleteProgram 9]
    /\ free_resources s1 = (Returns tt, s1).
Proof.
  destruct (free_resources_idempotent program_compiled world_initial eq_refl)
    as (s1 & Hrun & _ & Hcalls & Hagain).
  exists s1. split; [exact Hrun |]. split; [now rewrite Hcalls | exact Hagain].
Defined.

(** X6. What [set_simple] registers is what [get_program_id] reads back,
    as an [int]: after [set_simple h c] with a [GLuint] [h], the class [c]
    reads as [h] when [h] is at most 2^31 - 1 and as [h - 2^32] when it is
    larger, and every other class reads as 0, whatever was registered
    before. *)
Theorem get_program_id_after_set_simple :
  forall (p : impl) (w : world) (h : Z) (c : texture_type_t),
    length (id p) = 3%nat ->
    c <> TEXTURE_TYPE_ALL ->
    0 <= h <= UINT32_MAX ->
    exists s1 : impl * world,
      set_simple h c (p, w) = (Returns tt, s1)
      /\ forall c' : texture_type_t,
          c' <> TEXTURE_TYPE_ALL ->
          (c' = c ->
           get_program_id c' s1 = (Returns (if h <? 2 ^ 31 then h else h - 2 ^ 32), s1))
          /\ (c' <> c -> get_program_id c' s1 = (Returns 0, s1)).
Proof.
  intros p w h c Hlen Hc Hh.
  unfold set_simple. rewrite (bind_returns _ _ _ _ _ (free_resources_exact p w Hlen)).
  assert (Hin : (type_index c <? type_index TEXTURE_TYPE_ALL) = true)
    by (destruct c; [reflexivity .. | contradiction]).
  rewrite Hin. unfold assert, bind, ret, this, set_this. cbn [fst snd].
  eexists. split; [reflexivity |].
  assert (Hbits : int_of_GLuint h = if h <? 2 ^ 31 then h else h - 2 ^ 32).
  { unfold int_of_GLuint. cbv zeta. unfold UINT32_MAX in Hh.
    now rewrite Z.mod_small by lia. }
  intros c' Hc'. unfold get_program_id, bind, this, defined, ret. cbn [fst snd id set_id].
  split.
  - intros ->. rewrite <- Hbits. destruct c; try contradiction; reflexivity.
  - intros Hne. destruct c, c'; try contradiction; reflexivity.
Qed.

Lemma get_program_id_after_set_simple_witness :
  (exists s1 : impl * world,
      set_simple 42 TEXTURE_TYPE_RGBX (program_compiled, world_initial) = (Returns tt, s1)
      /\ get_program_id TEXTURE_TYPE_RGBX s1 = (Returns 42, s1)
      /\ get_program_id TEXTURE_TYPE_RGBA s1 = (Returns 0, s1))
  /\ exists s1 : impl * world,
      set_simple UINT32_MAX TEXTURE_TYPE_RGBX (program_compiled, world_initial)
      = (Returns tt, s1)
      /\ get_program_id TEXTURE_TYPE_RGBX s1 = (Returns (-1), s1).
Proof.
  split.
  - destruct (get_program_id_after_set_simple program_compiled world_initial 42
                TEXTURE_TYPE_RGBX eq_refl ltac:(discriminate) ltac:(unfold UINT32_MAX; lia))
      as (s1 & Hset & Hget).
    exists s1. split; [exact Hset |]. split.
    + apply (Hget TEXTURE_TYPE_RGBX); [discriminate | reflexivity].
    + apply (Hget TEXTURE_TYPE_RGBA); discriminate.
  - destruct (get_program_id_after_set_simple program_compiled world_initial UINT32_MAX
                TEXTURE_TYPE_RGBX eq_refl ltac:(discriminate) ltac:(unfold UINT32_MAX; lia))
      as (s1 & Hset & Hget).
    exists s1. split; [exact Hset |].
    apply (Hget TEXTURE_TYPE_RGBX); [discriminate | reflexivity].
Defined.

(** X7. [set_simple] asserts that the class is a real one only after it
    has freed the programs held: called with [TEXTURE_TYPE_ALL] it aborts
    on the assertion with every previously registered program already
    deleted and every slot at 0. *)
Theorem set_simple_invalid_class_frees_first :
  forall (p : impl) (w : world) (h : Z),
    length (id p) = 3%nat ->
    set_simple h TEXTURE_TYPE_ALL (p, w)
    = (Aborts,
       (set_id [0; 0; 0] p,
        world_after w (map glDeleteProgram (List.filter (fun v => negb (v =? 0)) (id p))))).
Proof.
  intros p w h Hlen.
  unfold set_simple. rewrite (bind_returns _ _ _ _ _ (free_resources_exact p w Hlen)).
  reflexivity.
Qed.

Lemma set_simple_invalid_class_frees_first_witness :
  set_simple 42 TEXTURE_TYPE_ALL (program_compiled, world_initial)
  = (Aborts,
     (set_id [0; 0; 0] program_compiled,
      world_after world_initial [glDeleteProgram 7; glDeleteProgram 8; glDeleteProgram 9])).
Proof.
  exact (set_simple_invalid_class_frees_first program_compiled world_initial 42 eq_refl).
Defined.

(** ** The tracking sets are sets *)









(** ** Drawing: set-up, the draw, and the clean-up *)

Lemma gl_run_quiet (cs : list gl_call) :
  Forall (fun c => quiet c = true) cs -> forall st, gl_run cs st = st.
Proof.
  induction 1 as [| c cs Hc _ IH]; intros st; [reflexivity |].
  change (gl_run (c :: cs) st) with (gl_run cs (gl_step st c)).
  rewrite IH. destruct c; try discriminate; reflexivity.
Qed.

Lemma setup_call_mono (attrs attrs' : list Z) (c : gl_call) :
  (forall i, In i attrs -> In i attrs') -> setup_call attrs c -> setup_call attrs' c.
Proof. intros Hsub. destruct c; cbn; auto. Qed.

Lemma quiet_setup_call (attrs : list Z) (c : gl_call) :
  quiet c = true -> setup_call attrs c.
Proof. destruct c; cbn; auto; discriminate. Qed.

Lemma gl_run_setup_program (attrs : list Z) (cs : list gl_call) :
  Forall (setup_call attrs) cs ->
  forall st, current_program (gl_run cs st) = current_program st.
Proof.
  induction 1 as [| c cs Hc _ IH]; intros st; [reflexivity |].
  change (gl_run (c :: cs) st) with (gl_run cs (gl_step st c)).
  rewrite IH. destruct c; try discriminate; reflexivity.
Qed.

Lemma draw_calls_app (cs cs' : list gl_call) :
  draw_calls (cs ++ cs') = draw_calls cs ++ draw_calls cs'.
Proof. apply List.filter_app. Qed.

Lemma draw_calls_setup (attrs : list Z) (cs : list gl_call) :
  Forall (setup_call attrs) cs -> draw_calls cs = [].
Proof.
  induction 1 as [| c cs Hc _ IH]; [reflexivity |].
  unfold draw_calls in *. cbn [List.filter]. rewrite IH.
  destruct c; try discriminate; reflexivity.
Qed.

Lemma draw_calls_deactivate (divs attrs : list Z) :
  draw_calls (deactivate_calls divs attrs) = [].
Proof.
  unfold deactivate_calls. rewrite !draw_calls_app.
  assert (H1 : draw_calls (map (fun loc => glVertexAttribDivisor loc 0) divs) = []).
  { induction divs as [| v divs IH]; [reflexivity | exact IH]. }
  assert (H2 : draw_calls (map glDisableVertexAttribArray attrs) = []).
  { induction attrs as [| v attrs IH]; [reflexivity | exact IH]. }
  now rewrite H1, H2.
Qed.

Lemma setup_call_enabled (attrs : list Z) (cs : list gl_call) (i : Z) :
  Forall (setup_call attrs) cs -> In (glEnableVertexAttribArray i) cs -> In i attrs.
Proof.
  intros Hall Hin. rewrite Forall_forall in Hall.
  apply list_elem_of_In in Hin. exact (Hall _ Hin).
Qed.

(** [find_uniform_loc] and [find_attrib_loc] issue at most a location
    query. *)
Lemma find_uniform_loc_quiet (drv : gl_driver) (name : string) (p : impl) (w : world) :
  well_formed p ->
  exists (loc : Z) (us : list (gmap string Z)) (cs : list gl_call),
    find_uniform_loc drv name (p, w) = (Returns loc, (set_uniforms us p, world_after w cs))
    /\ length us = 3%nat
    /\ Forall (fun c => quiet c = true) cs.
Proof.
  intros (Hidx & Hid & Hus & _). cbn in Hidx.
  destruct (array_get_in_range (uniforms p) (active_program_idx p)) as [cache Hcache]; [lia |].
  destruct (array_get_in_range (id p) (active_program_idx p)) as [program Hprogram]; [lia |].
  unfold find_uniform_loc, bind, this, defined. cbn [fst snd].
  rewrite Hcache. unfold ret at 1.
  destruct (cache !! name) as [loc |].
  - exists loc, (uniforms p), []. rewrite world_after_nil.
    split; [| split; [exact Hus | constructor]].
    destruct p. reflexivity.
  - rewrite Hprogram. unfold ret, GL_CALL, modify, calls, set_this. cbn [fst snd].
    eexists _, _, [_]. split; [reflexivity |]. split.
    + unfold array_set. now rewrite length_insert.
    + repeat constructor.
Qed.

Lemma find_attrib_loc_quiet (drv : gl_driver) (name : string) (p : impl) (w : world) :
  well_formed p ->
  exists (loc : Z) (ats : list (gmap string Z)) (cs : list gl_call),
    find_attrib_loc drv name (p, w) = (Returns loc, (set_attribs ats p, world_after w cs))
    /\ length ats = 3%nat
    /\ Forall (fun c => quiet c = true) cs.
Proof.
  intros (Hidx & Hid & _ & Hats). cbn in Hidx.
  destruct (array_get_in_range (attribs p) (active_program_idx p)) as [cache Hcache]; [lia |].
  destruct (array_get_in_range (id p) (active_program_idx p)) as [program Hprogram]; [lia |].
  unfold find_attrib_loc, bind, this, defined. cbn [fst snd].
  rewrite Hcache. unfold ret at 1.
  destruct (cache !! name) as [loc |].
  - exists loc, (attribs p), []. rewrite world_after_nil.
    split; [| split; [exact Hats | constructor]].
    destruct p. reflexivity.
  - rewrite Hprogram. unfold ret, GL_CALL, modify, calls, set_this. cbn [fst snd].
    eexists _, _, [_]. split; [reflexivity |]. split.
    + unfold array_set. now rewrite length_insert.
    + repeat constructor.
Qed.

Lemma set_uniforms_well_formed (us : list (gmap string Z)) (p : impl) :
  length us = 3%nat -> well_formed p -> well_formed (set_uniforms us p).
Proof. intros Hus (Hidx & Hid & _ & Hats). repeat split; assumption || apply Hidx. Qed.

Lemma quiet_step_GL_CALL (c : gl_call) : quiet c = true -> quiet_step (GL_CALL c).
Proof.
  intros Hc p w Hwf. exists p, [c]. repeat split; try apply Hwf.
  repeat constructor. exact Hc.
Qed.

Lemma quiet_step_seq (m1 m2 : M (impl * world) unit) :
  quiet_step m1 -> quiet_step m2 -> quiet_step (m1 ;; m2).
Proof.
  intros H1 H2 p w Hwf.
  destruct (H1 p w Hwf) as (p1 & cs1 & Hrun1 & Hwf1 & Ha1 & Hd1 & Hq1).
  destruct (H2 p1 (world_after w cs1) Hwf1) as (p2 & cs2 & Hrun2 & Hwf2 & Ha2 & Hd2 & Hq2).
  exists p2, (cs1 ++ cs2).
  rewrite (bind_returns _ _ _ _ _ Hrun1), Hrun2, world_after_app.
  split; [reflexivity |]. split; [exact Hwf2 |].
  split; [congruence |]. split; [congruence |].
  apply Forall_app. now split.
Qed.

(** Setting a uniform: resolve its location, then one quiet call. *)
Lemma quiet_step_uniform (drv : gl_driver) (name : string) (f : Z -> gl_call) :
  (forall loc, quiet (f loc) = true) ->
  quiet_step (loc <- find_uniform_loc drv name ;; GL_CALL (f loc)).
Proof.
  intros Hf p w Hwf.
  destruct (find_uniform_loc_quiet drv name p w Hwf) as (loc & us & cs & Hfind & Hus & Hq).
  rewrite (bind_returns _ _ _ _ _ Hfind).
  exists (set_uniforms us p), (cs ++ [f loc]).
  split.
  { unfold GL_CALL, modify, world_after. cbn [fst snd gl_calls log_lines].
    now rewrite <- app_assoc. }
  split; [now apply set_uniforms_well_formed |].
  split; [reflexivity |]. split; [reflexivity |].
  apply Forall_app. split; [exact Hq |]. repeat constructor. apply Hf.
Qed.

Lemma quiet_step_set_active_texture (drv : gl_driver) (texture : texture_t) :
  quiet_step (set_active_texture drv texture).
Proof.
  unfold set_active_texture.
  repeat apply quiet_step_seq; try (apply quiet_step_GL_CALL; reflexivity).
  - apply (quiet_step_uniform drv "_wayfire_y_base" (fun loc => glUniform1f loc _)).
    reflexivity.
  - apply (quiet_step_uniform drv "_wayfire_y_mult" (fun loc => glUniform1f loc _)).
    reflexivity.
Qed.

(** A quiet step, seen from the computation that follows it. *)
Lemma quiet_step_then {A : Type} (m : M (impl * world) unit)
    (k : unit -> M (impl * world) A) (p : impl) (w : world) :
  quiet_step m ->
  well_formed p ->
  exists (p' : impl) (cs : list gl_call),
    bind m k (p, w) = k tt (p', world_after w cs)
    /\ well_formed p'
    /\ active_attrs p' = active_attrs p
    /\ active_attrs_divisors p' = active_attrs_divisors p
    /\ Forall (fun c => quiet c = true) cs.
Proof.
  intros Hm Hwf. destruct (Hm p w Hwf) as (p' & cs & Hrun & Hrest).
  exists p', cs. split; [now rewrite (bind_returns _ _ _ _ _ Hrun) | exact Hrest].
Qed.

Ltac peel_quiet_step Hm Hwf p' cs Hwf' Ha Hd Hq :=
  match goal with
  | |- context [bind ?m ?k (?p, ?w)] =>
      let Heq := fresh "Heq" in
      destruct (quiet_step_then m k p w Hm Hwf) as (p' & cs & Heq & Hwf' & Ha & Hd & Hq);
      rewrite Heq; clear Heq; cbv beta
  end.

(** [attrib_pointer], seen from the computation that follows it. *)
Lemma attrib_pointer_then {A : Type} (drv : gl_driver) (attrib : string)
    (size stride : Z) (ptr : list spec_float) (type : Z)
    (k : unit -> M (impl * world) A) (p : impl) (w : world) :
  well_formed p ->
  exists (loc : Z) (p' : impl) (q : list gl_call),
    bind (attrib_pointer drv attrib size stride ptr type) k (p, w)
    = k tt (p', world_after w
               (q ++ [glEnableVertexAttribArray loc;
                      glVertexAttribPointer loc size type GL_FALSE stride ptr]))
    /\ well_formed p'
    /\ active_attrs p' = set_insert loc (active_attrs p)
    /\ active_attrs_divisors p' = active_attrs_divisors p
    /\ Forall (fun c => quiet c = true) q.
Proof.
  intros Hwf.
  destruct (find_attrib_loc_quiet drv attrib p w Hwf) as (loc & ats & q & Hfind & Hats & Hq).
  exists loc, (set_active_attrs (set_insert loc (active_attrs p)) (set_attribs ats p)), q.
  split.
  { unfold attrib_pointer.
    unfold bind at 1. unfold bind at 1. rewrite Hfind.
    unfold bind, this, set_this, GL_CALL, modify, ret, world_after.
    cbn [fst snd gl_calls log_lines]. now rewrite <- !app_assoc. }
  split; [now apply (set_attribs_well_formed ats p Hats) |].
  repeat split. exact Hq.
Qed.

Ltac peel_attrib_pointer Hwf loc p' q Hwf' Ha Hd Hq :=
  match goal with
  | |- context [bind (attrib_pointer ?drv ?attrib ?size ?stride ?ptr ?type) ?k (?p, ?w)] =>
      let Heq := fresh "Heq" in
      destruct (attrib_pointer_then drv attrib size stride ptr type k p w Hwf)
        as (loc & p' & q & Heq & Hwf' & Ha & Hd & Hq);
      rewrite Heq; clear Heq; cbv beta
  end.

Lemma pointers_at_app (index : Z) (cs cs' : list gl_call) :
  pointers_at index (cs ++ cs') = pointers_at index cs ++ pointers_at index cs'.
Proof.
  induction cs as [| c cs IH]; [reflexivity |].
  cbn [app pointers_at]. destruct c; try exact IH.
  destruct (_ =? _); [cbn [app]; now rewrite IH | exact IH].
Qed.

Lemma pointers_at_quiet (index : Z) (cs : list gl_call) :
  Forall (fun c => quiet c = true) cs -> pointers_at index cs = [].
Proof.
  induction 1 as [| c cs Hc _ IH]; [reflexivity |].
  destruct c; try discriminate; exact IH.
Qed.

(** The end of every draw: blending, the draw call, deactivation. *)
Lemma blend_draw_deactivate (p : impl) (w : world) :
  (GL_CALL (glEnable GL_BLEND) ;;
   GL_CALL (glBlendFunc GL_ONE GL_ONE_MINUS_SRC_ALPHA) ;;
   GL_CALL (glDrawArrays GL_TRIANGLE_FAN 0 4) ;;
   deactivate) (p, w)
  = (Returns tt,
     (set_active_attrs [] (set_active_attrs_divisors [] p),
      world_after w (blend_and_draw
                     ++ deactivate_calls (active_attrs_divisors p) (active_attrs p)))).
Proof.
  unfold bind at 1. unfold GL_CALL at 1, modify. cbn [fst snd].
  unfold bind at 1. unfold GL_CALL at 1, modify. cbn [fst snd].
  unfold bind at 1. unfold GL_CALL at 1, modify. cbn [fst snd].
  rewrite deactivate_run. unfold world_after, blend_and_draw.
  cbn [gl_calls log_lines]. now rewrite <- !app_assoc.
Qed.

(** From the shape of a draw's trace to what it shows. *)
Lemma one_clean_draw_of_shape (program : Z) (cs0 setup : list gl_call) (divs attrs : list Z) :
  Forall (setup_call attrs) setup ->
  one_clean_draw program cs0
    (glUseProgram program :: setup
     ++ [glEnable GL_BLEND; glBlendFunc GL_ONE GL_ONE_MINUS_SRC_ALPHA])
    (deactivate_calls divs attrs).
Proof.
  intros Hsetup.
  assert (Hblend : Forall (setup_call attrs)
                     [glEnable GL_BLEND; glBlendFunc GL_ONE GL_ONE_MINUS_SRC_ALPHA])
    by (repeat constructor).
  assert (Hbefore : Forall (setup_call attrs)
                      (setup ++ [glEnable GL_BLEND; glBlendFunc GL_ONE GL_ONE_MINUS_SRC_ALPHA]))
    by (apply Forall_app; now split).
  unfold one_clean_draw. repeat split.
  - unfold draw_calls. cbn [List.filter is_draw].
    exact (draw_calls_setup attrs _ Hbefore).
  - apply draw_calls_deactivate.
  - right. apply in_or_app. right. now left.
  - right. apply in_or_app. right. right. now left.
  - intros st. rewrite gl_run_app.
    change (gl_run (glUseProgram program :: ?cs) ?s)
      with (gl_run cs (gl_step s (glUseProgram program))).
    now rewrite (gl_run_setup_program attrs _ Hbefore).
  - intros st. rewrite app_assoc, gl_run_app.
    change (gl_run (?c :: ?cs) ?s) with (gl_run cs (gl_step s c)).
    apply gl_run_deactivate_calls.
  - intros st i Hin. rewrite app_assoc, gl_run_app.
    change (gl_run (?c :: ?cs) ?s) with (gl_run cs (gl_step s c)).
    apply gl_run_deactivate_calls.
    destruct Hin as [Hin | Hin]; [discriminate |].
    exact (setup_call_enabled attrs _ i Hbefore Hin).
Qed.

(** X9. A textured draw on a well-formed multiplexer that has a program
    for the texture's class always completes, and its trace holds exactly
    one draw call, [glDrawArrays(GL_TRIANGLE_FAN, 0, 4)], issued with
    blending enabled and the class's program in use; when it returns no
    program is in use, every attribute array it enabled is disabled again
    and both tracking sets are empty. *)
Theorem render_transformed_texture_draws_once :
  forall (drv : gl_driver) (tex : texture_t) (g texg : gl_geometry) (model : Glm.mat4)
         (color : Glm.vec4) (bits : Z) (p : impl) (w : world) (program : Z),
    well_formed p ->
    array_get (id p) (type_index (type tex)) = Some program ->
    program <> 0 ->
    exists (p' : impl) (before after : list gl_call),
      render_transformed_texture drv tex g texg model color bits (p, w)
      = (Returns tt,
         (p', world_after w (before ++ glDrawArrays GL_TRIANGLE_FAN 0 4 :: after)))
      /\ one_clean_draw program (gl_calls w) before after
      /\ active_attrs p' = []
      /\ active_attrs_divisors p' = []
      /\ well_formed p'.
Proof.
  intros drv tex g texg model color bits p w program Hwf Hslot Hnz.
  unfold render_transformed_texture.
  rewrite (bind_returns _ _ _ _ _ (use_registered p w (type tex) program Hslot Hnz)).
  pose proof (well_formed_use (type tex) p _ w _ Hwf
                (use_registered p w (type tex) program Hslot Hnz)) as Hwf0.
  set (p0 := set_active_program_idx (type_index (type tex)) p) in *.
  change {| gl_calls := gl_calls w ++ [glUseProgram program]; log_lines := log_lines w |}
    with (world_after w [glUseProgram program]).
  cbv zeta.
  peel_quiet_step (quiet_step_set_active_texture drv tex) Hwf0 p1 cs1 Hwf1 Ha1 Hd1 Hq1.
  peel_attrib_pointer Hwf1 l2 p2 q2 Hwf2 Ha2 Hd2 Hq2.
  peel_attrib_pointer Hwf2 l3 p3 q3 Hwf3 Ha3 Hd3 Hq3.
  peel_quiet_step
    (quiet_step_uniform drv "MVP" (fun loc => glUniformMatrix4fv loc 1 GL_FALSE model)
       (fun _ => eq_refl)) Hwf3 p4 cs4 Hwf4 Ha4 Hd4 Hq4.
  peel_quiet_step
    (quiet_step_uniform drv "color"
       (fun loc => glUniform4f loc (Glm.r color) (Glm.g color) (Glm.b color) (Glm.a color))
       (fun _ => eq_refl)) Hwf4 p5 cs5 Hwf5 Ha5 Hd5 Hq5.
  rewrite blend_draw_deactivate, !world_after_app.
  match goal with
  | |- context [glVertexAttribPointer l2 ?a ?b ?c ?d ?e] =>
      set (ptr2 := glVertexAttribPointer l2 a b c d e)
  end.
  match goal with
  | |- context [glVertexAttribPointer l3 ?a ?b ?c ?d ?e] =>
      set (ptr3 := glVertexAttribPointer l3 a b c d e)
  end.
  set (setup := cs1 ++ (q2 ++ [glEnableVertexAttribArray l2; ptr2])
                ++ (q3 ++ [glEnableVertexAttribArray l3; ptr3]) ++ cs4 ++ cs5).
  assert (Hsetup : Forall (setup_call (active_attrs p5)) setup).
  { assert (Hin2 : In l2 (active_attrs p5)).
    { rewrite Ha5, Ha4, Ha3. apply set_insert_keeps. rewrite Ha2. apply set_insert_in. }
    assert (Hin3 : In l3 (active_attrs p5)).
    { rewrite Ha5, Ha4, Ha3. apply set_insert_in. }
    assert (Hquiet : forall cs, Forall (fun c => quiet c = true) cs ->
                                Forall (setup_call (active_attrs p5)) cs).
    { intros cs Hcs. eapply Forall_impl; [exact Hcs |].
      intros c. apply quiet_setup_call. }
    unfold setup, ptr2, ptr3. repeat (apply Forall_app; split); auto;
      repeat constructor; assumption. }
  exists (set_active_attrs [] (set_active_attrs_divisors [] p5)),
    (glUseProgram program :: setup
     ++ [glEnable GL_BLEND; glBlendFunc GL_ONE GL_ONE_MINUS_SRC_ALPHA]),
    (deactivate_calls (active_attrs_divisors p5) (active_attrs p5)).
  split.
  { f_equal. f_equal. f_equal. unfold setup, blend_and_draw.
    cbn [app]. rewrite <- !app_assoc. reflexivity. }
  split; [now apply one_clean_draw_of_shape |].
  split; [reflexivity |]. split; [reflexivity |]. exact Hwf5.
Qed.

Lemma render_transformed_texture_draws_once_witness :
  exists (p' : impl) (before after : list gl_call),
    render_transformed_texture driver_plain texture_plain
      (mk_gl_geometry F32.zero F32.zero F32.one F32.one)
      (mk_gl_geometry F32.zero F32.zero F32.one F32.one)
      Glm.identity color_white 0 (program_compiled, world_initial)
    = (Returns tt,
       (p', world_after world_initial
              (before ++ glDrawArrays GL_TRIANGLE_FAN 0 4 :: after)))
    /\ one_clean_draw 7 [] before after.
Proof.
  destruct (render_transformed_texture_draws_once driver_plain texture_plain
              (mk_gl_geometry F32.zero F32.zero F32.one F32.one)
              (mk_gl_geometry F32.zero F32.zero F32.one F32.one)
              Glm.identity color_white 0 program_compiled world_initial 7
              ltac:(repeat split; cbn; lia) eq_refl ltac:(lia))
    as (p' & before & after & Hrun & Hdraw & _).
  exists p', before, after. split; assumption.
Defined.

(** X10. [render_rectangle] on a well-formed colour multiplexer holding
    an RGBA program always completes; the vertex array it hands to OpenGL
    is that of the four corners of the box, (x, y+h), (x+w, y+h),
    (x+w, y), (x, y); its trace holds exactly one draw call, issued with
    blending enabled and the RGBA program in use, and when it returns no
    program is in use, the array it enabled is disabled and both tracking
    sets are empty. *)
Theorem render_rectangle_draws_once :
  forall (drv : gl_driver) (geom : wlr_box) (color : Glm.vec4) (matrix : Glm.mat4)
         (p : impl) (w : world) (program : Z),
    well_formed p ->
    array_get (id p) (type_index TEXTURE_TYPE_RGBA) = Some program ->
    program <> 0 ->
    exists (p' : impl) (before after : list gl_call) (loc : Z),
      render_rectangle drv geom color matrix (p, w)
      = (Returns tt,
         (p', world_after w (before ++ glDrawArrays GL_TRIANGLE_FAN 0 4 :: after)))
      /\ one_clean_draw program (gl_calls w) before after
      /\ In (glVertexAttribPointer loc 2 GL_FLOAT GL_FALSE 0 (quad_vertices geom)) before
      /\ pointers_at loc before = [quad_vertices geom]
      /\ active_attrs p' = []
      /\ active_attrs_divisors p' = []
      /\ well_formed p'.
Proof.
  intros drv geom color matrix p w program Hwf Hslot Hnz.
  unfold render_rectangle.
  rewrite (bind_returns _ _ _ _ _ (use_registered p w TEXTURE_TYPE_RGBA program Hslot Hnz)).
  pose proof (well_formed_use TEXTURE_TYPE_RGBA p _ w _ Hwf
                (use_registered p w TEXTURE_TYPE_RGBA program Hslot Hnz)) as Hwf0.
  set (p0 := set_active_program_idx (type_index TEXTURE_TYPE_RGBA) p) in *.
  change {| gl_calls := gl_calls w ++ [glUseProgram program]; log_lines := log_lines w |}
    with (world_after w [glUseProgram program]).
  cbv zeta.
  peel_attrib_pointer Hwf0 l1 p1 q1 Hwf1 Ha1 Hd1 Hq1.
  peel_quiet_step
    (quiet_step_uniform drv "MVP" (fun loc => glUniformMatrix4fv loc 1 GL_FALSE matrix)
       (fun _ => eq_refl)) Hwf1 p2 cs2 Hwf2 Ha2 Hd2 Hq2.
  peel_quiet_step
    (quiet_step_uniform drv "color"
       (fun loc => glUniform4f loc (Glm.r color) (Glm.g color) (Glm.b color) (Glm.a color))
       (fun _ => eq_refl)) Hwf2 p3 cs3 Hwf3 Ha3 Hd3 Hq3.
  rewrite blend_draw_deactivate, !world_after_app.
  change [F32.of_int (x geom);
          F32.add (F32.of_int (y geom)) (F32.of_int (height geom));
          F32.add (F32.of_int (x geom)) (F32.of_int (width geom));
          F32.add (F32.of_int (y geom)) (F32.of_int (height geom));
          F32.add (F32.of_int (x geom)) (F32.of_int (width geom));
          F32.of_int (y geom); F32.of_int (x geom); F32.of_int (y geom)]
    with (quad_vertices geom).
  set (ptr := glVertexAttribPointer l1 2 GL_FLOAT GL_FALSE 0 (quad_vertices geom)).
  set (setup := (q1 ++ [glEnableVertexAttribArray l1; ptr]) ++ cs2 ++ cs3).
  assert (Hquiet : forall attrs cs, Forall (fun c => quiet c = true) cs ->
                                    Forall (setup_call attrs) cs).
  { intros attrs cs Hcs. eapply Forall_impl; [exact Hcs |].
    intros c. apply quiet_setup_call. }
  assert (Hsetup : Forall (setup_call (active_attrs p3)) setup).
  { assert (Hin1 : In l1 (active_attrs p3)).
    { rewrite Ha3, Ha2, Ha1. apply set_insert_in. }
    unfold setup, ptr. repeat (apply Forall_app; split); auto;
      repeat constructor; assumption. }
  exists (set_active_attrs [] (set_active_attrs_divisors [] p3)),
    (glUseProgram program :: setup
     ++ [glEnable GL_BLEND; glBlendFunc GL_ONE GL_ONE_MINUS_SRC_ALPHA]),
    (deactivate_calls (active_attrs_divisors p3) (active_attrs p3)), l1.
  split.
  { f_equal. f_equal. f_equal. unfold setup, blend_and_draw.
    cbn [app]. rewrite <- !app_assoc. reflexivity. }
  split; [now apply one_clean_draw_of_shape |].
  split.
  { right. apply in_or_app. left. unfold setup. apply in_or_app. left.
    apply in_or_app. right. right. now left. }
  split; [| split; [reflexivity | split; [reflexivity | exact Hwf3]]].
  cbn [pointers_at]. unfold setup. rewrite !pointers_at_app.
  rewrite (pointers_at_quiet l1 q1 Hq1), (pointers_at_quiet l1 cs2 Hq2),
    (pointers_at_quiet l1 cs3 Hq3).
  unfold ptr. cbn [pointers_at app]. now rewrite Z.eqb_refl.
Qed.

Lemma render_rectangle_draws_once_witness :
  exists (p' : impl) (before after : list gl_call) (loc : Z),
    render_rectangle driver_plain (mk_box 1 2 30 40) color_white Glm.identity
      (program_compiled, world_initial)
    = (Returns tt,
       (p', world_after world_initial
              (before ++ glDrawArrays GL_TRIANGLE_FAN 0 4 :: after)))
    /\ one_clean_draw 7 [] before after
    /\ pointers_at loc before = [quad_vertices (mk_box 1 2 30 40)].
Proof.
  destruct (render_rectangle_draws_once driver_plain (mk_box 1 2 30 40) color_white
              Glm.identity program_compiled world_initial 7
              ltac:(repeat split; cbn; lia) eq_refl ltac:(lia))
    as (p' & before & after & loc & Hrun & Hdraw & _ & Hptr & _).
  exists p', before, after, loc.
  split; [exact Hrun | split; [exact Hdraw | exact Hptr]].
Defined.

(** X11. A draw for which the multiplexer holds no program raises before
    anything is sent to OpenGL: each of the three textured overloads, and
    [render_rectangle] when the RGBA slot is empty, ends in the exception
    of [use] with the multiplexer and the trace exactly as they were. *)
Theorem draw_without_program_raises :
  forall (drv : gl_driver) (tex : texture_t) (g texg : gl_geometry) (geom : wlr_box)
         (framebuffer : framebuffer_t) (model : Glm.mat4) (color : Glm.vec4) (bits : Z)
         (p : impl) (w : world),
    array_get (id p) (type_index (type tex)) = Some 0 ->
    let raised :=
      (Throws ("program_t has no program for type " +:+ pretty (type_index (type tex))),
       (p, w)) in
    render_transformed_texture drv tex g texg model color bits (p, w) = raised
    /\ render_transformed_texture_geometry drv tex geom model color bits (p, w) = raised
    /\ render_texture drv tex framebuffer geom color bits (p, w) = raised
    /\ (type tex = TEXTURE_TYPE_RGBA ->
        render_rectangle drv geom color model (p, w) = raised).
Proof.
  intros drv tex g texg geom framebuffer model color bits p w Hslot raised.
  assert (Hcore : forall g' texg' model' bits',
             render_transformed_texture drv tex g' texg' model' color bits' (p, w) = raised).
  { intros. unfold render_transformed_texture, bind.
    now rewrite (use_unregistered p w (type tex) Hslot). }
  split; [apply Hcore |]. split; [apply Hcore |]. split; [apply Hcore |].
  intros Hrgba. unfold render_rectangle, bind. rewrite Hrgba in Hslot.
  rewrite (use_unregistered p w TEXTURE_TYPE_RGBA Hslot).
  unfold raised. now rewrite Hrgba.
Qed.

Lemma draw_without_program_raises_witness :
  render_texture driver_plain texture_plain framebuffer_offset (mk_box 0 0 10 10)
    color_white 0 (program_t_new, world_initial)
  = (Throws "program_t has no program for type 0", (program_t_new, world_initial))
  /\ render_rectangle driver_plain (mk_box 0 0 10 10) color_white Glm.identity
       (program_t_new, world_initial)
     = (Throws "program_t has no program for type 0", (program_t_new, world_initial)).
Proof.
  destruct (draw_without_program_raises driver_plain texture_plain
              (mk_gl_geometry F32.zero F32.zero F32.one F32.one)
              (mk_gl_geometry F32.zero F32.zero F32.one F32.one)
              (mk_box 0 0 10 10) framebuffer_offset Glm.identity color_white 0
              program_t_new world_initial eq_refl)
    as (_ & _ & Hfb & Hrect).
  split; [exact Hfb | exact (Hrect eq_refl)].
Defined.

(** X12. The overloads that take a [wf::geometry_t] ignore
    [TEXTURE_USE_TEX_GEOMETRY], as the header says: with the flag set or
    not they behave alike, and they are the general overload run with the
    flag cleared, whatever sub-rectangle that one is given. *)
Theorem geometry_overloads_ignore_tex_geometry :
  forall (drv : gl_driver) (texture : texture_t) (geom : wlr_box)
         (framebuffer : framebuffer_t) (matrix : Glm.mat4) (color : Glm.vec4) (bits : Z)
         (texg : gl_geometry) (s : impl * world),
    render_transformed_texture_geometry drv texture geom matrix color
      (Z.lor bits TEXTURE_USE_TEX_GEOMETRY) s
    = render_transformed_texture_geometry drv texture geom matrix color bits s
    /\ render_texture drv texture framebuffer geom color
         (Z.lor bits TEXTURE_USE_TEX_GEOMETRY) s
       = render_texture drv texture framebuffer geom color bits s
    /\ render_transformed_texture_geometry drv texture geom matrix color bits s
       = render_transformed_texture drv texture
           (mk_gl_geometry (F32.of_int (x geom)) (F32.of_int (y geom))
              (F32.add (F32.of_int (x geom)) (F32.of_int (width geom)))
              (F32.add (F32.of_int (y geom)) (F32.of_int (height geom))))
           texg matrix color
           (Z.land bits (Z.lxor UINT32_MAX TEXTURE_USE_TEX_GEOMETRY)) s
    /\ has_flag (Z.land bits (Z.lxor UINT32_MAX TEXTURE_USE_TEX_GEOMETRY))
         TEXTURE_USE_TEX_GEOMETRY = false.
Proof.
  intros drv texture geom framebuffer matrix color bits texg s.
  assert (Hmask : Z.land (Z.lor bits TEXTURE_USE_TEX_GEOMETRY)
                    (Z.lxor UINT32_MAX TEXTURE_USE_TEX_GEOMETRY)
                  = Z.land bits (Z.lxor UINT32_MAX TEXTURE_USE_TEX_GEOMETRY)).
  { rewrite Z.land_lor_distr_l.
    change (Z.land TEXTURE_USE_TEX_GEOMETRY (Z.lxor UINT32_MAX TEXTURE_USE_TEX_GEOMETRY))
      with 0.
    apply Z.lor_0_r. }
  assert (Hflag : has_flag (Z.land bits (Z.lxor UINT32_MAX TEXTURE_USE_TEX_GEOMETRY))
                    TEXTURE_USE_TEX_GEOMETRY = false).
  { unfold has_flag. rewrite <- Z.land_assoc.
    change (Z.land (Z.lxor UINT32_MAX TEXTURE_USE_TEX_GEOMETRY) TEXTURE_USE_TEX_GEOMETRY)
      with 0.
    now rewrite Z.land_0_r. }
  assert (Hgeom : render_transformed_texture_geometry drv texture geom matrix color
                    (Z.lor bits TEXTURE_USE_TEX_GEOMETRY) s
                  = render_transformed_texture_geometry drv texture geom matrix color bits s).
  { unfold render_transformed_texture_geometry. cbv zeta. now rewrite Hmask. }
  split; [exact Hgeom |]. split.
  { unfold render_texture, render_transformed_texture_geometry. cbv zeta.
    now rewrite Hmask. }
  split; [| exact Hflag].
  unfold render_transformed_texture_geometry, render_transformed_texture. cbv zeta.
  now rewrite Hflag.
Qed.

(** ** The damage region and power-of-two scales *)



(** Multiplying a full-width mantissa by a power of two only moves the
    exponent. *)
Lemma mul_power_of_two_canonical (s : bool) (m : positive) (e k : Z) :
  digits2_pos m = 24%positive ->
  -149 <= e + k <= 104 ->
  F32.mul (S754_finite s m e) (power_of_two k) = S754_finite s m (e + k).
Proof.
  intros Hd He.
  unfold F32.mul, power_of_two, SFmul. rewrite xorb_false_r.
  replace (m * 8388608)%positive with (Pos.iter xO m 23)
    by (rewrite Pos.mul_comm; reflexivity).
  unfold binary_round_aux, shr_fexp. cbn [Zdigits2].
  rewrite digits2_pos_iter_xO, Hd.
  replace (fexp F32.prec F32.emax (Zpos (24 + 23) + (e + (k - 23)))) with (e + k)
    by (unfold fexp, emin, F32.prec, F32.emax; lia).
  replace (e + k - (e + (k - 23))) with 23 by lia.
  cbn [shr shr_record_of_loc]. cbn [Pos.iter SpecFloat.iter_pos shr_1 orb].
  cbn [shr_m loc_of_shr_record round_nearest_even Zdigits2]. rewrite Hd.
  replace (fexp F32.prec F32.emax (24 + (e + (k - 23) + 23))) with (e + (k - 23) + 23)
    by (unfold fexp, emin, F32.prec, F32.emax; lia).
  rewrite Z.sub_diag. cbn [shr shr_record_of_loc shr_m].
  replace (e + (k - 23) + 23) with (e + k) by lia.
  destruct (Z.leb_spec (e + k) (F32.emax - F32.prec)) as [_ | Hgt]; [reflexivity |].
  unfold F32.emax, F32.prec in Hgt. lia.
Qed.

(** Flooring or ceiling a float that holds an integer times 2^k gives
    that product. *)
Lemma floor_ceil_scaled (s : bool) (m mz : positive) (ez k : Z) :
  -23 <= ez <= 0 ->
  0 <= k ->
  Zpos mz = Zpos m * 2 ^ (- ez) ->
  F32.floor_to_int (S754_finite s mz (ez + k)) = F32.to_int_checked (F32.signed s m * 2 ^ k)
  /\ F32.ceil_to_int (S754_finite s mz (ez + k)) = F32.to_int_checked (F32.signed s m * 2 ^ k).
Proof.
  intros He Hk Hmz.
  assert (Hsigned : F32.signed s mz = F32.signed s m * 2 ^ (- ez)).
  { destruct s; cbn [F32.signed cond_Zopp]; lia. }
  destruct (ez + k) as [| p | p] eqn:Hp; cbn [F32.floor_to_int F32.ceil_to_int].
  - rewrite Z.shiftl_0_r, Hsigned. replace (- ez) with k by lia. now split.
  - rewrite Z.shiftl_mul_pow2, Hsigned, <- Z.mul_assoc, <- Z.pow_add_r by lia.
    replace (- ez + Zpos p) with k by lia. now split.
  - assert (Hpos : 0 < 2 ^ Zpos p) by (apply Z.pow_pos_nonneg; lia).
    assert (Hsplit : F32.signed s mz = F32.signed s m * 2 ^ k * 2 ^ Zpos p).
    { rewrite Hsigned, <- Z.mul_assoc, <- Z.pow_add_r by lia. f_equal. f_equal. lia. }
    rewrite !Z.shiftr_div_pow2 by lia.
    rewrite Hsplit at 1. rewrite Z.div_mul by lia.
    replace (- F32.signed s mz) with (- (F32.signed s m * 2 ^ k) * 2 ^ Zpos p)
      by (rewrite Hsplit; lia).
    rewrite Z.div_mul by lia. rewrite Z.opp_involutive. now split.
Qed.

(** An integer below 2^24 in magnitude, scaled by 2^k with k at most 6,
    comes back from single precision as the exact product. *)
Lemma scale_power_of_two_exact (z k : Z) :
  0 <= k <= 6 ->
  - 2 ^ 24 < z < 2 ^ 24 ->
  F32.floor_to_int (F32.mul (F32.of_int z) (power_of_two k)) = Some (z * 2 ^ k)
  /\ F32.ceil_to_int (F32.mul (F32.of_int z) (power_of_two k)) = Some (z * 2 ^ k).
Proof.
  intros Hk Hz.
  assert (Hpow : 0 < 2 ^ k <= 2 ^ 6).
  { split; [apply Z.pow_pos_nonneg; lia | apply Z.pow_le_mono_r; lia]. }
  assert (Hint : F32.to_int_checked (z * 2 ^ k) = Some (z * 2 ^ k)).
  { unfold F32.to_int_checked, F32.INT_MIN, F32.INT_MAX.
    destruct (Z.leb_spec (- 2 ^ 31) (z * 2 ^ k));
      destruct (Z.leb_spec (z * 2 ^ k) (2 ^ 31 - 1)); cbn; try reflexivity; nia. }
  destruct z as [| m | m]; unfold F32.of_int, binary_normalize.
  - split; reflexivity.
  - destruct (binary_round_small false m) as (mz & ez & -> & Hd & He & Hmz); [lia |].
    rewrite mul_power_of_two_canonical by (assumption || lia).
    destruct (floor_ceil_scaled false m mz ez k He ltac:(lia) Hmz) as [-> ->].
    now split.
  - destruct (binary_round_small true m) as (mz & ez & -> & Hd & He & Hmz); [lia |].
    rewrite mul_power_of_two_canonical by (assumption || lia).
    destruct (floor_ceil_scaled true m mz ez k He ltac:(lia) Hmz) as [-> ->].
    now split.
Qed.

(** X14. At a power-of-two scale 2^k, k from 0 to 6 (so scale 1, 2, 4,
    ...), [damage_box_from_geometry_box] multiplies every field of a box
    exactly: no rounding shows, for fields below 2^24 in magnitude. *)
Theorem damage_box_power_of_two_scale :
  forall (O : Type) (t : framebuffer_t) (box : wlr_box) (s : O * world) (k : Z),
    0 <= k <= 6 ->
    scale t = power_of_two k ->
    - 2 ^ 24 < x box < 2 ^ 24 ->
    - 2 ^ 24 < y box < 2 ^ 24 ->
    - 2 ^ 24 < width box < 2 ^ 24 ->
    - 2 ^ 24 < height box < 2 ^ 24 ->
    damage_box_from_geometry_box t box s
    = (Returns (mk_box (x box * 2 ^ k) (y box * 2 ^ k)
                  (width box * 2 ^ k) (height box * 2 ^ k)), s).
Proof.
  intros O t box s k Hk Hscale Hx Hy Hw Hh.
  unfold damage_box_from_geometry_box. rewrite Hscale.
  rewrite (proj1 (scale_power_of_two_exact _ k Hk Hx)),
    (proj1 (scale_power_of_two_exact _ k Hk Hy)),
    (proj2 (scale_power_of_two_exact _ k Hk Hw)),
    (proj2 (scale_power_of_two_exact _ k Hk Hh)).
  reflexivity.
Qed.

Lemma damage_box_power_of_two_scale_witness :
  damage_box_from_geometry_box framebuffer_hidpi (mk_box (-3) 5 640 480) (tt, world_initial)
  = (Returns (mk_box (-6) 10 1280 960), (tt, world_initial)).
Proof.
  apply (damage_box_power_of_two_scale unit framebuffer_hidpi (mk_box (-3) 5 640 480)
           (tt, world_initial) 1 ltac:(lia) eq_refl);
    cbn; lia.
Defined.

(** ** The location caches outlive the programs *)

(** X15. Neither [free_resources] nor [set_simple] clears the location
    caches. A uniform location cached for a class is returned again after
    a different program has been registered for the class and put in use:
    OpenGL is not asked where the uniform lies in the new program, so the
    answer is the one given for the deleted program, whatever the driver
    would say now. *)
Theorem location_cache_outlives_program :
  forall (drv : gl_driver) (p : impl) (w : world) (h : Z) (c : texture_type_t)
         (name : string) (loc : Z) (cache : gmap string Z),
    length (id p) = 3%nat ->
    c <> TEXTURE_TYPE_ALL ->
    h <> 0 ->
    array_get (uniforms p) (type_index c) = Some cache ->
    cache !! name = Some loc ->
    exists s1 : impl * world,
      (set_simple h c ;; use c ;; find_uniform_loc drv name)%cxx (p, w) = (Returns loc, s1)
      /\ gl_calls (snd s1)
         = gl_calls w
             ++ map glDeleteProgram (List.filter (fun v => negb (v =? 0)) (id p))
             ++ [glUseProgram h]
      /\ uniforms (fst s1) = uniforms p
      /\ array_get (id (fst s1)) (type_index c) = Some h.
Proof.
  intros drv p w h c name loc cache Hlen Hc Hh Hcache Hloc.
  assert (Hin : (type_index c <? type_index TEXTURE_TYPE_ALL) = true)
    by (destruct c; [reflexivity .. | contradiction]).
  unfold set_simple.
  unfold bind at 1. unfold bind at 1.
  rewrite (free_resources_exact p w Hlen).
  assert (Hslot : array_get (array_set [0; 0; 0] (type_index c) h) (type_index c) = Some h)
    by (destruct c; [reflexivity .. | contradiction]).
  rewrite Hin.
  unfold assert, use, find_uniform_loc, bind, ret, this, set_this, defined, GL_CALL, modify.
  cbn [fst snd id set_id]. rewrite Hslot. unfold ret. cbv beta iota.
  destruct (Z.eqb_spec h 0) as [-> | _]; [contradiction |].
  cbn [fst snd uniforms set_id set_active_program_idx active_program_idx].
  rewrite Hcache. cbv beta iota. rewrite Hloc.
  eexists. split; [reflexivity |].
  cbn [fst snd gl_calls world_after uniforms id]. rewrite <- app_assoc.
  repeat split. exact Hslot.
Qed.

Lemma location_cache_outlives_program_witness :
  exists s1 : impl * world,
    (set_simple 8 TEXTURE_TYPE_RGBA ;; use TEXTURE_TYPE_RGBA ;;
     find_uniform_loc driver_plain "color")%cxx (program_with_cache, world_initial)
    = (Returns 4, s1)
    /\ gl_calls (snd s1) = [glDeleteProgram 7; glUseProgram 8]
    /\ uniform_location driver_plain (gl_calls (snd s1)) 8 "color" = 2.
Proof.
  destruct (location_cache_outlives_program driver_plain program_with_cache world_initial
              8 TEXTURE_TYPE_RGBA "color" 4 {["color" := 4]}
              eq_refl ltac:(discriminate) ltac:(lia) eq_refl eq_refl)
    as (s1 & Hrun & Hcalls & _).
  exists s1. split; [exact Hrun |]. split; [exact Hcalls | reflexivity].
Defined.

(** ** Error polling *)

(** X16. [gl_call] polls [glGetError] a second time to name the error it
    reports. The error that triggered the report is therefore never the
    one named: the line names the code recorded next and takes it off the
    record as well, and when a single error was recorded the line reads
    "UNKNOWN GL ERROR". With nothing recorded nothing is logged. *)
Theorem gl_call_names_the_next_error :
  forall (func glfunc : string) (line err : Z) (rest : list Z) (log : list string),
    err <> GlError.GL_NO_ERROR ->
    GlError.gl_call func line glfunc {| GlError.pending := []; GlError.error_log := log |}
    = (Returns tt, {| GlError.pending := []; GlError.error_log := log |})
    /\ GlError.gl_call func line glfunc
         {| GlError.pending := err :: rest; GlError.error_log := log |}
       = (Returns tt,
          {| GlError.pending := tl rest;
             GlError.error_log :=
               log ++ [GlError.report_head func line glfunc
                       +:+ GlError.gl_error_string (hd GlError.GL_NO_ERROR rest)] |})
    /\ (rest = [] ->
        GlError.gl_error_string (hd GlError.GL_NO_ERROR rest) = "UNKNOWN GL ERROR").
Proof.
  intros func glfunc line err rest log Herr.
  split; [reflexivity |]. split.
  - unfold GlError.gl_call, GlError.glGetError, bind. cbn [GlError.pending GlError.error_log].
    destruct (Z.eqb_spec err GlError.GL_NO_ERROR) as [-> | _]; [contradiction |].
    destruct rest as [| named rest']; reflexivity.
  - intros ->. reflexivity.
Qed.

Lemma gl_call_names_the_next_error_witness :
  GlError.gl_call "render_end" 252 "glBindFramebuffer(GL_FRAMEBUFFER, 0)"
    {| GlError.pending := [GlError.GL_INVALID_OPERATION]; GlError.error_log := [] |}
  = (Returns tt,
     {| GlError.pending := [];
        GlError.error_log :=
          ["gles2: function glBindFramebuffer(GL_FRAMEBUFFER, 0) in render_end line 252: "
           +:+ "UNKNOWN GL ERROR"] |}).
Proof.
  exact (proj1 (proj2 (gl_call_names_the_next_error "render_end"
                         "glBindFramebuffer(GL_FRAMEBUFFER, 0)" 252
                         GlError.GL_INVALID_OPERATION [] [] ltac:(discriminate)))).
Defined.

(** ** Substituting the built-in symbols *)

Lemma find_empty (s : string) : find s "" = Some 0%nat.
Proof. destruct s; reflexivity. Qed.

Lemma substring_prefix_split (b s : string) :
  String.substring 0 (String.length b) s = b ->
  exists post : string, substr_from (String.length b) s = Some post /\ s = b +:+ post.
Proof.
  revert s. induction b as [| a b IH]; intros s Hsub.
  - exists s. split; reflexivity.
  - destruct s as [| c s']; [discriminate |].
    cbn in Hsub. injection Hsub as -> Hsub.
    destruct (IH s' Hsub) as (post & Hfrom & ->).
    exists post. split; [exact Hfrom | reflexivity].
Qed.

Lemma substring_occurrence_split (pos : nat) (b s : string) :
  (b = "" -> pos = 0%nat) ->
  String.substring pos (String.length b) s = b ->
  exists post : string,
    substr_from (pos + String.length b) s = Some post
    /\ s = String.substring 0 pos s +:+ b +:+ post.
Proof.
  revert s. induction pos as [| n IH]; intros s Hempty Hsub.
  - destruct (substring_prefix_split b s Hsub) as (post & Hfrom & Hs).
    exists post. split; [exact Hfrom |].
    destruct s; exact Hs.
  - destruct s as [| c s'].
    + cbn in Hsub. subst b. now specialize (Hempty eq_refl).
    + cbn [String.substring] in Hsub.
      assert (Hb : b <> "") by (intros ->; now specialize (Hempty eq_refl)).
      destruct (IH s' ltac:(intros; contradiction) Hsub) as (post & Hfrom & Hs).
      exists post. split; [exact Hfrom |].
      change (String c s' = String c (String.substring 0 n s' +:+ b +:+ post)).
      now f_equal.
Qed.

Lemma substring_prefix_length (pos : nat) (s : string) :
  (String.length (String.substring 0 pos s) <= pos)%nat.
Proof.
  revert s. induction pos as [| n IH]; intros [| c s']; cbn; try lia.
  specialize (IH s'). lia.
Qed.

(** What [replace_builtin_with] does once [find] has answered. *)
Lemma replace_builtin_with_found {S : Type} (source builtin_ with_ : string) (pos : nat)
    (st : S) :
  find source builtin_ = Some pos ->
  exists pre post : string,
    source = pre +:+ builtin_ +:+ post
    /\ (String.length pre <= pos)%nat
    /\ replace_builtin_with source builtin_ with_ st = (Returns (pre +:+ with_ +:+ post), st).
Proof.
  intros Hfind.
  assert (Hempty : builtin_ = "" -> pos = 0%nat).
  { intros ->. rewrite find_empty in Hfind. now injection Hfind. }
  destruct (substring_occurrence_split pos builtin_ source Hempty
              (String.index_correct1 _ _ _ _ Hfind)) as (post & Hfrom & Hs).
  exists (String.substring 0 pos source), post.
  split; [exact Hs |]. split; [apply substring_prefix_length |].
  unfold replace_builtin_with. rewrite Hfind.
  unfold substr_or_raise, substr, bind, ret. cbn [substr_from]. now rewrite Hfrom.
Qed.

(** X17. [replace_builtin_with] never raises, and replaces the leftmost
    occurrence only: either the symbol occurs nowhere in the source and
    the source is returned as it is, or the source is [pre builtin post]
    with no occurrence starting inside [pre], and [pre with post] is
    returned. *)
Theorem replace_builtin_with_first_occurrence :
  forall (S : Type) (source builtin_ with_ : string) (st : S),
    (exists pre post : string,
        source = pre +:+ builtin_ +:+ post
        /\ (forall q : nat,
               (q < String.length pre)%nat ->
               String.substring q (String.length builtin_) source <> builtin_)
        /\ replace_builtin_with source builtin_ with_ st
           = (Returns (pre +:+ with_ +:+ post), st))
    \/ ((forall q : nat, String.substring q (String.length builtin_) source <> builtin_)
        /\ replace_builtin_with source builtin_ with_ st = (Returns source, st)).
Proof.
  intros S source builtin_ with_ st.
  destruct (find source builtin_) as [pos |] eqn:Hfind.
  - left.
    destruct (replace_builtin_with_found source builtin_ with_ pos st Hfind)
      as (pre & post & Hs & Hlen & Hrun).
    exists pre, post. split; [exact Hs |]. split; [| exact Hrun].
    intros q Hq. apply (String.index_correct2 _ _ _ _ Hfind); lia.
  - right. split.
    + intros q. apply (String.index_correct3 0 q _ _ Hfind); [| lia].
      intros ->. now rewrite find_empty in Hfind.
    + unfold replace_builtin_with. now rewrite Hfind.
Qed.

(** X18. Substituting a symbol by itself gives the source back. *)
Theorem replace_builtin_with_itself :
  forall (S : Type) (source builtin_ : string) (st : S),
    replace_builtin_with source builtin_ builtin_ st = (Returns source, st).
Proof.
  intros S source builtin_ st.
  destruct (find source builtin_) as [pos |] eqn:Hfind.
  - destruct (replace_builtin_with_found source builtin_ builtin_ pos st Hfind)
      as (pre & post & Hs & _ & Hrun).
    now rewrite Hrun, <- Hs.
  - unfold replace_builtin_with. now rewrite Hfind.
Qed.

(** ** Merging the EGL configuration attributes *)

Lemma default_attribs_appended (attribs : list Z) :
  fold_left (fun acc p => acc ++ [fst p; snd p]) default_attribs attribs
  = attribs ++ attrib_pairs default_attribs.
Proof. cbn. now rewrite <- !app_assoc. Qed.

Lemma attrib_pairs_app (ps qs : list (Z * Z)) :
  attrib_pairs (ps ++ qs) = attrib_pairs ps ++ attrib_pairs qs.
Proof. unfold attrib_pairs. apply flat_map_app. Qed.

Lemma copy_renderer_attribs_pairs (pairs : list (Z * Z)) (junk attribs : list Z) :
  Forall (fun p => fst p <> EGL_NONE) pairs ->
  copy_renderer_attribs (attrib_pairs pairs ++ EGL_NONE :: junk) attribs
  = Returns (attribs ++ attrib_pairs (not_overridden pairs)).
Proof.
  intros Hkeys. revert attribs.
  induction Hkeys as [| [key value] pairs Hkey _ IH]; intros attribs.
  - cbn. now rewrite app_nil_r.
  - cbn [attrib_pairs flat_map fst snd app copy_renderer_attribs].
    cbn [fst] in Hkey. destruct (Z.eqb_spec key EGL_NONE) as [-> | _]; [contradiction |].
    fold (attrib_pairs pairs). unfold not_overridden. cbn [List.filter fst].
    destruct (count default_attribs key); cbn [negb].
    + apply IH.
    + rewrite IH. cbn [attrib_pairs flat_map fst snd app].
      now rewrite <- app_assoc.
Qed.

Lemma not_overridden_idempotent (pairs : list (Z * Z)) :
  not_overridden (not_overridden pairs ++ default_attribs) = not_overridden pairs.
Proof.
  unfold not_overridden. rewrite List.filter_app.
  change (List.filter (fun p => negb (count default_attribs (fst p))) default_attribs)
    with (@nil (Z * Z)).
  rewrite app_nil_r. induction pairs as [| p pairs IH]; [reflexivity |].
  cbn [List.filter]. destruct (negb (count default_attribs (fst p))) eqn:Hp.
  - cbn [List.filter]. now rewrite Hp, IH.
  - exact IH.
Qed.

Lemma not_overridden_keys (pairs : list (Z * Z)) :
  Forall (fun p => fst p <> EGL_NONE) pairs ->
  Forall (fun p => fst p <> EGL_NONE) (not_overridden pairs ++ default_attribs).
Proof.
  intros Hkeys. apply Forall_app. split.
  - unfold not_overridden. rewrite List.Forall_forall in *.
    intros p Hp. apply List.filter_In in Hp. now apply Hkeys.
  - repeat constructor; discriminate.
Qed.

Lemma generate_config_attribs_shape (pairs : list (Z * Z)) (junk : list Z) :
  Forall (fun p => fst p <> EGL_NONE) pairs ->
  generate_config_attribs (Some (attrib_pairs pairs ++ EGL_NONE :: junk))
  = Returns (attrib_pairs (not_overridden pairs ++ default_attribs) ++ [EGL_NONE]).
Proof.
  intros Hkeys. unfold generate_config_attribs.
  rewrite (copy_renderer_attribs_pairs pairs junk [] Hkeys), default_attribs_appended.
  now rewrite attrib_pairs_app.
Qed.

(** X19. [generate_config_attribs] on a terminated attribute array gives
    the renderer's pairs whose key the defaults do not hold, in their
    order, then the four default pairs, then [EGL_NONE]; nothing behind
    the terminator is read, and a value equal to [EGL_NONE] does not end
    the list. In the result each default key is bound once, to 1. From the
    null pointer the result is the defaults alone. *)
Theorem generate_config_attribs_merges :
  forall (pairs : list (Z * Z)) (junk : list Z),
    Forall (fun p => fst p <> EGL_NONE) pairs ->
    generate_config_attribs (Some (attrib_pairs pairs ++ EGL_NONE :: junk))
    = Returns (attrib_pairs (not_overridden pairs ++ default_attribs) ++ [EGL_NONE])
    /\ (forall key : Z,
           count default_attribs key = true ->
           List.filter (fun p => fst p =? key) (not_overridden pairs ++ default_attribs)
           = [(key, 1)])
    /\ generate_config_attribs None = Returns (attrib_pairs default_attribs ++ [EGL_NONE]).
Proof.
  intros pairs junk Hkeys. split; [| split].
  - exact (generate_config_attribs_shape pairs junk Hkeys).
  - intros key Hkey. rewrite List.filter_app.
    assert (Hnone : List.filter (fun p => fst p =? key) (not_overridden pairs) = []).
    { unfold not_overridden. induction pairs as [| p pairs IH]; [reflexivity |].
      inversion Hkeys; subst. cbn [List.filter].
      destruct (count default_attribs (fst p)) eqn:Hp; cbn [negb]; [now apply IH |].
      cbn [List.filter]. destruct (Z.eqb_spec (fst p) key) as [Heq | _]; [| now apply IH].
      rewrite Heq in Hp. congruence. }
    rewrite Hnone. cbn [app].
    unfold count, default_attribs in Hkey. cbn [existsb fst] in Hkey.
    unfold default_attribs. cbn [List.filter fst].
    destruct (Z.eqb_spec EGL_BLUE_SIZE key) as [Heq | _]; [now rewrite <- Heq |].
    destruct (Z.eqb_spec EGL_GREEN_SIZE key) as [Heq | _]; [now rewrite <- Heq |].
    destruct (Z.eqb_spec EGL_RED_SIZE key) as [Heq | _]; [now rewrite <- Heq |].
    destruct (Z.eqb_spec EGL_DEPTH_SIZE key) as [Heq | _]; [now rewrite <- Heq | discriminate].
  - reflexivity.
Qed.

Lemma generate_config_attribs_merges_witness :
  generate_config_attribs (Some [0x3033; 4; EGL_RED_SIZE; 8; 0x3027; EGL_NONE; EGL_NONE; 99])
  = Returns [0x3033; 4; 0x3027; EGL_NONE;
             EGL_BLUE_SIZE; 1; EGL_GREEN_SIZE; 1; EGL_RED_SIZE; 1; EGL_DEPTH_SIZE; 1;
             EGL_NONE].
Proof.
  exact (proj1 (generate_config_attribs_merges
                  [(0x3033, 4); (EGL_RED_SIZE, 8); (0x3027, EGL_NONE)] [99]
                  ltac:(repeat constructor; discriminate))).
Defined.

(** Whatever the first loop returns, it has read a terminated array of
    pairs. *)
Lemma copy_renderer_attribs_returns (n : nat) :
  forall (mem attribs out : list Z),
    (length mem <= n)%nat ->
    copy_renderer_attribs mem attribs = Returns out ->
    exists (pairs : list (Z * Z)) (junk : list Z),
      mem = attrib_pairs pairs ++ EGL_NONE :: junk
      /\ Forall (fun p => fst p <> EGL_NONE) pairs.
Proof.
  induction n as [| n IH]; intros mem attribs out Hlen Hrun.
  - destruct mem; [discriminate | cbn in Hlen; lia].
  - destruct mem as [| key mem']; [discriminate |].
    cbn [copy_renderer_attribs] in Hrun.
    destruct (Z.eqb_spec key EGL_NONE) as [-> | Hkey].
    + exists [], mem'. split; [reflexivity | constructor].
    + destruct mem' as [| value mem'']; [discriminate |].
      cbn [length] in Hlen.
      assert (Hrec : exists attribs', copy_renderer_attribs mem'' attribs' = Returns out)
        by (destruct (count default_attribs key); eexists; exact Hrun).
      destruct Hrec as (attribs' & Hrec).
      destruct (IH mem'' attribs' out ltac:(lia) Hrec) as (pairs & junk & -> & Hkeys).
      exists ((key, value) :: pairs), junk. split; [reflexivity |].
      constructor; [exact Hkey | exact Hkeys].
Qed.

(** X20. [generate_config_attribs] is idempotent: whenever it returns an
    array, running it on that array returns the same array. *)
Theorem generate_config_attribs_idempotent :
  forall (renderer_attribs : option (list Z)) (out : list Z),
    generate_config_attribs renderer_attribs = Returns out ->
    generate_config_attribs (Some out) = Returns out.
Proof.
  intros renderer_attribs out Hrun.
  assert (Hshape : exists pairs : list (Z * Z),
             Forall (fun p => fst p <> EGL_NONE) pairs
             /\ out = attrib_pairs (not_overridden pairs ++ default_attribs) ++ [EGL_NONE]).
  { destruct renderer_attribs as [mem |].
    - unfold generate_config_attribs in Hrun.
      destruct (copy_renderer_attribs mem []) as [attribs | | |] eqn:Hcopy;
        try discriminate.
      destruct (copy_renderer_attribs_returns (length mem) mem [] attribs (le_n _) Hcopy)
        as (pairs & junk & -> & Hkeys).
      exists pairs. split; [exact Hkeys |].
      pose proof (generate_config_attribs_shape pairs junk Hkeys) as Hspec.
      unfold generate_config_attribs in Hspec. rewrite Hcopy in Hspec.
      congruence.
    - exists []. split; [constructor |]. cbn in Hrun. now injection Hrun as <-. }
  destruct Hshape as (pairs & Hkeys & ->).
  rewrite (generate_config_attribs_shape _ [] (not_overridden_keys pairs Hkeys)).
  now rewrite not_overridden_idempotent.
Qed.

Lemma generate_config_attribs_idempotent_witness :
  generate_config_attribs
    (Some [EGL_BLUE_SIZE; 1; EGL_GREEN_SIZE; 1; EGL_RED_SIZE; 1; EGL_DEPTH_SIZE; 1; EGL_NONE])
  = Returns [EGL_BLUE_SIZE; 1; EGL_GREEN_SIZE; 1; EGL_RED_SIZE; 1; EGL_DEPTH_SIZE; 1; EGL_NONE].
Proof.
  exact (generate_config_attribs_idempotent None _ eq_refl).
Defined.

(** X21. An attribute array that is not terminated where a key is
    expected makes [generate_config_attribs] read past its end: the
    behaviour is undefined both for a run of pairs without [EGL_NONE] and
    for one cut after a key. *)
Theorem generate_config_attribs_unterminated :
  forall (pairs : list (Z * Z)) (key : Z),
    Forall (fun p => fst p <> EGL_NONE) pairs ->
    key <> EGL_NONE ->
    generate_config_attribs (Some (attrib_pairs pairs)) = Undefined
    /\ generate_config_attribs (Some (attrib_pairs pairs ++ [key])) = Undefined.
Proof.
  intros pairs key Hkeys Hkey.
  assert (Hcopy : forall tail attribs,
             (forall acc, copy_renderer_attribs tail acc = Undefined) ->
             copy_renderer_attribs (attrib_pairs pairs ++ tail) attribs = Undefined).
  { intros tail attribs Htail. revert attribs.
    induction Hkeys as [| [k v] ps Hk _ IH]; intros attribs; [apply Htail |].
    cbn [attrib_pairs flat_map fst snd app copy_renderer_attribs]. cbn [fst] in Hk.
    destruct (Z.eqb_spec k EGL_NONE) as [-> | _]; [contradiction |].
    fold (attrib_pairs ps). destruct (count default_attribs k); apply IH. }
  unfold generate_config_attribs. split.
  - rewrite <- (app_nil_r (attrib_pairs pairs)).
    rewrite Hcopy; [reflexivity | reflexivity].
  - rewrite Hcopy; [reflexivity |].
    intros acc. cbn. destruct (Z.eqb_spec key EGL_NONE); [contradiction | reflexivity].
Qed.

Lemma generate_config_attribs_unterminated_witness :
  generate_config_attribs (Some [0x3033; 4; EGL_RED_SIZE; 8]) = Undefined
  /\ generate_config_attribs (Some [0x3033; 4; EGL_RED_SIZE; 8; 0x3027]) = Undefined.
Proof.
  exact (generate_config_attribs_unterminated [(0x3033, 4); (EGL_RED_SIZE, 8)] 0x3027
           ltac:(repeat constructor; discriminate) ltac:(discriminate)).
Defined.

(** ** Releasing and moving render targets *)

Lemma session_after_nil (s : session) : session_after s [] = s.
Proof. destruct s. unfold session_after. cbn. now rewrite app_nil_r. Qed.

Lemma session_after_app (s : session) (es es' : list gl_event) :
  session_after (session_after s es) es' = session_after s (es ++ es').
Proof. unfold session_after. cbn. now rewrite app_assoc. Qed.

(** A method that appends the calls [cs] to the world appends them to the
    session. *)
Lemma in_world_run {O A : Type} (m : M (O * world) A) (o o' : O) (s : session)
    (r : outcome A) (cs : list gl_call) :
  m (o, world_of s) = (r, (o', world_after (world_of s) cs)) ->
  in_world m (o, s) = (r, (o', session_after s (map inl cs))).
Proof.
  intros Hrun. unfold in_world. cbn [fst snd]. rewrite Hrun.
  unfold world_after, session_after. cbn [gl_calls log_lines world_of].
  now rewrite drop_app_length.
Qed.

Lemma in_world_this {O : Type} (o : O) (s : session) :
  in_world this (o, s) = (Returns o, (o, s)).
Proof.
  rewrite (in_world_run this o o s (Returns o) []).
  - now rewrite session_after_nil.
  - now rewrite world_after_nil.
Qed.

Lemma in_world_set_this {O : Type} (o o' : O) (s : session) :
  in_world (set_this o') (o, s) = (Returns tt, (o', s)).
Proof.
  rewrite (in_world_run (set_this o') o o' s (Returns tt) []).
  - now rewrite session_after_nil.
  - now rewrite world_after_nil.
Qed.

Lemma in_world_reset (t : framebuffer_base_t) (s : session) :
  in_world reset (t, s) = (Returns tt, (framebuffer_base_default, s)).
Proof. apply in_world_set_this. Qed.

(** What [release] issues for the object [t]. *)
Lemma release_run (t : framebuffer_base_t) (s : session) :
  release (t, s)
  = (Returns tt,
     (framebuffer_base_default,
      session_after s
        (map inr
           ((if negb (fb t =? UINT32_MAX) && negb (fb t =? 0)
             then [glDeleteFramebuffers 1 [fb t]] else [])
            ++ (if negb (tex t =? UINT32_MAX) && (negb (fb t =? 0) || negb (tex t =? 0))
                then [glDeleteTextures 1 [tex t]] else []))))).
Proof.
  unfold release. unfold bind at 1. rewrite in_world_this.
  destruct (negb (fb t =? UINT32_MAX) && negb (fb t =? 0));
    destruct (negb (tex t =? UINT32_MAX) && (negb (fb t =? 0) || negb (tex t =? 0)));
    unfold bind, GL_CALL_MORE, modify, ret; cbn [fst snd];
    rewrite in_world_reset, ?session_after_app; cbn [app map];
    rewrite ?session_after_nil; reflexivity.
Qed.

(** X22. [release] deletes what the object holds and nothing else: its
    framebuffer unless that is unset or the default framebuffer 0, and its
    texture unless that is unset or goes with the default framebuffer (both
    names 0). It leaves the object in the default state, so that a second
    [release] issues no call and a [reset] after it changes nothing. *)
Theorem release_deletes_what_is_held :
  forall (t : framebuffer_base_t) (s : session),
    exists ds : list gl_call_more,
      let s' := session_after s (map inr ds) in
      release (t, s) = (Returns tt, (framebuffer_base_default, s'))
      /\ deleted_framebuffers (map inr ds) = owned_framebuffers [t]
      /\ deleted_textures (map inr ds) = owned_textures [t]
      /\ base_calls (events s') = base_calls (events s)
      /\ (length ds <= 2)%nat
      /\ release (framebuffer_base_default, s') = (Returns tt, (framebuffer_base_default, s'))
      /\ (release ;; in_world reset)%cxx (t, s) = release (t, s).
Proof.
  intros t s. eexists. cbv zeta. split; [apply release_run |].
  split; [| split; [| split; [| split; [| split]]]].
  - unfold owned_framebuffers. cbn [flat_map]. rewrite app_nil_r.
    destruct (negb (fb t =? UINT32_MAX) && negb (fb t =? 0));
      destruct (negb (tex t =? UINT32_MAX) && (negb (fb t =? 0) || negb (tex t =? 0)));
      reflexivity.
  - unfold owned_textures. cbn [flat_map]. rewrite app_nil_r.
    destruct (negb (fb t =? UINT32_MAX) && negb (fb t =? 0));
      destruct (negb (tex t =? UINT32_MAX) && (negb (fb t =? 0) || negb (tex t =? 0)));
      reflexivity.
  - unfold session_after, base_calls. cbn [events]. rewrite omap_app.
    destruct (negb (fb t =? UINT32_MAX) && negb (fb t =? 0));
      destruct (negb (tex t =? UINT32_MAX) && (negb (fb t =? 0) || negb (tex t =? 0)));
      cbn; now rewrite app_nil_r.
  - destruct (negb (fb t =? UINT32_MAX) && negb (fb t =? 0));
      destruct (negb (tex t =? UINT32_MAX) && (negb (fb t =? 0) || negb (tex t =? 0)));
      cbn; lia.
  - rewrite release_run. cbn. now rewrite session_after_nil.
  - unfold bind. rewrite release_run. now rewrite in_world_reset.
Qed.

Lemma at_object_this (st : store) (s : session) (addr : nat) (o : framebuffer_base_t) :
  st !! addr = Some o ->
  at_object addr (in_world this) (st, s) = (Returns o, (st, s)).
Proof.
  intros Hat. unfold at_object. cbn [fst snd]. rewrite Hat, in_world_this.
  cbn [fst snd]. do 2 f_equal. exact (list_insert_id _ _ _ Hat).
Qed.

Lemma at_object_set_this (st : store) (s : session) (addr : nat)
    (o o' : framebuffer_base_t) :
  st !! addr = Some o ->
  at_object addr (in_world (set_this o')) (st, s) = (Returns tt, (<[addr := o']> st, s)).
Proof.
  intros Hat. unfold at_object. cbn [fst snd]. now rewrite Hat, in_world_set_this.
Qed.

Lemma at_object_dangling {A : Type} (st : store) (s : session) (addr : nat)
    (m : M (framebuffer_base_t * session) A) :
  st !! addr = None -> at_object addr m (st, s) = (Undefined, (st, s)).
Proof. intros Hat. unfold at_object. cbn [fst snd]. now rewrite Hat. Qed.

(** [copy_state] between two different objects. *)
Lemma copy_state_run (st : store) (s : session) (this_ other : nat)
    (t o : framebuffer_base_t) :
  this_ <> other ->
  st !! this_ = Some t ->
  st !! other = Some o ->
  copy_state this_ other (st, s)
  = (Returns tt, (<[other := framebuffer_base_default]> (<[this_ := o]> st), s)).
Proof.
  intros Hne Hthis Hother.
  pose proof (lookup_lt_Some _ _ _ Hthis) as Hlt.
  unfold copy_state.
  repeat (unfold bind at 1;
          first [ rewrite (at_object_this _ _ other o)
                    by (rewrite ?list_lookup_insert_ne by congruence; exact Hother)
                | erewrite (at_object_this _ _ this_)
                    by first [ exact Hthis
                             | apply list_lookup_insert_eq; rewrite ?length_insert; exact Hlt ]
                | erewrite (at_object_set_this _ _ this_)
                    by first [ exact Hthis
                             | apply list_lookup_insert_eq; rewrite ?length_insert; exact Hlt ] ];
          cbn [tex fb viewport_width viewport_height];
          rewrite ?list_insert_insert_eq).
  unfold reset. erewrite (at_object_set_this _ _ other)
    by (rewrite list_lookup_insert_ne by congruence; exact Hother).
  destruct o. reflexivity.
Qed.



(** X24. What [allocate] generates, [release] deletes. On a fresh render
    target, a successful [allocate] followed by [release] ends with the
    deletion of the framebuffer and of the texture that OpenGL named during
    the allocation, each once and in this order, and with the target back
    in the default state. *)
Theorem release_deletes_what_allocate_generated :
  forall (drv : gl_driver) (width height : Z) (s : session),
    (forall cs, framebuffer_status drv cs = GL_FRAMEBUFFER_COMPLETE) ->
    (forall cs, gen_name drv cs <> 0) ->
    (forall cs, gen_name drv cs <> UINT32_MAX) ->
    exists (cs : list gl_call) (fb_name tex_name : Z),
      (in_world (allocate drv width height) ;; release)%cxx (framebuffer_base_default, s)
      = (Returns tt,
         (framebuffer_base_default,
          session_after s
            (map inl cs ++ [inr (glDeleteFramebuffers 1 [fb_name]);
                            inr (glDeleteTextures 1 [tex_name])])))
      /\ fb_name = gen_name drv (base_calls (events s) ++ [glGenFramebuffers 1])
      /\ tex_name
         = gen_name drv (base_calls (events s) ++ [glGenFramebuffers 1; glGenTextures 1]).
Proof.
  intros drv width height s Hstatus Hname Hset.
  destruct (allocate_first drv width height (world_of s) Hstatus Hname)
    as (cs & fb_name & tex_name & Hrun & Hfb & Htex & _).
  exists cs, fb_name, tex_name. split; [| split; [exact Hfb | exact Htex]].
  unfold bind. rewrite (in_world_run _ _ _ _ _ cs Hrun), release_run.
  cbn [fb tex].
  destruct (Z.eqb_spec fb_name UINT32_MAX) as [Heq | _];
    [rewrite Hfb in Heq; now apply Hset in Heq |].
  destruct (Z.eqb_spec fb_name 0) as [Heq | _];
    [rewrite Hfb in Heq; now apply Hname in Heq |].
  destruct (Z.eqb_spec tex_name UINT32_MAX) as [Heq | _];
    [rewrite Htex in Heq; now apply Hset in Heq |].
  cbn [negb andb orb app map]. now rewrite session_after_app.
Qed.

Lemma release_deletes_what_allocate_generated_witness :
  exists cs : list gl_call,
    (in_world (allocate driver_plain 640 480) ;; release)%cxx
      (framebuffer_base_default, session_initial)
    = (Returns tt,
       (framebuffer_base_default,
        session_after session_initial
          (map inl cs ++ [inr (glDeleteFramebuffers 1 [1]); inr (glDeleteTextures 1 [1])]))).
Proof.
  destruct (release_deletes_what_allocate_generated driver_plain 640 480 session_initial
              ltac:(reflexivity) ltac:(discriminate) ltac:(discriminate))
    as (cs & fb_name & tex_name & Hrun & Hfb & Htex).
  exists cs. rewrite Hrun, Hfb, Htex. reflexivity.
Defined.

(** X25. The move constructor makes no OpenGL call: the new object, at
    the next free address, takes the four fields of the source, and the
    source is left in the default state, holding nothing. Moving from an
    address at which there is no object is undefined. *)
Theorem move_construct_transfers_ownership :
  forall (st : store) (s : session) (other : nat) (o : framebuffer_base_t),
    st !! other = Some o ->
    move_construct other (st, s)
    = (Returns (length st),
       (<[other := framebuffer_base_default]> st ++ [o], s))
    /\ owned_framebuffers [framebuffer_base_default] = []
    /\ owned_textures [framebuffer_base_default] = []
    /\ forall dangling : nat,
        st !! dangling = None -> dangling <> length st ->
        fst (move_construct dangling (st, s)) = Undefined.
Proof.
  intros st s other o Hother.
  pose proof (lookup_lt_Some _ _ _ Hother) as Hlt.
  split; [| split; [reflexivity | split; [reflexivity |]]].
  - unfold move_construct. cbn [fst snd]. unfold bind at 1.
    rewrite (copy_state_run _ _ (length st) other framebuffer_base_default o).
    + unfold ret. do 2 f_equal.
      rewrite insert_app_r_alt by reflexivity. rewrite Nat.sub_diag. cbn [insert list_insert].
      now rewrite insert_app_l by exact Hlt.
    + lia.
    + now rewrite lookup_app_r, Nat.sub_diag by reflexivity.
    + now apply lookup_app_l_Some.
  - intros dangling Hnone Hnew.
    unfold move_construct. cbn [fst snd]. unfold bind at 1. unfold copy_state.
    unfold bind at 1. rewrite at_object_dangling; [reflexivity |].
    apply lookup_ge_None. apply lookup_ge_None in Hnone.
    rewrite length_app. cbn [length]. lia.
Qed.

Lemma move_construct_transfers_ownership_witness :
  move_construct 0 ([mk_framebuffer_base 3 4 10 10], session_initial)
  = (Returns 1%nat,
     ([framebuffer_base_default; mk_framebuffer_base 3 4 10 10], session_initial)).
Proof.
  exact (proj1 (move_construct_transfers_ownership [mk_framebuffer_base 3 4 10 10]
                  session_initial 0 (mk_framebuffer_base 3 4 10 10) eq_refl)).
Defined.

(** ** Compiling shaders and programs *)

Lemma session_with_nil (s : session) : session_with s [] [] = s.
Proof. destruct s. unfold session_with. cbn. now rewrite !app_nil_r. Qed.

Lemma session_with_with (s : session) (es es' : list gl_event) (ls ls' : list string) :
  session_with (session_with s es ls) es' ls' = session_with s (es ++ es') (ls ++ ls').
Proof. unfold session_with. cbn. now rewrite !app_assoc. Qed.

Lemma session_after_with (s : session) (es : list gl_event) :
  session_after s es = session_with s es [].
Proof. unfold session_after, session_with. now rewrite app_nil_r. Qed.

Lemma in_world_LOGE {O : Type} (line : string) (o : O) (s : session) :
  in_world (LOGE line) (o, s) = (Returns tt, (o, session_with s [] [line])).
Proof.
  unfold in_world, LOGE, modify, session_with. cbn [fst snd gl_calls log_lines world_of].
  now rewrite drop_all.
Qed.

(** One run of [compile_shader]: the five calls, and the outcome by the
    status OpenGL reports. *)
Lemma compile_shader_run {O : Type} (cmp : gl_compiler) (source : string) (type : Z)
    (o : O) (s : session) :
  let shader := created_name cmp (events s ++ [inr (glCreateShader type)]) in
  let status :=
    compile_status cmp (events s ++ map inr (take 4 (shader_calls shader type source))) in
  let b1 := info_log cmp (events s ++ map inr (shader_calls shader type source)) in
  compile_shader cmp source type (o, s)
  = (Returns (if status =? 0 then UINT32_MAX else shader),
     (o, session_with s (map inr (shader_calls shader type source))
           (if status =? 0 then [failure_line source b1] else []))).
Proof.
  cbv zeta. unfold compile_shader, bind, GL_CALL_MORE, session_events, modify, ret.
  cbn [fst snd events session_after take shader_calls map].
  rewrite <- !app_assoc. cbn [app].
  destruct (compile_status cmp _ =? 0).
  - rewrite in_world_LOGE. unfold session_with, session_after, failure_line.
    cbn [events session_log]. rewrite ?app_nil_r, <- ?app_assoc. reflexivity.
  - unfold session_with, session_after. cbn [events session_log].
    rewrite ?app_nil_r, <- ?app_assoc. reflexivity.
Qed.

(** X26. [compile_program] does not look at the outcome of the two shader
    compilations. It always returns the name OpenGL gave to the one program
    it creates, after the same sixteen calls; what it attaches and deletes
    is the value [compile_shader] returned, so for a rejected shader
    (status 0) it attaches and deletes [(GLuint)-1] in place of the shader
    object created for it. The failure line of each rejected shader is
    among the lines logged, and no drawing call is made. *)
Theorem compile_program_ignores_rejected_shaders :
  forall (O : Type) (cmp : gl_compiler) (vertex_source frag_source : string)
         (o : O) (s : session),
    exists (created_vs created_fs vstatus fstatus program : Z) (lines : list string)
           (s' : session),
      let vs := if vstatus =? 0 then UINT32_MAX else created_vs in
      let fs := if fstatus =? 0 then UINT32_MAX else created_fs in
      let vertex_calls := shader_calls created_vs GL_VERTEX_SHADER vertex_source in
      let fragment_calls := shader_calls created_fs GL_FRAGMENT_SHADER frag_source in
      compile_program cmp vertex_source frag_source (o, s) = (Returns program, (o, s'))
      /\ s' = session_with s
                (map inr (vertex_calls ++ fragment_calls ++ link_calls program vs fs))
                lines
      /\ vstatus = compile_status cmp (events s ++ map inr (take 4 vertex_calls))
      /\ fstatus
         = compile_status cmp (events s ++ map inr (vertex_calls ++ take 4 fragment_calls))
      /\ created_shaders cmp (events s) (drop (length (events s)) (events s'))
         = [created_vs; created_fs]
      /\ program
         = created_name cmp
             (events s ++ map inr (vertex_calls ++ fragment_calls ++ [glCreateProgram]))
      /\ created_programs cmp (events s) (drop (length (events s)) (events s')) = [program]
      /\ deleted_shaders (drop (length (events s)) (events s')) = [vs; fs]
      /\ (vstatus = 0 ->
          In (failure_line vertex_source
                (info_log cmp (events s ++ map inr vertex_calls))) lines)
      /\ (fstatus = 0 ->
          In (failure_line frag_source
                (info_log cmp (events s ++ map inr (vertex_calls ++ fragment_calls)))) lines)
      /\ base_calls (events s') = base_calls (events s).
Proof.
  intros O cmp vertex_source frag_source o s.
  unfold compile_program. unfold bind at 1. rewrite compile_shader_run.
  set (created_vs := created_name cmp (events s ++ [inr (glCreateShader GL_VERTEX_SHADER)])).
  set (vstatus := compile_status cmp _).
  set (vlog := info_log cmp _).
  set (s1 := session_with s _ _).
  unfold bind at 1. rewrite compile_shader_run.
  set (created_fs := created_name cmp (events s1 ++ [inr (glCreateShader GL_FRAGMENT_SHADER)])).
  set (fstatus := compile_status cmp _).
  set (flog := info_log cmp _).
  set (s2 := session_with s1 _ _).
  unfold bind, GL_CALL_MORE, session_events, modify, ret. cbn [fst snd].
  rewrite !session_after_app. cbn [app].
  set (program := created_name cmp _).
  exists created_vs, created_fs, vstatus, fstatus, program.
  eexists. eexists. cbv zeta. split; [reflexivity |].
  split.
  { rewrite session_after_with. unfold s2, s1. rewrite !session_with_with.
    rewrite !map_app, <- ?app_assoc, ?app_nil_r. reflexivity. }
  split; [reflexivity |].
  split.
  { unfold fstatus, s1, session_with. cbn [events]. now rewrite map_app, <- !app_assoc. }
  assert (Hprogram : program
                     = created_name cmp
                         (events s
                          ++ map inr (shader_calls created_vs GL_VERTEX_SHADER vertex_source
                                      ++ shader_calls created_fs GL_FRAGMENT_SHADER frag_source
                                      ++ [glCreateProgram]))).
  { unfold program, s2, s1, session_after, session_with. cbn [events].
    rewrite !map_app, <- ?app_assoc. reflexivity. }
  assert (Hvlog : vlog = info_log cmp
                    (events s
                     ++ map inr (shader_calls created_vs GL_VERTEX_SHADER vertex_source))).
  { unfold vlog. cbn [shader_calls map app]. rewrite <- ?app_assoc. reflexivity. }
  assert (Hflog : flog = info_log cmp
                    (events s
                     ++ map inr (shader_calls created_vs GL_VERTEX_SHADER vertex_source
                                 ++ shader_calls created_fs GL_FRAGMENT_SHADER frag_source))).
  { unfold flog, s1, session_with. cbn [events shader_calls map app].
    rewrite <- ?app_assoc. reflexivity. }
  unfold s2, s1, session_after, session_with. cbn [events session_log].
  rewrite <- !app_assoc. rewrite drop_app_length.
  split.
  { cbn [created_shaders shader_calls link_calls map app].
    rewrite <- !app_assoc. cbn [app].
    unfold created_fs, s1, session_with. cbn [events shader_calls map].
    rewrite <- ?app_assoc. reflexivity. }
  split; [exact Hprogram |].
  split.
  { rewrite Hprogram. cbn [created_programs shader_calls link_calls map app].
    rewrite <- !app_assoc. reflexivity. }
  split; [reflexivity |].
  split; [| split].
  - intros Hv. rewrite <- Hvlog. fold (failure_line vertex_source vlog).
    apply in_or_app. left. rewrite Hv. now left.
  - intros Hf. rewrite <- Hflog. fold (failure_line frag_source flog).
    apply in_or_app. right. rewrite Hf. now left.
  - unfold base_calls. rewrite !omap_app. cbn. now rewrite !app_nil_r.
Qed.

Lemma created_programs_app (cmp : gl_compiler) (before es es' : list gl_event) :
  created_programs cmp before (es ++ es')
  = created_programs cmp before es ++ created_programs cmp (before ++ es) es'.
Proof.
  revert before. induction es as [| e es IH]; intros before.
  - cbn. now rewrite app_nil_r.
  - cbn [app created_programs]. rewrite IH, <- !app_assoc. reflexivity.
Qed.

Lemma shader_sources_app (cs cs' : list gl_call_more) :
  shader_sources (cs ++ cs') = shader_sources cs ++ shader_sources cs'.
Proof. unfold shader_sources. apply flat_map_app. Qed.

(** The shape of one [compile_program] run. *)
Lemma compile_program_shape {O : Type} (cmp : gl_compiler)
    (vertex_source frag_source : string) (o : O) (s : session) :
  exists (program : Z) (cs : list gl_call_more) (lines : list string),
    compile_program cmp vertex_source frag_source (o, s)
    = (Returns program, (o, session_with s (map inr cs) lines))
    /\ shader_sources cs = [c_str vertex_source; c_str frag_source]
    /\ created_programs cmp (events s) (map inr cs) = [program]
    /\ length cs = 16%nat.
Proof.
  unfold compile_program. unfold bind at 1. rewrite compile_shader_run.
  set (created_vs := created_name cmp (events s ++ [inr (glCreateShader GL_VERTEX_SHADER)])).
  set (vstatus := compile_status cmp _).
  set (vlog := info_log cmp _).
  set (s1 := session_with s _ _).
  unfold bind at 1. rewrite compile_shader_run.
  set (created_fs := created_name cmp (events s1 ++ [inr (glCreateShader GL_FRAGMENT_SHADER)])).
  set (fstatus := compile_status cmp _).
  set (flog := info_log cmp _).
  set (s2 := session_with s1 _ _).
  unfold bind, GL_CALL_MORE, session_events, modify, ret. cbn [fst snd].
  rewrite !session_after_app. cbn [app].
  set (program := created_name cmp _).
  exists program,
    (shader_calls created_vs GL_VERTEX_SHADER vertex_source
     ++ shader_calls created_fs GL_FRAGMENT_SHADER frag_source
     ++ link_calls program (if vstatus =? 0 then UINT32_MAX else created_vs)
          (if fstatus =? 0 then UINT32_MAX else created_fs)).
  eexists. split; [| split; [reflexivity | split; [| reflexivity]]].
  - rewrite session_after_with. unfold s2, s1. rewrite !session_with_with.
    rewrite !map_app, <- ?app_assoc, ?app_nil_r. reflexivity.
  - cbn [shader_calls link_calls map app created_programs].
    rewrite <- !app_assoc. cbn [app].
    unfold program, s2, s1, session_after, session_with. cbn [events shader_calls map].
    rewrite <- ?app_assoc. reflexivity.
Qed.

(** [replace_builtin_with] gives the same string in every state. *)
Lemma replace_builtin_with_pure (source builtin_ with_ : string) :
  exists r : string,
    forall (S : Type) (st : S), replace_builtin_with source builtin_ with_ st = (Returns r, st).
Proof.
  destruct (find source builtin_) as [pos |] eqn:Hfind.
  - assert (Hempty : builtin_ = "" -> pos = 0%nat).
    { intros ->. rewrite find_empty in Hfind. now injection Hfind. }
    destruct (substring_occurrence_split pos builtin_ source Hempty
                (String.index_correct1 _ _ _ _ Hfind)) as (post & Hfrom & _).
    exists (String.substring 0 pos source +:+ with_ +:+ post). intros S st.
    unfold replace_builtin_with. rewrite Hfind.
    unfold substr_or_raise, substr, bind, ret. cbn [substr_from]. now rewrite Hfrom.
  - exists source. intros S st. unfold replace_builtin_with. now rewrite Hfind.
Qed.

Lemma fragment_for_pure (fragment_source builtin_text builtin_ext_text : string) :
  exists fragment : string,
    fragment_for fragment_source builtin_text builtin_ext_text = Returns fragment
    /\ forall (S : Type) (st : S),
        (fragment <- replace_builtin_with fragment_source builtin builtin_text ;;
         replace_builtin_with fragment builtin_ext builtin_ext_text)%cxx st
        = (Returns fragment, st).
Proof.
  destruct (replace_builtin_with_pure fragment_source builtin builtin_text) as (r1 & H1).
  destruct (replace_builtin_with_pure r1 builtin_ext builtin_ext_text) as (r2 & H2).
  exists r2. split.
  - unfold fragment_for, bind. now rewrite H1, H2.
  - intros S st. unfold bind. now rewrite H1, H2.
Qed.

(** One round of the loop of [compile]. *)
Lemma compile_round (cmp : gl_compiler) (vertex_source fragment_source : string)
    (type : texture_type_t) (builtin_text builtin_ext_text : string)
    (p : impl) (s : session) :
  exists (fragment : string) (program : Z) (cs : list gl_call_more) (lines : list string),
    (fragment <- replace_builtin_with fragment_source builtin builtin_text ;;
     fragment <- replace_builtin_with fragment builtin_ext builtin_ext_text ;;
     program <- compile_program cmp vertex_source fragment ;;
     p0 <- in_world this ;;
     in_world (set_this (set_id (array_set (id p0) (type_index type) program) p0)))%cxx
      (p, s)
    = (Returns tt,
       (set_id (array_set (id p) (type_index type) program) p,
        session_with s (map inr cs) lines))
    /\ fragment_for fragment_source builtin_text builtin_ext_text = Returns fragment
    /\ shader_sources cs = [c_str vertex_source; c_str fragment]
    /\ created_programs cmp (events s) (map inr cs) = [program]
    /\ length cs = 16%nat.
Proof.
  destruct (replace_builtin_with_pure fragment_source builtin builtin_text) as (r1 & H1).
  destruct (replace_builtin_with_pure r1 builtin_ext builtin_ext_text) as (r2 & H2).
  destruct (compile_program_shape cmp vertex_source r2 p s)
    as (program & cs & lines & Hrun & Hsources & Hcreated & Hlen).
  exists r2, program, cs, lines. split; [| split; [| auto]].
  - unfold bind at 1. rewrite H1. unfold bind at 1. rewrite H2.
    unfold bind at 1. rewrite Hrun. unfold bind. rewrite in_world_this.
    now rewrite in_world_set_this.
  - unfold fragment_for, bind. now rewrite H1, H2.
Qed.

(** X27. [program_t::compile] first deletes the programs held, then
    builds one program per class, in the order RGBA, RGBX, EXTERNAL, from
    the vertex source and from the fragment source with the two built-in
    symbols substituted for the class, and registers whatever name OpenGL
    gave each program. It never raises and never reports a failed
    compilation; it makes 48 calls after the deletions, none of which is a
    drawing call, and it leaves the location caches as they were. *)
Theorem compile_registers_three_programs :
  forall (cmp : gl_compiler)
         (builtin_rgba_source builtin_rgbx_source : string)
         (builtin_external_source builtin_ext_external_source : string)
         (vertex_source fragment_source : string) (p : impl) (s : session),
    length (id p) = 3%nat ->
    exists (rgba rgbx external : Z) (fragment_rgba fragment_rgbx fragment_external : string)
           (cs : list gl_call_more) (lines : list string),
      let deletions :=
        map inl (map glDeleteProgram (List.filter (fun v => negb (v =? 0)) (id p))) in
      compile cmp builtin_rgba_source builtin_rgbx_source builtin_external_source
        builtin_ext_external_source vertex_source fragment_source (p, s)
      = (Returns tt,
         (set_id [rgba; rgbx; external] p,
          session_with s (deletions ++ map inr cs) lines))
      /\ fragment_for fragment_source builtin_rgba_source "" = Returns fragment_rgba
      /\ fragment_for fragment_source builtin_rgbx_source "" = Returns fragment_rgbx
      /\ fragment_for fragment_source builtin_external_source builtin_ext_external_source
         = Returns fragment_external
      /\ shader_sources cs
         = [c_str vertex_source; c_str fragment_rgba;
            c_str vertex_source; c_str fragment_rgbx;
            c_str vertex_source; c_str fragment_external]
      /\ created_programs cmp (events s ++ deletions) (map inr cs) = [rgba; rgbx; external]
      /\ length cs = 48%nat.
Proof.
  intros cmp brgba brgbx bext bextext vertex_source fragment_source p s Hlen.
  cbv zeta. unfold compile. unfold bind at 1.
  rewrite (in_world_run free_resources p (set_id [0; 0; 0] p) s (Returns tt)
             (map glDeleteProgram (List.filter (fun v => negb (v =? 0)) (id p))))
    by (now apply free_resources_exact).
  set (deletions := map inl (map glDeleteProgram _)).
  unfold builtins. cbn [for_each fst snd builtin_source builtin_ext_source].
  destruct (compile_round cmp vertex_source fragment_source TEXTURE_TYPE_RGBA brgba ""
              (set_id [0; 0; 0] p) (session_after s deletions))
    as (f1 & p1 & cs1 & l1 & Hrun1 & Hf1 & Hs1 & Hc1 & Hn1).
  unfold bind at 1. rewrite Hrun1. clear Hrun1.
  set (q1 := set_id _ (set_id [0; 0; 0] p)).
  set (s1 := session_with (session_after s deletions) (map inr cs1) l1).
  destruct (compile_round cmp vertex_source fragment_source TEXTURE_TYPE_RGBX brgbx "" q1 s1)
    as (f2 & p2 & cs2 & l2 & Hrun2 & Hf2 & Hs2 & Hc2 & Hn2).
  unfold bind at 1. rewrite Hrun2. clear Hrun2.
  set (q2 := set_id _ q1).
  set (s2 := session_with s1 (map inr cs2) l2).
  destruct (compile_round cmp vertex_source fragment_source TEXTURE_TYPE_EXTERNAL bext bextext
              q2 s2)
    as (f3 & p3 & cs3 & l3 & Hrun3 & Hf3 & Hs3 & Hc3 & Hn3).
  unfold bind at 1. rewrite Hrun3. clear Hrun3.
  exists p1, p2, p3, f1, f2, f3, (cs1 ++ cs2 ++ cs3), (l1 ++ l2 ++ l3).
  split; [| split; [exact Hf1 | split; [exact Hf2 | split; [exact Hf3 | split; [| split]]]]].
  - unfold ret.
    assert (Hq : set_id (array_set (id q2) (type_index TEXTURE_TYPE_EXTERNAL) p3) q2
                 = set_id [p1; p2; p3] p)
      by (unfold q2, q1; destruct p; reflexivity).
    assert (Hs : session_with s2 (map inr cs3) l3
                 = session_with s (deletions ++ map inr (cs1 ++ cs2 ++ cs3)) (l1 ++ l2 ++ l3)).
    { unfold s2, s1. rewrite session_after_with, !session_with_with.
      rewrite !map_app, <- ?app_assoc. reflexivity. }
    now rewrite Hq, Hs.
  - now rewrite !shader_sources_app, Hs1, Hs2, Hs3.
  - rewrite !map_app, !created_programs_app.
    unfold s2, s1, session_with, session_after in Hc1, Hc2, Hc3.
    cbn [events] in Hc1, Hc2, Hc3.
    rewrite <- !app_assoc in Hc2. rewrite <- !app_assoc in Hc3. rewrite <- ?app_assoc.
    now rewrite Hc1, Hc2, Hc3.
  - rewrite !length_app. lia.
Qed.

Lemma compile_registers_three_programs_witness :
  exists (rgba rgbx external : Z) (cs : list gl_call_more) (lines : list string),
    compile compiler_rejecting "uniform sampler2D _wayfire_texture;" "" "" ""
      "void main() {}" "@builtin@ void main() {}" (program_compiled, session_initial)
    = (Returns tt,
       (set_id [rgba; rgbx; external] program_compiled,
        session_with session_initial
          (map inl [glDeleteProgram 7; glDeleteProgram 8; glDeleteProgram 9] ++ map inr cs)
          lines))
    /\ length cs = 48%nat.
Proof.
  destruct (compile_registers_three_programs compiler_rejecting
              "uniform sampler2D _wayfire_texture;" "" "" ""
              "void main() {}" "@builtin@ void main() {}" program_compiled session_initial
              eq_refl)
    as (rgba & rgbx & external & _ & _ & _ & cs & lines & Hrun & _ & _ & _ & _ & _ & Hlen).
  exists rgba, rgbx, external, cs, lines. split; [exact Hrun | exact Hlen].
Defined.
